(** * fluxer.js: rate limiting, close codes, tokens and embed builders

    A shallow embedding of the parts of the SDK that its specification
    makes checkable statements about:

    - [src/util/token.ts]              ([Token])
    - [src/gateway/closeCodes.ts]      ([CloseCodes])
    - [src/builders/EmbedBuilder.ts]   ([Embed])
    - [src/rateLimit/RateLimitBucket.ts]  ([Bucket], [BucketQueue])
    - [src/rateLimit/RateLimitConfig.ts] and the [RateLimitManager] class
      ([Manager])

    Conventions.  A JavaScript [number] that the code only ever uses as an
    integer count or a millisecond amount ([limit], [windowMs], a
    timestamp, a length) is a [Z]; results that can also be [NaN] or
    [Infinity] have type [number].  A JavaScript string is a
    [string] (a sequence of code units).  [Date.now()] is an input: every
    function takes the readings it draws from the clock, in program
    order.  A [throw] is the [Throw] case of [result]. *)

From Stdlib Require Import ZArith List String Ascii Bool Lia Sorted.
From stdpp Require Import gmap strings.
Import ListNotations.

#[local] Arguments String.append !s1 s2 : simpl nomatch.

(** ** JavaScript values used by the code *)

Module JS.

Local Open Scope string_scope.

(** The numbers the rate limiter can return: an integer, [Infinity]
    (from [getBucketInfo]) or [NaN] (arithmetic on [undefined]). *)
Inductive number : Type :=
| Int (z : Z)
| Infinity
| NaN.

(** [x > 0] on numbers; every comparison with [NaN] is false. *)
Definition gt0 (x : number) : bool :=
  match x with
  | Int z => (0 <? z)%Z
  | Infinity => true
  | NaN => false
  end.

(** Truthiness of an optional string ([undefined] and the empty string
    are falsy). *)
Definition truthy (o : option string) : bool :=
  match o with
  | Some s => negb (String.eqb s EmptyString)
  | None => false
  end.

(** [s.startsWith(p)] *)
Fixpoint startsWith (p s : string) : bool :=
  match p, s with
  | EmptyString, _ => true
  | String a p', String b s' => Ascii.eqb a b && startsWith p' s'
  | String _ _, EmptyString => false
  end.

(** [s.slice(n)] for [0 <= n]: the code units from index [n] on. *)
Fixpoint slice (n : nat) (s : string) : string :=
  match n, s with
  | O, _ => s
  | S n', String _ s' => slice n' s'
  | S _, EmptyString => EmptyString
  end.

(** The first occurrence of [pat] in [s], as the text before it and the
    text after it. *)
Fixpoint split_first (pat s : string) : option (string * string) :=
  if startsWith pat s then Some (EmptyString, slice (String.length pat) s)
  else
    match s with
    | EmptyString => None
    | String c s' =>
        match split_first pat s' with
        | Some (pre, post) => Some (String c pre, post)
        | None => None
        end
    end.

(** [pat] occurs in [s]. *)
Definition occurs (pat s : string) : Prop := exists a b, s = a ++ pat ++ b.

(** [s.includes(pat)] *)
Definition includes (pat s : string) : bool :=
  match split_first pat s with Some _ => true | None => false end.

(** ECMAScript [GetSubstitution] for a string pattern (no capture
    groups): in the replacement text, [$$] is a dollar sign, [$&] the
    matched text, [$`] the text before the match and [$'] the text after
    it; any other [$] stands for itself. *)
Fixpoint GetSubstitution (matched pre post templ : string) : string :=
  match templ with
  | EmptyString => EmptyString
  | String c r =>
      if Ascii.eqb c "$" then
        match r with
        | String d r' =>
            if Ascii.eqb d "$" then String "$" (GetSubstitution matched pre post r')
            else if Ascii.eqb d "&" then matched ++ GetSubstitution matched pre post r'
            else if Ascii.eqb d "`" then pre ++ GetSubstitution matched pre post r'
            else if Ascii.eqb d "'" then post ++ GetSubstitution matched pre post r'
            else String c (GetSubstitution matched pre post r)
        | EmptyString => String c (GetSubstitution matched pre post r)
        end
      else String c (GetSubstitution matched pre post r)
  end.

(** Every code unit of [s] satisfies [f]. *)
Fixpoint all_chars (f : ascii -> bool) (s : string) : bool :=
  match s with
  | EmptyString => true
  | String c r => f c && all_chars f r
  end.

(** [s.replace(pat, repl)] with a string pattern: only the first
    occurrence is replaced. *)
Definition replace (pat repl s : string) : string :=
  match split_first pat s with
  | Some (pre, post) => pre ++ GetSubstitution pat pre post repl ++ post
  | None => s
  end.

End JS.

(** ** [src/util/token.ts] *)

Module Token.

Local Open Scope string_scope.

Definition getGatewayToken (token : string) : string :=
  if JS.startsWith "Bot " token then JS.slice 4 token else token.

End Token.

(** ** [src/gateway/closeCodes.ts] *)

Module CloseCodes.

Local Open Scope Z_scope.

Inductive FluxorCloseCode : Type :=
| UnknownError
| UnknownOpCode
| DecodeError
| NotAuthenticated
| AuthenticationFailed
| AlreadyAuthenticated
| InvalidSequence
| RateLimited
| SessionTimedOut
| InvalidShard
| ShardingRequired
| InvalidApiVersion
| InvalidIntents
| DisallowedIntents.

(** The numeric value of each enum member. *)
Definition code_of (c : FluxorCloseCode) : Z :=
  match c with
  | UnknownError => 4000
  | UnknownOpCode => 4001
  | DecodeError => 4002
  | NotAuthenticated => 4003
  | AuthenticationFailed => 4004
  | AlreadyAuthenticated => 4005
  | InvalidSequence => 4007
  | RateLimited => 4008
  | SessionTimedOut => 4009
  | InvalidShard => 4010
  | ShardingRequired => 4011
  | InvalidApiVersion => 4012
  | InvalidIntents => 4013
  | DisallowedIntents => 4014
  end.

Definition all_codes : list FluxorCloseCode :=
  [ UnknownError; UnknownOpCode; DecodeError; NotAuthenticated;
    AuthenticationFailed; AlreadyAuthenticated; InvalidSequence;
    RateLimited; SessionTimedOut; InvalidShard; ShardingRequired;
    InvalidApiVersion; InvalidIntents; DisallowedIntents ].

(** The [switch] of [shouldReconnect]: six [case] labels fall through to
    [return false], [default] returns [true]. *)
Definition shouldReconnect (code : Z) : bool :=
  if code =? code_of AuthenticationFailed then false
  else if code =? code_of InvalidShard then false
  else if code =? code_of ShardingRequired then false
  else if code =? code_of InvalidApiVersion then false
  else if code =? code_of InvalidIntents then false
  else if code =? code_of DisallowedIntents then false
  else true.

End CloseCodes.

(** ** Exceptions *)

Module Exn.

(** What a [RangeError] of the embed builders complains about (its
    message names the limit). *)
Inductive RangeErrorKind : Type :=
| AuthorNameExceeds
| FooterTextExceeds
| FieldNameExceeds
| FieldValueExceeds
| TitleExceeds
| DescriptionExceeds
| CannotAddMoreFields
| TotalEmbedLengthExceeds (totalLen : Z).

Inductive error : Type :=
| RangeError (k : RangeErrorKind)
| TypeError.

(** A call either returns or throws. *)
Inductive result (A : Type) : Type :=
| Ok (a : A)
| Throw (e : error).
Arguments Ok {A} a.
Arguments Throw {A} e.

Definition bind {A B : Type} (r : result A) (k : A -> result B) : result B :=
  match r with
  | Ok a => k a
  | Throw e => Throw e
  end.

Definition raisesRangeError {A : Type} (r : result A) : Prop :=
  exists k, r = Throw (RangeError k).

End Exn.

(** ** [src/builders/EmbedBuilder.ts] *)

Module Embed.

Import Exn.
Local Open Scope Z_scope.

(** [s.length] *)
Definition len (s : string) : Z := Z.of_nat (String.length s).

Notation "x <- r ;; k" := (bind r (fun x => k))
  (at level 100, r at next level, right associativity).

Definition MaxTitleLength : Z := 256.
Definition MaxDescriptionLength : Z := 4096.
Definition MaxFieldCount : Z := 25.
Definition MaxFieldNameLength : Z := 256.
Definition MaxFieldValueLength : Z := 1024.
Definition MaxFooterTextLength : Z := 2048.
Definition MaxAuthorNameLength : Z := 256.
Definition MaxEmbedLength : Z := 6000.

(** *** Wire types ([src/types/models.ts]) *)

Record EmbedFooter : Type := {
  footer_text : string;
  footer_icon_url : option string;
}.

Record EmbedAuthor : Type := {
  author_name : string;
  author_url : option string;
  author_icon_url : option string;
}.

Record EmbedField : Type := {
  field_name : string;
  field_value : string;
  field_inline : option bool;
}.

Record EmbedMedia : Type := {
  media_url : option string;
}.

Record Embed : Type := {
  title : option string;
  description : option string;
  url : option string;
  timestamp : option string;
  color : option Z;
  footer : option EmbedFooter;
  image : option EmbedMedia;
  thumbnail : option EmbedMedia;
  author : option EmbedAuthor;
  fields : option (list EmbedField);
}.

(** *** Sub-builders: the constructor validates, [build] copies. *)

Definition EmbedAuthorBuilder_new (name : string) : result EmbedAuthor :=
  if MaxAuthorNameLength <? len name
  then Throw (RangeError AuthorNameExceeds)
  else Ok {| author_name := name; author_url := None; author_icon_url := None |}.

Definition EmbedAuthorBuilder_setUrl (u : string) (ab : EmbedAuthor) : EmbedAuthor :=
  {| author_name := author_name ab; author_url := Some u;
     author_icon_url := author_icon_url ab |}.

Definition EmbedAuthorBuilder_setIconUrl (u : string) (ab : EmbedAuthor) : EmbedAuthor :=
  {| author_name := author_name ab; author_url := author_url ab;
     author_icon_url := Some u |}.

Definition EmbedFooterBuilder_new (text : string) : result EmbedFooter :=
  if MaxFooterTextLength <? len text
  then Throw (RangeError FooterTextExceeds)
  else Ok {| footer_text := text; footer_icon_url := None |}.

Definition EmbedFooterBuilder_setIconUrl (u : string) (fb : EmbedFooter) : EmbedFooter :=
  {| footer_text := footer_text fb; footer_icon_url := Some u |}.

Definition EmbedFieldBuilder_new (name value : string) (inline : option bool)
  : result EmbedField :=
  if MaxFieldNameLength <? len name
  then Throw (RangeError FieldNameExceeds)
  else if MaxFieldValueLength <? len value
  then Throw (RangeError FieldValueExceeds)
  else Ok {| field_name := name; field_value := value; field_inline := inline |}.

(** *** The builder's private state *)

Record EmbedBuilder : Type := {
  _title : option string;
  _description : option string;
  _url : option string;
  _timestamp : option string;
  _color : option Z;
  _footer : option EmbedFooter;
  _image : option EmbedMedia;
  _thumbnail : option EmbedMedia;
  _author : option EmbedAuthor;
  _fields : list EmbedField;
}.

Definition EmbedBuilder_new : EmbedBuilder :=
  {| _title := None; _description := None; _url := None; _timestamp := None;
     _color := None; _footer := None; _image := None; _thumbnail := None;
     _author := None; _fields := [] |}.

Definition with_title (v : option string) (b : EmbedBuilder) : EmbedBuilder :=
  {| _title := v; _description := _description b; _url := _url b;
     _timestamp := _timestamp b; _color := _color b; _footer := _footer b;
     _image := _image b; _thumbnail := _thumbnail b; _author := _author b;
     _fields := _fields b |}.

Definition with_description (v : option string) (b : EmbedBuilder) : EmbedBuilder :=
  {| _title := _title b; _description := v; _url := _url b;
     _timestamp := _timestamp b; _color := _color b; _footer := _footer b;
     _image := _image b; _thumbnail := _thumbnail b; _author := _author b;
     _fields := _fields b |}.

Definition with_footer (v : option EmbedFooter) (b : EmbedBuilder) : EmbedBuilder :=
  {| _title := _title b; _description := _description b; _url := _url b;
     _timestamp := _timestamp b; _color := _color b; _footer := v;
     _image := _image b; _thumbnail := _thumbnail b; _author := _author b;
     _fields := _fields b |}.

Definition with_author (v : option EmbedAuthor) (b : EmbedBuilder) : EmbedBuilder :=
  {| _title := _title b; _description := _description b; _url := _url b;
     _timestamp := _timestamp b; _color := _color b; _footer := _footer b;
     _image := _image b; _thumbnail := _thumbnail b; _author := v;
     _fields := _fields b |}.

Definition with_fields (v : list EmbedField) (b : EmbedBuilder) : EmbedBuilder :=
  {| _title := _title b; _description := _description b; _url := _url b;
     _timestamp := _timestamp b; _color := _color b; _footer := _footer b;
     _image := _image b; _thumbnail := _thumbnail b; _author := _author b;
     _fields := v |}.

Definition with_url (v : option string) (b : EmbedBuilder) : EmbedBuilder :=
  {| _title := _title b; _description := _description b; _url := v;
     _timestamp := _timestamp b; _color := _color b; _footer := _footer b;
     _image := _image b; _thumbnail := _thumbnail b; _author := _author b;
     _fields := _fields b |}.

Definition with_timestamp (v : option string) (b : EmbedBuilder) : EmbedBuilder :=
  {| _title := _title b; _description := _description b; _url := _url b;
     _timestamp := v; _color := _color b; _footer := _footer b;
     _image := _image b; _thumbnail := _thumbnail b; _author := _author b;
     _fields := _fields b |}.

Definition with_color (v : option Z) (b : EmbedBuilder) : EmbedBuilder :=
  {| _title := _title b; _description := _description b; _url := _url b;
     _timestamp := _timestamp b; _color := v; _footer := _footer b;
     _image := _image b; _thumbnail := _thumbnail b; _author := _author b;
     _fields := _fields b |}.

Definition with_image (v : option EmbedMedia) (b : EmbedBuilder) : EmbedBuilder :=
  {| _title := _title b; _description := _description b; _url := _url b;
     _timestamp := _timestamp b; _color := _color b; _footer := _footer b;
     _image := v; _thumbnail := _thumbnail b; _author := _author b;
     _fields := _fields b |}.

Definition with_thumbnail (v : option EmbedMedia) (b : EmbedBuilder) : EmbedBuilder :=
  {| _title := _title b; _description := _description b; _url := _url b;
     _timestamp := _timestamp b; _color := _color b; _footer := _footer b;
     _image := _image b; _thumbnail := v; _author := _author b;
     _fields := _fields b |}.

(** *** Setters.  [title == null] is [None]. *)

Definition setTitle (title : option string) (b : EmbedBuilder) : result EmbedBuilder :=
  match title with
  | None => Throw TypeError
  | Some t =>
      if MaxTitleLength <? len t
      then Throw (RangeError TitleExceeds)
      else Ok (with_title (Some t) b)
  end.

Definition setDescription (description : option string) (b : EmbedBuilder)
  : result EmbedBuilder :=
  match description with
  | None => Throw TypeError
  | Some d =>
      if MaxDescriptionLength <? len d
      then Throw (RangeError DescriptionExceeds)
      else Ok (with_description (Some d) b)
  end.

Definition setFooter (text : string) (iconUrl : option string) (b : EmbedBuilder)
  : result EmbedBuilder :=
  fb <- EmbedFooterBuilder_new text ;;
  let fb := match iconUrl with
            | Some u => if JS.truthy iconUrl then EmbedFooterBuilder_setIconUrl u fb else fb
            | None => fb
            end in
  Ok (with_footer (Some fb) b).

Definition setAuthor (name : string) (url iconUrl : option string) (b : EmbedBuilder)
  : result EmbedBuilder :=
  ab <- EmbedAuthorBuilder_new name ;;
  let ab := match url with
            | Some u => if JS.truthy url then EmbedAuthorBuilder_setUrl u ab else ab
            | None => ab
            end in
  let ab := match iconUrl with
            | Some u => if JS.truthy iconUrl then EmbedAuthorBuilder_setIconUrl u ab else ab
            | None => ab
            end in
  Ok (with_author (Some ab) b).

Definition addField (name value : string) (inline : option bool) (b : EmbedBuilder)
  : result EmbedBuilder :=
  if MaxFieldCount <=? Z.of_nat (List.length (_fields b))
  then Throw (RangeError CannotAddMoreFields)
  else
    fb <- EmbedFieldBuilder_new name value inline ;;
    Ok (with_fields (_fields b ++ [fb]) b).

(** The setters that validate nothing.  [setTimestamp] is given the ISO
    string that its three branches end up storing. *)
Definition setUrl (u : string) (b : EmbedBuilder) : EmbedBuilder :=
  with_url (Some u) b.

Definition setTimestamp (iso : string) (b : EmbedBuilder) : EmbedBuilder :=
  with_timestamp (Some iso) b.

Definition setColor (c : Z) (b : EmbedBuilder) : EmbedBuilder :=
  with_color (Some c) b.

Definition setImage (u : string) (b : EmbedBuilder) : EmbedBuilder :=
  with_image (Some {| media_url := Some u |}) b.

Definition setThumbnail (u : string) (b : EmbedBuilder) : EmbedBuilder :=
  with_thumbnail (Some {| media_url := Some u |}) b.

(** [addFields(...fields)]: the loop stops at the first field that throws;
    the fields pushed before it stay in the builder (the exception
    carries no state, so only the error is returned here). *)
Fixpoint addFields (fs : list EmbedField) (b : EmbedBuilder) : result EmbedBuilder :=
  match fs with
  | [] => Ok b
  | f :: rest =>
      b' <- addField (field_name f) (field_value f) (field_inline f) b ;;
      addFields rest b'
  end.

(** The builders a program can hold: a new one, or one that a setter
    returned (a setter that throws leaves the builder as it was). *)
Inductive built : EmbedBuilder -> Prop :=
| built_new : built EmbedBuilder_new
| built_setTitle t b b' : built b -> setTitle t b = Ok b' -> built b'
| built_setDescription d b b' : built b -> setDescription d b = Ok b' -> built b'
| built_setUrl u b : built b -> built (setUrl u b)
| built_setTimestamp iso b : built b -> built (setTimestamp iso b)
| built_setColor c b : built b -> built (setColor c b)
| built_setFooter t i b b' : built b -> setFooter t i b = Ok b' -> built b'
| built_setImage u b : built b -> built (setImage u b)
| built_setThumbnail u b : built b -> built (setThumbnail u b)
| built_setAuthor n u i b b' : built b -> setAuthor n u i b = Ok b' -> built b'
| built_addField n v i b b' : built b -> addField n v i b = Ok b' -> built b'.

(** [if (s) total += s.length] *)
Definition add_if_truthy (total : Z) (s : option string) : Z :=
  match s with
  | Some t => if JS.truthy s then total + len t else total
  | None => total
  end.

Definition _totalLength (b : EmbedBuilder) : Z :=
  let total := 0 in
  let total := add_if_truthy total (_title b) in
  let total := add_if_truthy total (_description b) in
  let total := match _footer b with
               | Some f => total + len (footer_text f)
               | None => total
               end in
  let total := match _author b with
               | Some a => total + len (author_name a)
               | None => total
               end in
  fold_left
    (fun total f => total + (len (field_name f) + len (field_value f)))
    (_fields b) total.

Definition build (b : EmbedBuilder) : result Embed :=
  let totalLen := _totalLength b in
  if MaxEmbedLength <? totalLen
  then Throw (RangeError (TotalEmbedLengthExceeds totalLen))
  else
    Ok {| title := _title b;
          description := _description b;
          url := _url b;
          timestamp := _timestamp b;
          color := _color b;
          footer := _footer b;
          image := _image b;
          thumbnail := _thumbnail b;
          author := _author b;
          fields := if 0 <? Z.of_nat (List.length (_fields b)) then Some (_fields b) else None |}.

(** The embed's text size in the specification's words: title,
    description, footer text, author name and every field's name and
    value. *)
Definition opt_length (s : option string) : Z :=
  match s with Some t => len t | None => 0 end.

Definition text_size (b : EmbedBuilder) : Z :=
  opt_length (_title b) + opt_length (_description b)
  + opt_length (option_map footer_text (_footer b))
  + opt_length (option_map author_name (_author b))
  + fold_right Z.add 0
      (map (fun f => len (field_name f) + len (field_value f)) (_fields b)).

(** A builder with a title and one field. *)
Definition sample_builder : EmbedBuilder :=
  with_fields
    [{| field_name := "Ping"; field_value := "42 ms"; field_inline := Some true |}]
    (with_title (Some "Status"%string) EmbedBuilder_new).

End Embed.

(** ** [src/rateLimit/RateLimitBucket.ts] *)

Module Bucket.

Import JS.
Local Open Scope Z_scope.

Record RateLimitBucket : Type := {
  bucketKey : string;
  limit : Z;
  windowMs : Z;
  exemptFromGlobal : bool;
  (** Timestamps (ms) of requests inside the current window, oldest first. *)
  _timestamps : list Z;
}.

(** [new RateLimitBucket(bucketKey, limit, windowMs, exemptFromGlobal)] *)
Definition RateLimitBucket_new (key : string) (l w : Z) (ex : bool) : RateLimitBucket :=
  {| bucketKey := key; limit := l; windowMs := w; exemptFromGlobal := ex;
     _timestamps := [] |}.

Definition with_timestamps (ts : list Z) (b : RateLimitBucket) : RateLimitBucket :=
  {| bucketKey := bucketKey b; limit := limit b; windowMs := windowMs b;
     exemptFromGlobal := exemptFromGlobal b; _timestamps := ts |}.

(** The [while] loop of [_prune]: [shift()] for as long as the head is
    below the cutoff. *)
Fixpoint prune_loop (cutoff : Z) (ts : list Z) : list Z :=
  match ts with
  | t :: rest => if t <? cutoff then prune_loop cutoff rest else ts
  | [] => []
  end.

(** [_prune()], with [now] the reading of [Date.now()]. *)
Definition _prune (now : Z) (b : RateLimitBucket) : RateLimitBucket :=
  let cutoff := now - windowMs b in
  with_timestamps (prune_loop cutoff (_timestamps b)) b.

(** [_tryAcquire()]: [now1] is the clock reading inside [_prune], [now2]
    the one taken afterwards (by [push] or by the wait computation).
    With no timestamp left, [oldest] is [undefined] and the result is
    [Math.max(0, NaN)], that is [NaN]. *)
Definition _tryAcquire (now1 now2 : Z) (b : RateLimitBucket) : number * RateLimitBucket :=
  let b := _prune now1 b in
  if Z.of_nat (length (_timestamps b)) <? limit b then
    (Int 0, with_timestamps (_timestamps b ++ [now2]) b)
  else
    match _timestamps b with
    | oldest :: _ => (Int (Z.max 0 (oldest + windowMs b - now2)), b)
    | [] => (NaN, b)
    end.

(** The body queued by [getRemaining()]. *)
Definition getRemaining_body (now : Z) (b : RateLimitBucket) : number * RateLimitBucket :=
  let b := _prune now b in
  (Int (limit b - Z.of_nat (length (_timestamps b))), b).

(** The body queued by [getResetTime()]. *)
Definition getResetTime_body (now1 now2 : Z) (b : RateLimitBucket)
  : number * RateLimitBucket :=
  let b := _prune now1 b in
  match _timestamps b with
  | [] => (Int 0, b)
  | oldest :: _ => (Int (Z.max 0 (oldest + windowMs b - now2)), b)
  end.

(** The body queued by [reset()]: [this._timestamps.length = 0]. *)
Definition reset_body (b : RateLimitBucket) : RateLimitBucket :=
  with_timestamps [] b.

(** *** Histories of one bucket

    Every public method runs its body through the queue; a history is
    the sequence of bodies that have run, each with the clock readings
    it drew. *)
Inductive Op : Type :=
| OpAcquire (now1 now2 : Z)
| OpGetRemaining (now : Z)
| OpGetResetTime (now1 now2 : Z)
| OpReset.

Definition step (o : Op) (b : RateLimitBucket) : RateLimitBucket :=
  match o with
  | OpAcquire now1 now2 => snd (_tryAcquire now1 now2 b)
  | OpGetRemaining now => snd (getRemaining_body now b)
  | OpGetResetTime now1 now2 => snd (getResetTime_body now1 now2 b)
  | OpReset => reset_body b
  end.

(** The clock readings an operation draws, in program order. *)
Definition readings (o : Op) : list Z :=
  match o with
  | OpAcquire now1 now2 => [now1; now2]
  | OpGetRemaining now => [now]
  | OpGetResetTime now1 now2 => [now1; now2]
  | OpReset => []
  end.

(** [clock_from t l]: the readings [l] never go backwards and none is
    before [t]. *)
Fixpoint clock_from (t : Z) (l : list Z) : Prop :=
  match l with
  | [] => True
  | r :: l' => t <= r /\ clock_from r l'
  end.

(** [reachable t b]: [b] is the state of a bucket after some history
    under a clock that never went backwards and whose last reading was
    at most [t]. *)
Inductive reachable : Z -> RateLimitBucket -> Prop :=
| reach_new key l w ex t :
    reachable t (RateLimitBucket_new key l w ex)
| reach_step t b o t' :
    reachable t b ->
    clock_from t (readings o ++ [t']) ->
    reachable t' (step o b).

(** What every reachable bucket satisfies at time [t]: the timestamps
    ascend, none is later than [t], and there are at most [limit] of them
    (none for a limit below zero). *)
Definition wf (t : Z) (b : RateLimitBucket) : Prop :=
  StronglySorted Z.le (_timestamps b) /\
  Forall (fun x => x <= t) (_timestamps b) /\
  Z.of_nat (length (_timestamps b)) <= Z.max 0 (limit b).

(** The readings drawn by a row of [acquire()] calls. *)
Definition all_readings (rs : list (Z * Z)) : list Z :=
  flat_map (fun r => [fst r; snd r]) rs.

(** A bucket of limit 2 and window 1000 ms. *)
Definition sample_bucket : RateLimitBucket :=
  RateLimitBucket_new "users::me"%string 2 1000 false.

(** [n] calls of [acquire()] in a row, with their readings; the waits
    are returned in call order. *)
Fixpoint acquire_all (rs : list (Z * Z)) (b : RateLimitBucket)
  : list number * RateLimitBucket :=
  match rs with
  | [] => ([], b)
  | (now1, now2) :: rs' =>
      let (w, b1) := _tryAcquire now1 now2 b in
      let (ws, b2) := acquire_all rs' b1 in
      (w :: ws, b2)
  end.

End Bucket.

(** ** The promise queue of a bucket

    [_enqueue(fn)] chains [fn] behind [_queuePromise] and makes the new
    tail the queue promise, so the continuations form a list that the
    event loop runs oldest first, each one to completion (a body contains
    no [await]).  A caller is identified by the promise it got back. *)

Module BucketQueue.

Import JS Bucket.

(** A queued continuation: given the clock readings it will draw and the
    bucket, the value its promise resolves to and the new bucket. *)
Definition Body : Type := Z -> Z -> RateLimitBucket -> number * RateLimitBucket.

Record Queued : Type := {
  obj : RateLimitBucket;
  (** continuations chained on [_queuePromise] that have not run yet *)
  _queuePromise : list (nat * Body);
}.

Definition Queued_new (b : RateLimitBucket) : Queued :=
  {| obj := b; _queuePromise := [] |}.

(** [_enqueue(fn)], returning promise number [p]. *)
Definition _enqueue (p : nat) (fn : Body) (q : Queued) : Queued :=
  {| obj := obj q; _queuePromise := _queuePromise q ++ [(p, fn)] |}.

(** [acquire()] *)
Definition acquire (p : nat) (q : Queued) : Queued :=
  _enqueue p (fun now1 now2 b => _tryAcquire now1 now2 b) q.

(** One turn of the event loop on this bucket: the oldest pending
    continuation runs and settles its promise. *)
Definition turn (now1 now2 : Z) (q : Queued) : Queued * list (nat * number) :=
  match _queuePromise q with
  | [] => (q, [])
  | (p, fn) :: rest =>
      let (v, b) := fn now1 now2 (obj q) in
      ({| obj := b; _queuePromise := rest |}, [(p, v)])
  end.

(** What can happen to the bucket: a caller invokes [acquire()], or the
    event loop runs the next continuation (drawing these readings). *)
Inductive Event : Type :=
| Call (p : nat)
| Turn (now1 now2 : Z).

(** A schedule, executed from left to right; the settled promises are
    returned in settlement order. *)
Fixpoint exec (evs : list Event) (q : Queued) : Queued * list (nat * number) :=
  match evs with
  | [] => (q, [])
  | Call p :: evs' => exec evs' (acquire p q)
  | Turn now1 now2 :: evs' =>
      let (q1, out1) := turn now1 now2 q in
      let (q2, out2) := exec evs' q1 in
      (q2, out1 ++ out2)
  end.

(** The callers of a schedule, in call order. *)
Fixpoint callers (evs : list Event) : list nat :=
  match evs with
  | [] => []
  | Call p :: evs' => p :: callers evs'
  | Turn _ _ :: evs' => callers evs'
  end.

(** Every reading of the schedule lies in the window [[start, start + w)]. *)
Definition within_window (start w : Z) (evs : list Event) : Prop :=
  forall now1 now2, In (Turn now1 now2) evs ->
    (start <= now1 < start + w)%Z /\ (start <= now2 < start + w)%Z.

(** A caller is admitted when its promise resolves to a zero wait. *)
Definition is_admitted (r : nat * number) : bool :=
  match snd r with
  | Int 0 => true
  | _ => false
  end.

Definition admitted (out : list (nat * number)) : list nat :=
  map fst (List.filter is_admitted out).

(** A caller is deferred when its promise resolves to a positive wait. *)
Definition is_deferred (r : nat * number) : bool := gt0 (snd r).

(** The states of the race of the claim: limit [l], window [w], every
    recorded timestamp inside the window that starts at [start], and only
    [acquire] continuations pending. *)
Definition racing (l w start : Z) (q : Queued) : Prop :=
  limit (obj q) = l /\ windowMs (obj q) = w /\
  Forall (fun x => (start <= x < start + w)%Z) (_timestamps (obj q)) /\
  Forall (fun pf => snd pf = (fun now1 now2 b => _tryAcquire now1 now2 b))
         (_queuePromise q).

End BucketQueue.

(** ** [src/rateLimit/RateLimitConfig.ts] and the class [RateLimitManager] *)

Module Manager.

Import JS Bucket.
Local Open Scope string_scope.

Record RateLimitConfig : Type := {
  (** bucket key template *)
  bucket : string;
  cfg_limit : Z;
  cfg_windowMs : Z;
  cfg_exemptFromGlobal : option bool;
}.

Record BucketParams : Type := {
  channelId : option string;
  guildId : option string;
  userId : option string;
  targetId : option string;
  webhookId : option string;
  inviteCode : option string;
}.

(** [{}], the default of [params]. *)
Definition no_params : BucketParams :=
  {| channelId := None; guildId := None; userId := None;
     targetId := None; webhookId := None; inviteCode := None |}.

Record RateLimitManager : Type := {
  _buckets : gmap string RateLimitBucket;
  _enabled : bool;
}.

(** [new RateLimitManager(enabled)] *)
Definition RateLimitManager_new (enabled : bool) : RateLimitManager :=
  {| _buckets := ∅; _enabled := enabled |}.

(** One statement
    [if (param && key.includes(ph)) key = key.replace(ph, `::${param}`)]. *)
Definition substitute (param : option string) (ph : string) (key : string) : string :=
  match param with
  | Some id =>
      if truthy param && includes ph key
      then replace ph ("::" ++ id) key
      else key
  | None => key
  end.

(** The key computed by [getBucket] before the table lookup. *)
Definition resolveKey (config : RateLimitConfig) (params : BucketParams) : string :=
  let key := bucket config in
  let key := substitute (channelId params) "::channel_id" key in
  let key := substitute (guildId params) "::guild_id" key in
  let key := substitute (userId params) "::user_id" key in
  let key := substitute (targetId params) "::target_id" key in
  let key := substitute (webhookId params) "::webhook_id" key in
  let key := substitute (inviteCode params) "::invite_code" key in
  key.

(** *** The key in the specification's words

    A placeholder is substituted exactly when it occurs in the template
    and its parameter is supplied; substituting puts [::] and the ID in
    the place of the placeholder's first occurrence. *)
Definition put (ph id key : string) : string :=
  match split_first ph key with
  | Some (pre, post) => pre ++ "::" ++ id ++ post
  | None => key
  end.

Definition placeholders (params : BucketParams) : list (string * option string) :=
  [ ("::channel_id", channelId params);
    ("::guild_id", guildId params);
    ("::user_id", userId params);
    ("::target_id", targetId params);
    ("::webhook_id", webhookId params);
    ("::invite_code", inviteCode params) ].

Definition spec_substitute (template : string) (key : string)
    (entry : string * option string) : string :=
  match snd entry with
  | Some id => if includes (fst entry) template then put (fst entry) id key else key
  | None => key
  end.

Definition spec_resolveKey (config : RateLimitConfig) (params : BucketParams) : string :=
  fold_left (spec_substitute (bucket config)) (placeholders params) (bucket config).

(** IDs as the platform issues them: a supplied ID is a non-empty string
    of decimal digits; a supplied invite code is a non-empty string
    without a dollar sign. *)
Definition is_digit (c : ascii) : bool :=
  (48 <=? nat_of_ascii c)%nat && (nat_of_ascii c <=? 57)%nat.

(** The name of a placeholder: it contains no colon and does not start
    with a digit. *)
Definition is_name (s : string) : bool :=
  match s with
  | String c _ => negb (is_digit c) && all_chars (fun c => negb (Ascii.eqb c ":")) s
  | EmptyString => false
  end.

Definition decimal_id (param : option string) : Prop :=
  match param with
  | Some id => id <> EmptyString /\ all_chars is_digit id = true
  | None => True
  end.

Definition plain_code (param : option string) : Prop :=
  match param with
  | Some code =>
      code <> EmptyString /\ all_chars (fun c => negb (Ascii.eqb c "$")) code = true
  | None => True
  end.

Definition plain_ids (params : BucketParams) : Prop :=
  decimal_id (channelId params) /\ decimal_id (guildId params) /\
  decimal_id (userId params) /\ decimal_id (targetId params) /\
  decimal_id (webhookId params) /\ plain_code (inviteCode params).

(** What the earlier statements have kept: every placeholder left in the
    key was in the template. *)
Definition nothing_created (template key : string) : Prop :=
  forall name, is_name name = true ->
    occurs ("::" ++ name) key -> occurs ("::" ++ name) template.

(** [getBucket(config, params)]: the bucket ([None] is [null]) and the
    manager with its table updated. *)
Definition getBucket (config : RateLimitConfig) (params : BucketParams)
    (m : RateLimitManager) : option RateLimitBucket * RateLimitManager :=
  if negb (_enabled m) then (None, m)
  else
    let key := resolveKey config params in
    match _buckets m !! key with
    | Some b => (Some b, m)
    | None =>
        let b := RateLimitBucket_new key (cfg_limit config) (cfg_windowMs config)
                   (match cfg_exemptFromGlobal config with
                    | Some ex => ex
                    | None => false
                    end) in
        (Some b, {| _buckets := <[key := b]> (_buckets m); _enabled := _enabled m |})
    end.

(** Every bucket of the table is stored under its own key. *)
Definition table_ok (m : RateLimitManager) : Prop :=
  forall key b, _buckets m !! key = Some b -> bucketKey b = key.

(** [{ ...params, channelId: v }] and its like. *)
Definition set_channelId (v : option string) (p : BucketParams) : BucketParams :=
  {| channelId := v; guildId := guildId p; userId := userId p;
     targetId := targetId p; webhookId := webhookId p; inviteCode := inviteCode p |}.

Definition set_guildId (v : option string) (p : BucketParams) : BucketParams :=
  {| channelId := channelId p; guildId := v; userId := userId p;
     targetId := targetId p; webhookId := webhookId p; inviteCode := inviteCode p |}.

Definition set_userId (v : option string) (p : BucketParams) : BucketParams :=
  {| channelId := channelId p; guildId := guildId p; userId := v;
     targetId := targetId p; webhookId := webhookId p; inviteCode := inviteCode p |}.

Definition set_targetId (v : option string) (p : BucketParams) : BucketParams :=
  {| channelId := channelId p; guildId := guildId p; userId := userId p;
     targetId := v; webhookId := webhookId p; inviteCode := inviteCode p |}.

Definition set_webhookId (v : option string) (p : BucketParams) : BucketParams :=
  {| channelId := channelId p; guildId := guildId p; userId := userId p;
     targetId := targetId p; webhookId := v; inviteCode := inviteCode p |}.

Definition set_inviteCode (v : option string) (p : BucketParams) : BucketParams :=
  {| channelId := channelId p; guildId := guildId p; userId := userId p;
     targetId := targetId p; webhookId := webhookId p; inviteCode := v |}.

(** The route ["channels.messages.send"] of the mapping table. *)
Definition channels_messages_send : RateLimitConfig :=
  {| bucket := "channels::channel_id::messages::send"; cfg_limit := 5;
     cfg_windowMs := 5000; cfg_exemptFromGlobal := Some false |}.

(** *** The asynchronous methods

    An [async] method is the finite tree of what it awaits: calls on the
    bucket it was handed, timer sleeps and log lines. *)
Inductive LogLine : Type :=
| RateLimitHit (key : string) (waitMs : number)
| RateLimitStillActive (key : string) (waitMs : number).

Inductive Async (A : Type) : Type :=
| Return (a : A)
| AwaitAcquire (k : number -> Async A)
| AwaitGetRemaining (k : number -> Async A)
| AwaitGetResetTime (k : number -> Async A)
| AwaitSleep (ms : number) (k : Async A)
| LogWarn (l : LogLine) (k : Async A).
Arguments Return {A} a.
Arguments AwaitAcquire {A} k.
Arguments AwaitGetRemaining {A} k.
Arguments AwaitGetResetTime {A} k.
Arguments AwaitSleep {A} ms k.
Arguments LogWarn {A} l k.

Definition waitForRateLimit (m : RateLimitManager) (bucket : option RateLimitBucket)
  : Async unit :=
  match bucket with
  | None => Return tt
  | Some b =>
      if negb (_enabled m) then Return tt
      else
        AwaitAcquire (fun waitMs =>
          if gt0 waitMs then
            LogWarn (RateLimitHit (bucketKey b) waitMs)
              (AwaitSleep waitMs
                 (AwaitAcquire (fun waitMs =>
                    if gt0 waitMs then
                      LogWarn (RateLimitStillActive (bucketKey b) waitMs)
                        (AwaitSleep waitMs (Return tt))
                    else Return tt)))
          else Return tt)
  end.

Record BucketInfo : Type := {
  remaining : number;
  resetMs : number;
}.

Definition getBucketInfo (m : RateLimitManager) (bucket : option RateLimitBucket)
  : Async BucketInfo :=
  match bucket with
  | None => Return {| remaining := Infinity; resetMs := Int 0 |}
  | Some _ =>
      if negb (_enabled m) then Return {| remaining := Infinity; resetMs := Int 0 |}
      else
        AwaitGetRemaining (fun remaining =>
          AwaitGetResetTime (fun resetMs =>
            Return {| remaining := remaining; resetMs := resetMs |}))
  end.

(** *** Running an asynchronous method

    The awaited operations are answered by an environment with a state
    of its own (the bucket, the clock, the timers); the run records what
    was awaited. *)
Inductive Awaited : Type :=
| DidAcquire (waitMs : number)
| DidGetRemaining (r : number)
| DidGetResetTime (r : number)
| DidSleep (ms : number)
| DidWarn (l : LogLine).

Record Env (S : Type) : Type := {
  env_acquire : S -> number * S;
  env_getRemaining : S -> number * S;
  env_getResetTime : S -> number * S;
  env_sleep : number -> S -> S;
}.
Arguments env_acquire {S} e.
Arguments env_getRemaining {S} e.
Arguments env_getResetTime {S} e.
Arguments env_sleep {S} e.

Fixpoint run {S A : Type} (e : Env S) (p : Async A) (s : S) : A * S * list Awaited :=
  match p with
  | Return a => (a, s, [])
  | AwaitAcquire k =>
      let (w, s1) := env_acquire e s in
      let '(a, s2, tr) := run e (k w) s1 in
      (a, s2, DidAcquire w :: tr)
  | AwaitGetRemaining k =>
      let (r, s1) := env_getRemaining e s in
      let '(a, s2, tr) := run e (k r) s1 in
      (a, s2, DidGetRemaining r :: tr)
  | AwaitGetResetTime k =>
      let (r, s1) := env_getResetTime e s in
      let '(a, s2, tr) := run e (k r) s1 in
      (a, s2, DidGetResetTime r :: tr)
  | AwaitSleep ms k =>
      let '(a, s2, tr) := run e k (env_sleep e ms s) in
      (a, s2, DidSleep ms :: tr)
  | LogWarn l k =>
      let '(a, s2, tr) := run e k s in
      (a, s2, DidWarn l :: tr)
  end.

Definition is_acquire (a : Awaited) : bool :=
  match a with DidAcquire _ => true | _ => false end.

Definition is_sleep (a : Awaited) : bool :=
  match a with DidSleep _ => true | _ => false end.

Definition is_positive_acquire (a : Awaited) : bool :=
  match a with DidAcquire w => gt0 w | _ => false end.

Definition count (f : Awaited -> bool) (tr : list Awaited) : nat :=
  length (List.filter f tr).

(** A real bucket as environment: the state is the bucket and the clock
    readings still to come (a pair per queued body, [(0, 0)] once they
    are used up); a sleep only lets time pass. *)
Definition next_readings (s : RateLimitBucket * list (Z * Z))
  : Z * Z * list (Z * Z) :=
  match snd s with
  | r :: rs => (r, rs)
  | [] => ((0, 0)%Z, [])
  end.

Definition bucket_env : Env (RateLimitBucket * list (Z * Z)) :=
  {| env_acquire := fun s =>
       let '(now1, now2, rs) := next_readings s in
       let (w, b) := _tryAcquire now1 now2 (fst s) in (w, (b, rs));
     env_getRemaining := fun s =>
       let '(now1, _, rs) := next_readings s in
       let (r, b) := getRemaining_body now1 (fst s) in (r, (b, rs));
     env_getResetTime := fun s =>
       let '(now1, now2, rs) := next_readings s in
       let (r, b) := getResetTime_body now1 now2 (fst s) in (r, (b, rs));
     env_sleep := fun _ s => s |}.

End Manager.


(** ** Histories and schedules of a bucket, observed *)

Module BucketHistory.

Import JS Bucket BucketQueue.
Local Open Scope Z_scope.

(** [_tryAcquire] takes the branch that pushes. *)
Definition records (now1 : Z) (b : RateLimitBucket) : bool :=
  Z.of_nat (length (_timestamps (_prune now1 b))) <? limit b.

(** The bucket after a history. *)
Fixpoint run_ops (ops : list Op) (b : RateLimitBucket) : RateLimitBucket :=
  match ops with
  | [] => b
  | o :: ops' => run_ops ops' (step o b)
  end.

(** The timestamps pushed during a history, in order. *)
Fixpoint pushed (ops : list Op) (b : RateLimitBucket) : list Z :=
  match ops with
  | [] => []
  | o :: ops' =>
      match o with
      | OpAcquire now1 now2 =>
          if records now1 b then now2 :: pushed ops' (step o b)
          else pushed ops' (step o b)
      | _ => pushed ops' (step o b)
      end
  end.

Definition is_reset (o : Op) : bool :=
  match o with OpReset => true | _ => false end.

(** In [log], entries [n] places apart are more than [w] apart. *)
Definition spaced (n : nat) (w : Z) (log : list Z) : Prop :=
  forall i x y,
    nth_error log i = Some x -> nth_error log (i + n) = Some y -> x + w < y.

(** The turns of a schedule that find a continuation to run, given the
    number of continuations pending at its start. *)
Fixpoint effective_turns (evs : list Event) (pending : nat) : list (Z * Z) :=
  match evs with
  | [] => []
  | Call _ :: evs' => effective_turns evs' (S pending)
  | Turn now1 now2 :: evs' =>
      match pending with
      | O => effective_turns evs' O
      | S k => (now1, now2) :: effective_turns evs' k
      end
  end.

(** The total time slept in a run of an asynchronous method. *)
Fixpoint slept (tr : list Manager.Awaited) : Z :=
  match tr with
  | [] => 0
  | Manager.DidSleep (Int ms) :: tr' => ms + slept tr'
  | _ :: tr' => slept tr'
  end.

End BucketHistory.

(** ** The rest of [RateLimitManager] *)

Module ManagerTable.

Import JS Bucket Manager.

(** The getter [activeBucketCount]: [this._buckets.size]. *)
Definition activeBucketCount (m : RateLimitManager) : nat := size (_buckets m).

(** *** [clearAll()]

    [for (const bucket of this._buckets.values()) await bucket.reset();]
    [this._buckets.clear();]

    The loop gives up control at every [await], and the iterator of a
    [Map] is live: it walks the entries in insertion order and visits the
    ones that are added while it runs.  So the table is kept with its
    keys in insertion order, and a run of [clearAll] is played against
    what the other tasks of the program do at each [await]. *)
Record Iterated : Type := {
  manager : RateLimitManager;
  (** the keys of [_buckets], oldest entry first *)
  keys : list string;
}.

(** The key list is the one of the table. *)
Definition keys_ok (s : Iterated) : Prop :=
  NoDup (keys s) /\
  forall k, In k (keys s) <-> is_Some (_buckets (manager s) !! k).

(** What another task can do to the table while [clearAll] is suspended:
    call [getBucket], or have the queued body of a method of one of the
    buckets run.  (The other public methods of the manager are built from
    these; a second [clearAll] running at the same time is not among
    them.) *)
Inductive Other : Type :=
| CallGetBucket (config : RateLimitConfig) (params : BucketParams)
| RunBody (key : string) (o : Op).

(** [Map.set] on a new key appends the entry. *)
Definition other (a : Other) (s : Iterated) : Iterated :=
  match a with
  | CallGetBucket config params =>
      {| manager := snd (getBucket config params (manager s));
         keys := match _buckets (manager s) !! resolveKey config params with
                 | Some _ => keys s
                 | None =>
                     if _enabled (manager s)
                     then keys s ++ [resolveKey config params]
                     else keys s
                 end |}
  | RunBody key o =>
      {| manager := {| _buckets := alter (step o) key (_buckets (manager s));
                       _enabled := _enabled (manager s) |};
         keys := keys s |}
  end.

Definition others (l : list Other) (s : Iterated) : Iterated :=
  fold_left (fun s a => other a s) l s.

(** The body queued by [bucket.reset()], for the bucket under [key]. *)
Definition reset_at (key : string) (s : Iterated) : Iterated :=
  other (RunBody key OpReset) s.

(** What [clearAll] leaves: the buckets as they were when the table was
    emptied, under the keys they had (a caller may still hold them); the
    keys of the buckets whose [reset] it awaited, in order; the manager. *)
Record Cleared : Type := {
  detached : gmap string RateLimitBucket;
  resets : list string;
  cleared : RateLimitManager;
}.

(** [this._buckets.clear()] and the return. *)
Definition finish (s : Iterated) (done : list string) : Cleared :=
  {| detached := _buckets (manager s);
     resets := done;
     cleared := {| _buckets := ∅; _enabled := _enabled (manager s) |} |}.

(** The loop, with the iterator at position [i].  Each [await] draws
    from the schedule what the other tasks do before the body of [reset]
    runs and what they do before the loop is resumed; when the schedule
    is used up nothing else runs any more.  The iterator is asked for the
    next entry when the loop is resumed, on the table as it is then. *)
Fixpoint clearAll_loop (sched : list (list Other * list Other)) (i : nat)
    (s : Iterated) (done : list string) : Cleared :=
  match sched with
  | [] =>
      let rest := skipn i (keys s) in
      finish (fold_left (fun s k => reset_at k s) rest s) (done ++ rest)
  | (before, after) :: sched' =>
      match nth_error (keys s) i with
      | None => finish s done
      | Some key =>
          clearAll_loop sched' (S i)
            (others after (reset_at key (others before s))) (done ++ [key])
      end
  end.

Definition clearAll (sched : list (list Other * list Other)) (s : Iterated) : Cleared :=
  clearAll_loop sched 0 s [].

(** A task that does nothing at an [await]. *)
Definition idle (pp : list Other * list Other) : Prop := pp = ([], []).

(** A table with the send buckets of channels 1 and 2, as two calls of
    [getBucket] on a new manager leave it. *)
Definition sample_table : Iterated :=
  others
    [ CallGetBucket channels_messages_send (set_channelId (Some "1"%string) no_params);
      CallGetBucket channels_messages_send (set_channelId (Some "2"%string) no_params) ]
    {| manager := RateLimitManager_new true; keys := [] |}.

(** While the first [reset] is awaited a request on channel 1 is recorded
    and then wiped, and the bucket of channel 3 is created; while the
    second is awaited another request on channel 1 is recorded. *)
Definition sample_schedule : list (list Other * list Other) :=
  [ ([RunBody "channels::1::messages::send" (OpAcquire 5 5)],
     [CallGetBucket channels_messages_send (set_channelId (Some "3"%string) no_params)]);
    ([], [RunBody "channels::1::messages::send" (OpAcquire 7 7)]) ].

(** [config.exemptFromGlobal] with the default of the bucket's constructor. *)
Definition exempt (config : RateLimitConfig) : bool :=
  match cfg_exemptFromGlobal config with
  | Some ex => ex
  | None => false
  end.

End ManagerTable.

(** ** The embed builder, observed *)

Module EmbedChecks.

Import Exn Embed.
Local Open Scope Z_scope.

(** [addFields(...fields)] with the builder it leaves behind: the loop
    hands each field to [addField], which pushes it, and stops at the
    first field for which [addField] throws; [None] is a normal return. *)
Fixpoint addFields_run (fs : list EmbedField) (b : EmbedBuilder)
  : EmbedBuilder * option error :=
  match fs with
  | [] => (b, None)
  | f :: rest =>
      match addField (field_name f) (field_value f) (field_inline f) b with
      | Ok b' => addFields_run rest b'
      | Throw e => (b, Some e)
      end
  end.

(** A field within the limits of [EmbedFieldBuilder]. *)
Definition field_ok (f : EmbedField) : Prop :=
  len (field_name f) <= MaxFieldNameLength /\ len (field_value f) <= MaxFieldValueLength.

(** The text of an embed, counted as [_totalLength] counts it. *)
Definition embed_text (e : Embed) : Z :=
  opt_length (title e) + opt_length (description e)
  + opt_length (option_map footer_text (footer e))
  + opt_length (option_map author_name (author e))
  + fold_right Z.add 0
      (map (fun f => len (field_name f) + len (field_value f))
           (match fields e with Some fs => fs | None => [] end)).

(** An embed within all the limits of the builders. *)
Definition embed_within_limits (e : Embed) : Prop :=
  opt_length (title e) <= MaxTitleLength /\
  opt_length (description e) <= MaxDescriptionLength /\
  opt_length (option_map footer_text (footer e)) <= MaxFooterTextLength /\
  opt_length (option_map author_name (author e)) <= MaxAuthorNameLength /\
  match fields e with
  | Some fs => fs <> [] /\ Z.of_nat (length fs) <= MaxFieldCount /\ Forall field_ok fs
  | None => True
  end /\
  embed_text e <= MaxEmbedLength.

(** The same limits on the parts of a builder. *)
Definition builder_within_limits (b : EmbedBuilder) : Prop :=
  opt_length (_title b) <= MaxTitleLength /\
  opt_length (_description b) <= MaxDescriptionLength /\
  opt_length (option_map footer_text (_footer b)) <= MaxFooterTextLength /\
  opt_length (option_map author_name (_author b)) <= MaxAuthorNameLength /\
  Z.of_nat (length (_fields b)) <= MaxFieldCount /\
  Forall field_ok (_fields b).

End EmbedChecks.

(** ** More string methods *)

Module JSText.

Local Open Scope string_scope.

(** White space and line terminators among the code units below 256: TAB,
    LF, VT, FF, CR, SP and NBSP. *)
Definition is_space (c : ascii) : bool :=
  let n := nat_of_ascii c in
  (n =? 9)%nat || (n =? 10)%nat || (n =? 11)%nat || (n =? 12)%nat || (n =? 13)%nat
  || (n =? 32)%nat || (n =? 160)%nat.

(** [s.trimStart()] *)
Fixpoint trimStart (s : string) : string :=
  match s with
  | String c r => if is_space c then trimStart r else s
  | EmptyString => EmptyString
  end.

(** [s.trimEnd()] *)
Fixpoint trimEnd (s : string) : string :=
  match s with
  | EmptyString => EmptyString
  | String c r =>
      match trimEnd r with
      | EmptyString => if is_space c then EmptyString else String c EmptyString
      | String d r' => String c (String d r')
      end
  end.

(** [s.trim()] *)
Definition trim (s : string) : string := trimEnd (trimStart s).

(** [s.slice(0, n)] for [0 <= n]: the first [n] code units. *)
Fixpoint take (n : nat) (s : string) : string :=
  match n, s with
  | S n', String c r => String c (take n' r)
  | _, _ => EmptyString
  end.

End JSText.

(** ** [validateToken] of [src/util/token.ts] *)

Module TokenCheck.

Import JS JSText.
Local Open Scope string_scope.

(** The two errors, named by their messages; the second one quotes the
    start of the token. *)
Inductive TokenError : Type :=
| MustNotBeNullOrEmpty
| InvalidTokenFormat (preview : string).

(** [validateToken(token)]: [None] is a normal return. *)
Definition validateToken (token : string) : option TokenError :=
  if negb (truthy (Some token)) || (String.length (trim token) =? 0)%nat
  then Some MustNotBeNullOrEmpty
  else if negb (startsWith "Bot " token) && negb (startsWith "flx_" token)
  then Some (InvalidTokenFormat
               (if (8 <? String.length token)%nat then take 8 token else token))
  else None.

End TokenCheck.

(** ** The route table [RateLimitMappings] *)

Module Routes.

Import JS Manager.
Local Open Scope string_scope.
Local Open Scope Z_scope.

(** [cfg(bucket, limit, windowMs)]; no rule of the table passes the fourth
    argument, so [exemptFromGlobal] is its default [false]. *)
Definition cfg (template : string) (l w : Z) : RateLimitConfig :=
  {| bucket := template; cfg_limit := l; cfg_windowMs := w;
     cfg_exemptFromGlobal := Some false |}.

(** The object literal, as the list of its entries in source order. *)
Definition RateLimitMappings : list (string * RateLimitConfig) :=
  [
    ("global", cfg "global" 50 1000);
    ("auth.login", cfg "auth::login" 5 60000);
    ("auth.register", cfg "auth::register" 5 60000);
    ("auth.logout", cfg "auth::logout" 5 60000);
    ("auth.verify", cfg "auth::verify" 5 60000);
    ("auth.forgot", cfg "auth::forgot" 5 60000);
    ("auth.reset", cfg "auth::reset" 5 60000);
    ("auth.sessions", cfg "auth::sessions" 5 5000);
    ("channels.get", cfg "channels::channel_id::get" 10 10000);
    ("channels.update", cfg "channels::channel_id::update" 5 10000);
    ("channels.delete", cfg "channels::channel_id::delete" 5 10000);
    ("channels.messages.list", cfg "channels::channel_id::messages" 10 10000);
    ("channels.messages.get", cfg "channels::channel_id::messages::get" 10 10000);
    ("channels.messages.send", cfg "channels::channel_id::messages::send" 5 5000);
    ("channels.messages.edit", cfg "channels::channel_id::messages::edit" 5 5000);
    ("channels.messages.delete", cfg "channels::channel_id::messages::delete" 5 5000);
    ("channels.messages.bulkDelete", cfg "channels::channel_id::messages::bulk_delete" 1 5000);
    ("channels.typing", cfg "channels::channel_id::typing" 5 5000);
    ("channels.messages.ack", cfg "channels::channel_id::messages::ack" 5 5000);
    ("channels.pins.list", cfg "channels::channel_id::pins" 5 10000);
    ("channels.pins.add", cfg "channels::channel_id::pins::add" 5 10000);
    ("channels.pins.remove", cfg "channels::channel_id::pins::remove" 5 10000);
    ("channels.reactions.get", cfg "channels::channel_id::reactions" 5 5000);
    ("channels.reactions.add", cfg "channels::channel_id::reactions::add" 5 5000);
    ("channels.reactions.remove", cfg "channels::channel_id::reactions::remove" 5 5000);
    ("channels.reactions.removeAll", cfg "channels::channel_id::reactions::removeAll" 5 5000);
    ("channels.attachments", cfg "channels::channel_id::attachments" 5 10000);
    ("channels.recipients.add", cfg "channels::channel_id::recipients::add" 5 10000);
    ("channels.recipients.remove", cfg "channels::channel_id::recipients::remove" 5 10000);
    ("channels.invites.list", cfg "channels::channel_id::invites" 5 10000);
    ("channels.invites.create", cfg "channels::channel_id::invites::create" 5 10000);
    ("channels.webhooks.list", cfg "channels::channel_id::webhooks" 5 10000);
    ("channels.webhooks.create", cfg "channels::channel_id::webhooks::create" 5 10000);
    ("channels.search", cfg "channels::channel_id::search" 5 10000);
    ("channels.call.get", cfg "channels::channel_id::call" 5 10000);
    ("channels.call.update", cfg "channels::channel_id::call::update" 5 10000);
    ("channels.call.ring", cfg "channels::channel_id::call::ring" 5 10000);
    ("channels.call.stopRinging", cfg "channels::channel_id::call::stop_ringing" 5 10000);
    ("channels.rtcRegions", cfg "channels::channel_id::rtc_regions" 5 10000);
    ("guilds.create", cfg "guilds::create" 5 60000);
    ("guilds.get", cfg "guilds::guild_id::get" 5 10000);
    ("guilds.update", cfg "guilds::guild_id::update" 5 10000);
    ("guilds.delete", cfg "guilds::guild_id::delete" 1 60000);
    ("guilds.vanityUrl.get", cfg "guilds::guild_id::vanity_url" 5 10000);
    ("guilds.vanityUrl.update", cfg "guilds::guild_id::vanity_url::update" 2 10000);
    ("guilds.members.list", cfg "guilds::guild_id::members" 5 10000);
    ("guilds.members.get", cfg "guilds::guild_id::members::get" 10 10000);
    ("guilds.members.getCurrent", cfg "guilds::guild_id::members::me" 5 10000);
    ("guilds.members.updateCurrent", cfg "guilds::guild_id::members::me::update" 5 10000);
    ("guilds.members.update", cfg "guilds::guild_id::members::update" 5 10000);
    ("guilds.members.kick", cfg "guilds::guild_id::members::kick" 5 10000);
    ("guilds.transferOwnership", cfg "guilds::guild_id::transfer" 1 60000);
    ("guilds.bans.list", cfg "guilds::guild_id::bans" 5 10000);
    ("guilds.bans.add", cfg "guilds::guild_id::bans::add" 5 10000);
    ("guilds.bans.remove", cfg "guilds::guild_id::bans::remove" 5 10000);
    ("guilds.members.roles.add", cfg "guilds::guild_id::members::roles::add" 10 10000);
    ("guilds.members.roles.remove", cfg "guilds::guild_id::members::roles::remove" 10 10000);
    ("guilds.roles.create", cfg "guilds::guild_id::roles::create" 5 10000);
    ("guilds.roles.update", cfg "guilds::guild_id::roles::update" 5 10000);
    ("guilds.roles.updateBulk", cfg "guilds::guild_id::roles::bulk" 2 10000);
    ("guilds.roles.delete", cfg "guilds::guild_id::roles::delete" 5 10000);
    ("guilds.channels.list", cfg "guilds::guild_id::channels" 5 10000);
    ("guilds.channels.create", cfg "guilds::guild_id::channels::create" 5 10000);
    ("guilds.channels.update", cfg "guilds::guild_id::channels::update" 5 10000);
    ("guilds.search", cfg "guilds::guild_id::search" 5 10000);
    ("guilds.auditLogs.filters", cfg "guilds::guild_id::audit_logs::filters" 5 10000);
    ("guilds.auditLogs.search", cfg "guilds::guild_id::audit_logs::search" 5 10000);
    ("guilds.emojis.list", cfg "guilds::guild_id::emojis" 5 10000);
    ("guilds.emojis.create", cfg "guilds::guild_id::emojis::create" 5 30000);
    ("guilds.emojis.createBulk", cfg "guilds::guild_id::emojis::bulk" 1 30000);
    ("guilds.emojis.update", cfg "guilds::guild_id::emojis::update" 5 10000);
    ("guilds.emojis.delete", cfg "guilds::guild_id::emojis::delete" 5 10000);
    ("guilds.stickers.list", cfg "guilds::guild_id::stickers" 5 10000);
    ("guilds.stickers.create", cfg "guilds::guild_id::stickers::create" 5 30000);
    ("guilds.stickers.createBulk", cfg "guilds::guild_id::stickers::bulk" 1 30000);
    ("guilds.stickers.update", cfg "guilds::guild_id::stickers::update" 5 10000);
    ("guilds.stickers.delete", cfg "guilds::guild_id::stickers::delete" 5 10000);
    ("guilds.invites.list", cfg "guilds::guild_id::invites" 5 10000);
    ("guilds.webhooks.list", cfg "guilds::guild_id::webhooks" 5 10000);
    ("guilds.leave", cfg "guilds::guild_id::leave" 5 10000);
    ("users.getCurrent", cfg "users::me" 5 5000);
    ("users.updateCurrent", cfg "users::me::update" 2 10000);
    ("users.get", cfg "users::user_id" 5 5000);
    ("users.profile", cfg "users::user_id::profile" 5 5000);
    ("users.checkTag", cfg "users::check_tag" 5 5000);
    ("users.settings.get", cfg "users::me::settings" 5 5000);
    ("users.settings.update", cfg "users::me::settings::update" 2 10000);
    ("users.notes.list", cfg "users::me::notes" 5 10000);
    ("users.notes.get", cfg "users::me::notes::get" 5 5000);
    ("users.notes.set", cfg "users::me::notes::set" 2 5000);
    ("users.guilds.list", cfg "users::me::guilds" 5 5000);
    ("users.mentions.list", cfg "users::me::mentions" 5 5000);
    ("users.mentions.delete", cfg "users::me::mentions::delete" 5 5000);
    ("users.betaCodes.list", cfg "users::me::beta_codes" 5 10000);
    ("users.betaCodes.create", cfg "users::me::beta_codes::create" 2 30000);
    ("users.betaCodes.delete", cfg "users::me::beta_codes::delete" 5 10000);
    ("users.memes.list", cfg "users::me::memes" 5 10000);
    ("users.memes.create", cfg "users::me::memes::create" 5 10000);
    ("users.memes.get", cfg "users::me::memes::get" 5 5000);
    ("users.memes.update", cfg "users::me::memes::update" 5 10000);
    ("users.memes.delete", cfg "users::me::memes::delete" 5 10000);
    ("invites.get", cfg "invites::invite_code" 5 5000);
    ("invites.join", cfg "invites::invite_code::join" 5 30000);
    ("invites.delete", cfg "invites::invite_code::delete" 5 10000);
    ("attachments.delete", cfg "attachments::delete" 5 10000);
    ("reports.message", cfg "reports::message" 3 60000);
    ("reports.user", cfg "reports::user" 3 60000);
    ("reports.guild", cfg "reports::guild" 3 60000);
    ("readStates.ackBulk", cfg "read_states::ack_bulk" 5 5000);
    ("webhooks.get", cfg "webhooks::webhook_id" 5 5000);
    ("webhooks.update", cfg "webhooks::webhook_id::update" 5 10000);
    ("webhooks.delete", cfg "webhooks::webhook_id::delete" 5 10000);
    ("webhooks.execute", cfg "webhooks::webhook_id::execute" 5 5000);
    ("tenor.search", cfg "tenor::search" 10 5000);
    ("tenor.featured", cfg "tenor::featured" 10 5000);
    ("tenor.trending", cfg "tenor::trending" 10 5000);
    ("tenor.registerShare", cfg "tenor::register_share" 5 5000);
    ("tenor.suggest", cfg "tenor::suggest" 10 5000)
  ].

Definition placeholder_names : list string :=
  [ "::channel_id"; "::guild_id"; "::user_id"; "::target_id"; "::webhook_id";
    "::invite_code" ].

(** Every supplied parameter is a non-empty string of decimal digits. *)
Definition decimal_params (p : BucketParams) : Prop :=
  decimal_id (channelId p) /\ decimal_id (guildId p) /\ decimal_id (userId p) /\
  decimal_id (targetId p) /\ decimal_id (webhookId p) /\ decimal_id (inviteCode p).

Definition digit_free (s : string) : bool :=
  all_chars (fun c => negb (is_digit c)) s.

Fixpoint strip_digits (s : string) : string :=
  match s with
  | EmptyString => EmptyString
  | String c r => if is_digit c then strip_digits r else String c (strip_digits r)
  end.

(** How many of the six placeholders occur in a template. *)
Definition occurring (template : string) : nat :=
  length (List.filter (fun ph => includes ph template) placeholder_names).

(** A template with the ID left out of its placeholder. *)
Definition erased (template : string) : string :=
  match List.find (fun ph => includes ph template) placeholder_names with
  | Some ph => put ph EmptyString template
  | None => template
  end.

(** The checks on one rule and on two rules of the table. *)
Definition rule_ok (e : string * RateLimitConfig) : bool :=
  digit_free (bucket (snd e)) && (occurring (bucket (snd e)) <=? 1)%nat
  && (1 <=? cfg_limit (snd e)) && (cfg_limit (snd e) <=? 50)
  && (1000 <=? cfg_windowMs (snd e)) && (cfg_windowMs (snd e) <=? 60000).

Definition pair_ok (e1 e2 : string * RateLimitConfig) : bool :=
  implb (String.eqb (bucket (snd e1)) (bucket (snd e2))) (String.eqb (fst e1) (fst e2))
  && implb ((0 <? occurring (bucket (snd e1)))%nat && (0 <? occurring (bucket (snd e2)))%nat
            && String.eqb (erased (bucket (snd e1))) (erased (bucket (snd e2))))
           (String.eqb (bucket (snd e1)) (bucket (snd e2))).

Definition table_checks : bool :=
  forallb rule_ok RateLimitMappings
  && forallb (fun e1 => forallb (pair_ok e1) RateLimitMappings) RateLimitMappings.

End Routes.

(** * Properties *)

(** ** Strings *)

Section StringFacts.

Local Open Scope string_scope.

Lemma append_nil_r (s : string) : s ++ EmptyString = s.
Proof. induction s as [|c s IH]; simpl; [reflexivity | now rewrite IH]. Qed.

Lemma append_assoc (a b c : string) : (a ++ b) ++ c = a ++ (b ++ c).
Proof. induction a as [|x a IH]; simpl; [reflexivity | now rewrite IH]. Qed.

Lemma startsWith_append (p r : string) : JS.startsWith p (p ++ r) = true.
Proof.
  induction p as [|c p IH]; simpl; [reflexivity |].
  now rewrite Ascii.eqb_refl, IH.
Qed.

(** A string that starts with [p] is [p] followed by its slice. *)
Lemma startsWith_slice (p s : string) :
  JS.startsWith p s = true -> s = p ++ JS.slice (String.length p) s.
Proof.
  revert s. induction p as [|c p IH]; intros s H; simpl in *; [reflexivity |].
  destruct s as [|d s]; [discriminate |].
  apply andb_true_iff in H as [Hc Hp].
  apply Ascii.eqb_eq in Hc as ->.
  simpl. f_equal. now apply IH.
Qed.

(** Two ways of cutting one string: one cut lies left of the other. *)
Lemma append_eq_append (a b c d : string) :
  a ++ b = c ++ d ->
  (exists l, c = a ++ l /\ b = l ++ d) \/ (exists l, a = c ++ l /\ d = l ++ b).
Proof.
  revert c. induction a as [|x a IH]; intros c H; simpl in H.
  - left. exists c. split; [reflexivity | exact H].
  - destruct c as [|y c]; simpl in H.
    + right. exists (String x a). split; [reflexivity | now symmetry].
    + inversion H as [[Hxy Hrest]]. subst y.
      destruct (IH c Hrest) as [(l & -> & ->) | (l & -> & ->)].
      * left. exists l. split; reflexivity.
      * right. exists l. split; reflexivity.
Qed.

Lemma split_first_sound (pat s pre post : string) :
  JS.split_first pat s = Some (pre, post) -> s = pre ++ pat ++ post.
Proof.
  revert pre. induction s as [|c s IH]; intros pre H; simpl in H.
  - destruct (JS.startsWith pat EmptyString) eqn:Hp; [| discriminate].
    inversion H; subst. simpl. now apply startsWith_slice.
  - destruct (JS.startsWith pat (String c s)) eqn:Hp.
    + inversion H; subst. simpl. now apply startsWith_slice.
    + destruct (JS.split_first pat s) as [[pre' post']|] eqn:E; [| discriminate].
      inversion H; subst. simpl. f_equal. now apply IH.
Qed.

(** [split_first] finds the leftmost occurrence. *)
Lemma split_first_leftmost (pat s pre post : string) :
  JS.split_first pat s = Some (pre, post) ->
  forall a b, s = a ++ pat ++ b -> (String.length pre <= String.length a)%nat.
Proof.
  revert pre. induction s as [|c s IH]; intros pre H a b Hs; simpl in H.
  - destruct (JS.startsWith pat EmptyString); [| discriminate].
    inversion H; subst. simpl. lia.
  - destruct (JS.startsWith pat (String c s)) eqn:Hp.
    + inversion H; subst. simpl. lia.
    + destruct (JS.split_first pat s) as [[pre' post']|] eqn:E; [| discriminate].
      inversion H; subst. destruct a as [|x a]; simpl in Hs.
      * rewrite Hs, startsWith_append in Hp. discriminate Hp.
      * inversion Hs; subst. simpl. specialize (IH pre' eq_refl a b eq_refl). lia.
Qed.

Lemma split_first_complete (pat a b : string) :
  exists pre post, JS.split_first pat (a ++ pat ++ b) = Some (pre, post).
Proof.
  induction a as [|c a (pre & post & IH)]; simpl.
  - destruct (pat ++ b) as [|x r] eqn:E; simpl.
    + pose proof (startsWith_append pat b) as Hp. rewrite E in Hp. rewrite Hp. eauto.
    + pose proof (startsWith_append pat b) as Hp. rewrite E in Hp. rewrite Hp. eauto.
  - destruct (JS.startsWith pat (String c (a ++ pat ++ b))); [eauto |].
    rewrite IH. eauto.
Qed.

Lemma includes_occurs (pat s : string) : JS.includes pat s = true <-> JS.occurs pat s.
Proof.
  unfold JS.includes, JS.occurs. split.
  - destruct (JS.split_first pat s) as [[pre post]|] eqn:E; [| discriminate].
    intros _. exists pre, post. now apply split_first_sound.
  - intros (a & b & ->). destruct (split_first_complete pat a b) as (pre & post & ->).
    reflexivity.
Qed.

(** A replacement text without a dollar sign is taken literally. *)
Lemma GetSubstitution_plain (matched pre post templ : string) :
  JS.all_chars (fun c => negb (Ascii.eqb c "$")) templ = true ->
  JS.GetSubstitution matched pre post templ = templ.
Proof.
  induction templ as [|c r IH]; simpl; [reflexivity |].
  intros H. apply andb_true_iff in H as [Hc Hr].
  apply negb_true_iff in Hc. rewrite Hc. f_equal. now apply IH.
Qed.

Lemma all_chars_append (f : ascii -> bool) (a b : string) :
  JS.all_chars f (a ++ b) = JS.all_chars f a && JS.all_chars f b.
Proof.
  induction a as [|c a IH]; simpl; [reflexivity |].
  now rewrite IH, andb_assoc.
Qed.

Lemma all_chars_impl (f g : ascii -> bool) (s : string) :
  (forall c, f c = true -> g c = true) ->
  JS.all_chars f s = true -> JS.all_chars g s = true.
Proof.
  intros Hfg. induction s as [|c s IH]; simpl; [reflexivity |].
  intros H. apply andb_true_iff in H as [Hc Hs].
  now rewrite (Hfg c Hc), IH.
Qed.

End StringFacts.

(** ** Token *)

Section TokenFacts.

Local Open Scope string_scope.
Import Token.

(** C7.  A token that begins with ["Bot "] is returned without these four
    code units; every other token, a ["flx_"] user token among them, is
    returned as it is. *)
Theorem getGatewayToken_strips_bot_prefix :
  (forall rest, getGatewayToken ("Bot " ++ rest) = rest) /\
  (forall token, (forall rest, token <> "Bot " ++ rest) -> getGatewayToken token = token) /\
  (forall rest, getGatewayToken ("flx_" ++ rest) = "flx_" ++ rest).
Proof.
  split; [| split].
  - intros rest. reflexivity.
  - intros token Hno. unfold getGatewayToken.
    destruct (JS.startsWith "Bot " token) eqn:Hp; [| reflexivity].
    apply startsWith_slice in Hp. now elim (Hno _ Hp).
  - intros rest. reflexivity.
Qed.

Lemma getGatewayToken_witness :
  (forall rest, "flx_token" <> "Bot " ++ rest) /\
  getGatewayToken "flx_token" = "flx_token".
Proof.
  assert (H : forall rest, "flx_token" <> "Bot " ++ rest) by (intros rest; discriminate).
  split; [exact H |].
  exact (proj1 (proj2 getGatewayToken_strips_bot_prefix) "flx_token" H).
Defined.

End TokenFacts.

(** ** Close codes *)

Section CloseCodeFacts.

Local Open Scope Z_scope.
Import CloseCodes.

(** C4.  [shouldReconnect] is false on 4004, 4010, 4011, 4012, 4013 and
    4014, the values of the six members its [switch] lists, and true on
    every other integer: the other members of the enum (4000 to 4003,
    4005, 4007 to 4009) and the integers outside the table. *)
Theorem shouldReconnect_false_iff_fatal :
  (forall code : Z,
      shouldReconnect code = false <->
      code = 4004 \/ code = 4010 \/ code = 4011 \/ code = 4012 \/
      code = 4013 \/ code = 4014) /\
  (forall code : Z,
      shouldReconnect code = true <->
      code <> 4004 /\ code <> 4010 /\ code <> 4011 /\ code <> 4012 /\
      code <> 4013 /\ code <> 4014) /\
  map code_of
    [AuthenticationFailed; InvalidShard; ShardingRequired; InvalidApiVersion;
     InvalidIntents; DisallowedIntents]
  = [4004; 4010; 4011; 4012; 4013; 4014] /\
  Forall (fun code => shouldReconnect code = true)
    [4000; 4001; 4002; 4003; 4005; 4007; 4008; 4009] /\
  (forall code : Z, ~ In code (map code_of all_codes) -> shouldReconnect code = true).
Proof.
  assert (Hf : forall code : Z,
      shouldReconnect code = false <->
      code = 4004 \/ code = 4010 \/ code = 4011 \/ code = 4012 \/
      code = 4013 \/ code = 4014).
  { intros code. unfold shouldReconnect, code_of.
    repeat match goal with
           | |- context [?a =? ?b] => destruct (Z.eqb_spec a b)
           end; split; intros H; try discriminate; try reflexivity; lia. }
  split; [exact Hf |]. split; [| split; [reflexivity | split]].
  - intros code. specialize (Hf code).
    destruct (shouldReconnect code); split; intros H; try discriminate; try reflexivity.
    + destruct (Z.eq_dec code 4004), (Z.eq_dec code 4010), (Z.eq_dec code 4011),
        (Z.eq_dec code 4012), (Z.eq_dec code 4013), (Z.eq_dec code 4014);
        try (assert (true = false) by (apply Hf; lia); discriminate).
      repeat split; assumption.
    + exfalso. destruct Hf as [Hf _]. specialize (Hf eq_refl). lia.
  - repeat constructor.
  - intros code Hnot. destruct (shouldReconnect code) eqn:E; [reflexivity |].
    apply Hf in E. elim Hnot. simpl. lia.
Qed.

Lemma shouldReconnect_witness :
  ~ In 1006 (map code_of all_codes) /\ shouldReconnect 1006 = true /\
  shouldReconnect 4004 = false.
Proof.
  destruct shouldReconnect_false_iff_fatal as (Hfalse & _ & _ & _ & Hother).
  assert (Hnot : ~ In 1006 (map code_of all_codes)).
  { simpl. intros H.
    repeat (destruct H as [H | H]; [discriminate H |]). exact H. }
  split; [exact Hnot |]. split; [exact (Hother 1006 Hnot) |].
  apply Hfalse. left. reflexivity.
Defined.

End CloseCodeFacts.

(** ** Embed builders *)

Section EmbedFacts.

Import Exn Embed.
Local Open Scope Z_scope.

Lemma fold_left_sum {A : Type} (g : A -> Z) (l : list A) (acc : Z) :
  fold_left (fun total f => total + g f) l acc
  = acc + fold_right Z.add 0 (map g l).
Proof.
  revert acc. induction l as [|x l IH]; intros acc; simpl; [lia |].
  rewrite IH. lia.
Qed.

Lemma add_if_truthy_opt_length (total : Z) (s : option string) :
  add_if_truthy total s = total + opt_length s.
Proof.
  destruct s as [t|]; simpl; [| lia].
  destruct t as [|c t]; simpl; [unfold len; simpl; lia | reflexivity].
Qed.

(** The running total of [_totalLength] is the embed's text size. *)
Lemma totalLength_text_size (b : EmbedBuilder) : _totalLength b = text_size b.
Proof.
  unfold _totalLength, text_size.
  rewrite fold_left_sum, !add_if_truthy_opt_length.
  destruct (_footer b), (_author b); simpl; lia.
Qed.

(** A builder never holds more than 25 fields. *)
Lemma built_fields_bounded (b : EmbedBuilder) :
  built b -> Z.of_nat (length (_fields b)) <= MaxFieldCount.
Proof.
  unfold MaxFieldCount.
  induction 1 as [ | t b b' _ IH E | d b b' _ IH E | | | | t i b b' _ IH E | |
                   | n u i b b' _ IH E | n v i b b' _ IH E ];
    simpl; try lia; try assumption.
  - destruct t as [t|]; simpl in E; [| discriminate].
    destruct (MaxTitleLength <? len t); inversion E; subst; exact IH.
  - destruct d as [d|]; simpl in E; [| discriminate].
    destruct (MaxDescriptionLength <? len d); inversion E; subst; exact IH.
  - unfold setFooter, EmbedFooterBuilder_new in E.
    destruct (MaxFooterTextLength <? len t); simpl in E; inversion E; subst; exact IH.
  - unfold setAuthor, EmbedAuthorBuilder_new in E.
    destruct (MaxAuthorNameLength <? len n); simpl in E; inversion E; subst; exact IH.
  - unfold addField, EmbedFieldBuilder_new, MaxFieldCount in E.
    destruct (Z.leb_spec 25 (Z.of_nat (length (_fields b)))); [discriminate |].
    destruct (MaxFieldNameLength <? len n); [discriminate |].
    destruct (MaxFieldValueLength <? len v); [discriminate |].
    simpl in E. inversion E; subst. simpl. rewrite length_app. simpl. lia.
Qed.

(** C8.  On a builder [b] that a program can hold, each validating
    setter raises a [RangeError] exactly when its limit is exceeded and
    otherwise stores the value; [build] raises exactly when the text size
    (title, description, footer text, author name, field names and
    values) exceeds 6000 and otherwise returns the embed made of the
    builder's parts. *)
Theorem embed_builders_raise_iff_limit_exceeded (b : EmbedBuilder) (Hb : built b) :
  (forall t, (raisesRangeError (setTitle (Some t) b) <-> 256 < len t) /\
             (len t <= 256 -> setTitle (Some t) b = Ok (with_title (Some t) b))) /\
  (forall d, (raisesRangeError (setDescription (Some d) b) <-> 4096 < len d) /\
             (len d <= 4096 ->
              setDescription (Some d) b = Ok (with_description (Some d) b))) /\
  (forall n v i,
      (raisesRangeError (addField n v i b) <->
       length (_fields b) = 25%nat \/ 256 < len n \/ 1024 < len v) /\
      (length (_fields b) <> 25%nat -> len n <= 256 -> len v <= 1024 ->
       addField n v i b
       = Ok (with_fields
               (_fields b ++ [{| field_name := n; field_value := v; field_inline := i |}])
               b))) /\
  (forall t i, (raisesRangeError (setFooter t i b) <-> 2048 < len t) /\
               (len t <= 2048 ->
                exists b', setFooter t i b = Ok b' /\
                           option_map footer_text (_footer b') = Some t)) /\
  (forall n u i, (raisesRangeError (setAuthor n u i b) <-> 256 < len n) /\
                 (len n <= 256 ->
                  exists b', setAuthor n u i b = Ok b' /\
                             option_map author_name (_author b') = Some n)) /\
  (raisesRangeError (build b) <-> 6000 < text_size b) /\
  (text_size b <= 6000 ->
   build b
   = Ok {| title := _title b; description := _description b; url := _url b;
           timestamp := _timestamp b; color := _color b; footer := _footer b;
           image := _image b; thumbnail := _thumbnail b; author := _author b;
           fields := match _fields b with [] => None | _ :: _ => Some (_fields b) end |}).
Proof.
  pose proof (built_fields_bounded b Hb) as Hcount. unfold MaxFieldCount in Hcount.
  repeat split.
  - intros [k E]. simpl in E. unfold MaxTitleLength in E.
    destruct (Z.ltb_spec 256 (len t)); [assumption | discriminate].
  - intros H. simpl. unfold MaxTitleLength.
    destruct (Z.ltb_spec 256 (len t)); [eexists; reflexivity | lia].
  - intros H. simpl. unfold MaxTitleLength.
    destruct (Z.ltb_spec 256 (len t)); [lia | reflexivity].
  - intros [k E]. simpl in E. unfold MaxDescriptionLength in E.
    destruct (Z.ltb_spec 4096 (len d)); [assumption | discriminate].
  - intros H. simpl. unfold MaxDescriptionLength.
    destruct (Z.ltb_spec 4096 (len d)); [eexists; reflexivity | lia].
  - intros H. simpl. unfold MaxDescriptionLength.
    destruct (Z.ltb_spec 4096 (len d)); [lia | reflexivity].
  - intros [k E]. revert E.
    unfold addField, EmbedFieldBuilder_new, MaxFieldCount, MaxFieldNameLength,
      MaxFieldValueLength.
    destruct (Z.leb_spec 25 (Z.of_nat (length (_fields b)))); [intros _; left; lia |].
    destruct (Z.ltb_spec 256 (len n)); [intros _; right; left; assumption |].
    destruct (Z.ltb_spec 1024 (len v)); [intros _; right; right; assumption |].
    simpl. discriminate.
  - intros H.
    unfold addField, EmbedFieldBuilder_new, MaxFieldCount, MaxFieldNameLength,
      MaxFieldValueLength.
    destruct (Z.leb_spec 25 (Z.of_nat (length (_fields b)))); [eexists; reflexivity |].
    destruct (Z.ltb_spec 256 (len n)); [eexists; reflexivity |].
    destruct (Z.ltb_spec 1024 (len v)); [eexists; reflexivity |].
    lia.
  - intros Hc Hn Hv.
    unfold addField, EmbedFieldBuilder_new, MaxFieldCount, MaxFieldNameLength,
      MaxFieldValueLength.
    destruct (Z.leb_spec 25 (Z.of_nat (length (_fields b)))); [lia |].
    destruct (Z.ltb_spec 256 (len n)); [lia |].
    destruct (Z.ltb_spec 1024 (len v)); [lia |].
    reflexivity.
  - intros [k E]. revert E. unfold setFooter, EmbedFooterBuilder_new, MaxFooterTextLength.
    destruct (Z.ltb_spec 2048 (len t)); [intros _; assumption | simpl; discriminate].
  - intros H. unfold setFooter, EmbedFooterBuilder_new, MaxFooterTextLength.
    destruct (Z.ltb_spec 2048 (len t)); [eexists; reflexivity | lia].
  - intros H. unfold setFooter, EmbedFooterBuilder_new, MaxFooterTextLength.
    destruct (Z.ltb_spec 2048 (len t)); [lia |].
    simpl. eexists. split; [reflexivity |].
    destruct i as [u|]; simpl; [destruct (negb _) |]; reflexivity.
  - intros [k E]. revert E. unfold setAuthor, EmbedAuthorBuilder_new, MaxAuthorNameLength.
    destruct (Z.ltb_spec 256 (len n)); [intros _; assumption | simpl; discriminate].
  - intros H. unfold setAuthor, EmbedAuthorBuilder_new, MaxAuthorNameLength.
    destruct (Z.ltb_spec 256 (len n)); [eexists; reflexivity | lia].
  - intros H. unfold setAuthor, EmbedAuthorBuilder_new, MaxAuthorNameLength.
    destruct (Z.ltb_spec 256 (len n)); [lia |].
    simpl. eexists. split; [reflexivity |].
    destruct u as [u|], i as [i|]; simpl;
      repeat match goal with |- context [negb ?x] => destruct (negb x) end;
      reflexivity.
  - intros [k E]. revert E. unfold build, MaxEmbedLength.
    rewrite totalLength_text_size.
    destruct (Z.ltb_spec 6000 (text_size b)); [intros _; assumption | discriminate].
  - intros H. unfold build, MaxEmbedLength. rewrite totalLength_text_size.
    destruct (Z.ltb_spec 6000 (text_size b)); [eexists; reflexivity | lia].
  - intros H. unfold build, MaxEmbedLength. rewrite totalLength_text_size.
    destruct (Z.ltb_spec 6000 (text_size b)); [lia |].
    destruct (_fields b); reflexivity.
Qed.

Lemma embed_builders_witness :
  built sample_builder /\
  setTitle (Some "Ready"%string) sample_builder
  = Ok (with_title (Some "Ready"%string) sample_builder) /\
  build sample_builder
  = Ok {| title := Some "Status"%string; description := None; url := None;
          timestamp := None; color := None; footer := None; image := None;
          thumbnail := None; author := None;
          fields := Some [{| field_name := "Ping"; field_value := "42 ms";
                             field_inline := Some true |}] |}.
Proof.
  assert (Hb : built sample_builder).
  { apply (built_addField "Ping" "42 ms" (Some true)
             (with_title (Some "Status"%string) EmbedBuilder_new)); [| reflexivity].
    apply (built_setTitle (Some "Status"%string) EmbedBuilder_new); [| reflexivity].
    exact built_new. }
  pose proof (embed_builders_raise_iff_limit_exceeded sample_builder Hb)
    as (Ht & _ & _ & _ & _ & _ & Hbuild).
  split; [exact Hb |]. split.
  - apply (proj2 (Ht "Ready"%string)). vm_compute. discriminate.
  - apply Hbuild. vm_compute. discriminate.
Defined.

End EmbedFacts.

(** ** The manager *)

Section ManagerFacts.

Import JS Bucket Manager.
Local Open Scope string_scope.

(** *** Substituting placeholders *)

Lemma digit_not_dollar (c : ascii) : is_digit c = true -> negb (Ascii.eqb c "$") = true.
Proof.
  intros H. destruct (Ascii.eqb_spec c "$") as [-> |]; [discriminate H | reflexivity].
Qed.

(** In [::name] a colon sits at the first two positions only. *)
Lemma name_colon_position (name l m : string) :
  is_name name = true ->
  "::" ++ name = l ++ String ":" m -> l = EmptyString \/ l = ":".
Proof.
  intros Hn H. destruct l as [|c1 l]; [now left |].
  simpl in H. inversion H as [[Hc1 H1]]. subst c1.
  destruct l as [|c2 l]; [now right |].
  simpl in H1. inversion H1 as [[Hc2 H2]]. exfalso.
  destruct name as [|n name]; [discriminate Hn |].
  simpl in Hn. apply andb_true_iff in Hn as [_ Hn].
  change (JS.all_chars (fun c => negb (Ascii.eqb c ":")) (String n name) = true) in Hn.
  rewrite H2, all_chars_append in Hn. simpl in Hn.
  apply andb_true_iff in Hn as [_ Hn]. discriminate Hn.
Qed.

(** A placeholder that starts inside [::id], for a decimal [id], lies in
    what follows the ID. *)
Lemma placeholder_after_id (id post l name b : string) :
  JS.all_chars is_digit id = true -> id <> EmptyString -> is_name name = true ->
  "::" ++ id ++ post = l ++ "::" ++ name ++ b ->
  exists m, post = m ++ "::" ++ name ++ b.
Proof.
  intros Hid Hne Hn H.
  destruct name as [|n name]; [discriminate Hn |].
  destruct id as [|d id]; [now elim Hne |].
  simpl in Hid, Hn. apply andb_true_iff in Hid as [Hd Hid].
  apply andb_true_iff in Hn as [Hnd _]. apply negb_true_iff in Hnd.
  destruct l as [|c1 l].
  { simpl in H. inversion H; subst. congruence. }
  simpl in H. inversion H as [[Hc1 H1]]. subst c1.
  destruct l as [|c2 l].
  { simpl in H1. inversion H1; subst. discriminate Hd. }
  simpl in H1. inversion H1 as [[Hc2 H2]]. subst c2.
  change (String d (id ++ post)) with (String d id ++ post) in H2.
  apply append_eq_append in H2 as [(m & Hl & Hpost) | (m & Hidm & Hm)].
  - exists m. exact Hpost.
  - destruct m as [|c m]; [exists EmptyString; now symmetry |].
    simpl in Hm. inversion Hm as [[Hc Hrest]]. exfalso.
    assert (Hall : JS.all_chars is_digit (String d id) = true)
      by (simpl; now rewrite Hd, Hid).
    rewrite Hidm, all_chars_append in Hall. simpl in Hall.
    apply andb_true_iff in Hall as [_ Hall]. apply andb_true_iff in Hall as [Hcd _].
    subst c. discriminate Hcd.
Qed.

(** Putting [::id], for a decimal [id], in the place of some text creates
    no occurrence of a placeholder. *)
Lemma substitution_creates_no_placeholder (pre old post id name : string) :
  JS.all_chars is_digit id = true -> id <> EmptyString -> is_name name = true ->
  JS.occurs ("::" ++ name) (pre ++ "::" ++ id ++ post) ->
  JS.occurs ("::" ++ name) (pre ++ old ++ post).
Proof.
  intros Hid Hne Hn (a & b & H).
  apply append_eq_append in H as [(l & Ha & H) | (l & Hpre & H)].
  - destruct (placeholder_after_id id post l name b Hid Hne Hn H) as (m & ->).
    exists (pre ++ old ++ m), b. now rewrite !append_assoc.
  - apply append_eq_append in H as [(m & Hl & Hb) | (m & Hph & Hm)].
    + exists a, (m ++ old ++ post). rewrite Hpre, Hl. now rewrite !append_assoc.
    + destruct m as [|c m].
      * rewrite append_nil_r in Hph. exists a, (old ++ post).
        rewrite Hpre, <- Hph. now rewrite !append_assoc.
      * simpl in Hm. inversion Hm as [[Hc Hrest]]. subst c.
        destruct (name_colon_position name l m Hn Hph) as [-> | ->].
        -- simpl in Hph. rewrite append_nil_r in Hpre. subst a.
           destruct (placeholder_after_id id post EmptyString name b Hid Hne Hn)
             as (m' & ->).
           { inversion Hph as [Hm']. subst m. simpl in Hrest.
             inversion Hrest as [Hrest']. simpl. now rewrite Hrest'. }
           exists (pre ++ old ++ m'), b. now rewrite !append_assoc.
        -- exfalso. simpl in Hph. inversion Hph as [Hm']. subst m.
           destruct name as [|n name]; [discriminate Hn |].
           simpl in Hrest. inversion Hrest; subst.
           discriminate Hn.
Qed.

Lemma truthy_nonempty (id : string) : id <> EmptyString -> truthy (Some id) = true.
Proof. intros H. destruct id; [now elim H | reflexivity]. Qed.

Lemma put_absent (ph id key : string) : includes ph key = false -> put ph id key = key.
Proof.
  unfold includes, put. destruct (split_first ph key) as [[pre post]|]; [discriminate |].
  reflexivity.
Qed.

(** One statement of [getBucket] on a key that kept only placeholders of
    the template: for a plain ID or code it does what the specification
    says. *)
Lemma substitute_agrees (template key name : string) (param : option string) :
  nothing_created template key -> is_name name = true -> plain_code param ->
  substitute param ("::" ++ name) key
  = spec_substitute template key ("::" ++ name, param).
Proof.
  intros Hinv Hn Hp. unfold substitute, spec_substitute. cbn [fst snd].
  destruct param as [id|]; [| reflexivity].
  destruct Hp as [Hne Hplain]. rewrite (truthy_nonempty id Hne). cbn [andb].
  destruct (includes ("::" ++ name) key) eqn:Hinc.
  - assert (Ht : includes ("::" ++ name) template = true).
    { apply includes_occurs, Hinv; [exact Hn |]. now apply includes_occurs. }
    rewrite Ht. unfold replace, put.
    destruct (split_first ("::" ++ name) key) as [[pre post]|]; [| reflexivity].
    rewrite GetSubstitution_plain; [reflexivity |].
    simpl. exact Hplain.
  - destruct (includes ("::" ++ name) template); [| reflexivity].
    symmetry. now apply put_absent.
Qed.

Lemma decimal_is_plain (param : option string) : decimal_id param -> plain_code param.
Proof.
  destruct param as [id|]; [| trivial]. intros [Hne Hd]. split; [exact Hne |].
  eapply all_chars_impl; [| exact Hd]. exact digit_not_dollar.
Qed.

(** ... and for a decimal ID it passes on a key that kept only
    placeholders of the template. *)
Lemma substitute_creates_nothing (template key ph : string) (param : option string) :
  nothing_created template key -> decimal_id param ->
  nothing_created template (substitute param ph key).
Proof.
  intros Hinv Hp. unfold substitute.
  destruct param as [id|]; [| exact Hinv].
  destruct Hp as [Hne Hd].
  destruct (truthy (Some id) && includes ph key); [| exact Hinv].
  unfold replace.
  destruct (split_first ph key) as [[pre post]|] eqn:E; [| exact Hinv].
  apply split_first_sound in E.
  rewrite GetSubstitution_plain
    by (simpl; eapply all_chars_impl; [| exact Hd]; exact digit_not_dollar).
  intros name Hn Hocc. apply Hinv; [exact Hn |]. rewrite E.
  apply substitution_creates_no_placeholder with id; try assumption.
Qed.

Lemma resolveKey_plain_ids (config : RateLimitConfig) (params : BucketParams) :
  plain_ids params -> resolveKey config params = spec_resolveKey config params.
Proof.
  intros (Hc & Hg & Hu & Ht & Hw & Hi).
  unfold resolveKey, spec_resolveKey, placeholders. cbn [fold_left].
  set (T := bucket config).
  assert (H0 : nothing_created T T) by (intros name _ H; exact H).
  set (k1 := substitute (channelId params) "::channel_id" T).
  assert (H1 : nothing_created T k1) by now apply substitute_creates_nothing.
  set (k2 := substitute (guildId params) "::guild_id" k1).
  assert (H2 : nothing_created T k2) by now apply substitute_creates_nothing.
  set (k3 := substitute (userId params) "::user_id" k2).
  assert (H3 : nothing_created T k3) by now apply substitute_creates_nothing.
  set (k4 := substitute (targetId params) "::target_id" k3).
  assert (H4 : nothing_created T k4) by now apply substitute_creates_nothing.
  set (k5 := substitute (webhookId params) "::webhook_id" k4).
  assert (H5 : nothing_created T k5) by now apply substitute_creates_nothing.
  pose proof (substitute_agrees T T "channel_id" (channelId params) H0 eq_refl
                (decimal_is_plain _ Hc)) as E1.
  pose proof (substitute_agrees T k1 "guild_id" (guildId params) H1 eq_refl
                (decimal_is_plain _ Hg)) as E2.
  pose proof (substitute_agrees T k2 "user_id" (userId params) H2 eq_refl
                (decimal_is_plain _ Hu)) as E3.
  pose proof (substitute_agrees T k3 "target_id" (targetId params) H3 eq_refl
                (decimal_is_plain _ Ht)) as E4.
  pose proof (substitute_agrees T k4 "webhook_id" (webhookId params) H4 eq_refl
                (decimal_is_plain _ Hw)) as E5.
  pose proof (substitute_agrees T k5 "invite_code" (inviteCode params) H5 eq_refl Hi)
    as E6.
  cbn [String.append] in E1, E2, E3, E4, E5, E6.
  fold k1 in E1. fold k2 in E2. fold k3 in E3. fold k4 in E4. fold k5 in E5.
  rewrite <- E1, <- E2, <- E3, <- E4, <- E5, <- E6. reflexivity.
Qed.

(** An enabled manager hands out the bucket stored under the resolved
    key, creating it when the key is new. *)
Lemma getBucket_enabled (config : RateLimitConfig) (params : BucketParams)
    (m : RateLimitManager) :
  _enabled m = true -> table_ok m ->
  exists b m',
    getBucket config params m = (Some b, m') /\
    bucketKey b = resolveKey config params /\
    _buckets m' !! resolveKey config params = Some b /\
    table_ok m'.
Proof.
  intros Hon Hok. unfold getBucket. rewrite Hon. cbn [negb].
  destruct (_buckets m !! resolveKey config params) as [b|] eqn:E.
  - exists b, m. repeat split; try assumption. now apply Hok.
  - eexists. eexists. split; [reflexivity |]. cbn [_buckets bucketKey RateLimitBucket_new].
    split; [reflexivity |]. split; [apply lookup_insert_eq |].
    intros key b. cbn [_buckets]. rewrite lookup_insert.
    destruct (decide (resolveKey config params = key)) as [-> | Hne].
    + intros H. inversion H. reflexivity.
    + apply Hok.
Qed.

(** C5, as the code has it.  For IDs as the platform issues them
    (non-empty decimal strings; a non-empty invite code without a dollar
    sign), the bucket handed out by an enabled manager has the key that
    the specification describes: each placeholder that occurs in the
    template and whose parameter is supplied is replaced by [::] and the
    ID, the others stay as they are.  With channel ID 123 the template
    [channels::channel_id::messages::send] gives
    [channels::123::messages::send]; without a channel ID it is
    unchanged. *)
Theorem getBucket_key_for_plain_ids :
  (forall config params m,
      _enabled m = true -> table_ok m -> plain_ids params ->
      exists b m',
        getBucket config params m = (Some b, m') /\
        bucketKey b = spec_resolveKey config params) /\
  option_map bucketKey
    (fst (getBucket channels_messages_send (set_channelId (Some "123") no_params)
            (RateLimitManager_new true)))
  = Some "channels::123::messages::send" /\
  option_map bucketKey
    (fst (getBucket channels_messages_send no_params (RateLimitManager_new true)))
  = Some "channels::channel_id::messages::send".
Proof.
  split; [| split; reflexivity].
  intros config params m Hon Hok Hplain.
  destruct (getBucket_enabled config params m Hon Hok) as (b & m' & E & Hk & _).
  exists b, m'. split; [exact E |].
  rewrite Hk. now apply resolveKey_plain_ids.
Qed.

Lemma getBucket_key_witness :
  exists b m',
    getBucket channels_messages_send (set_channelId (Some "123") no_params)
      (RateLimitManager_new true) = (Some b, m') /\
    bucketKey b
    = spec_resolveKey channels_messages_send (set_channelId (Some "123") no_params).
Proof.
  apply (proj1 getBucket_key_for_plain_ids).
  - reflexivity.
  - intros key b H. unfold RateLimitManager_new in H. cbn [_buckets] in H.
    rewrite lookup_empty in H. discriminate H.
  - unfold plain_ids. cbn. repeat split; discriminate.
Defined.

(** C5 as the claim words it fails: an ID that contains the text of a
    later placeholder is substituted a second time, although that
    placeholder does not occur in the template. *)
Lemma getBucket_key_counterexample :
  let params := set_guildId (Some "7") (set_channelId (Some "::guild_id") no_params) in
  includes "::guild_id" (bucket channels_messages_send) = false /\
  option_map bucketKey
    (fst (getBucket channels_messages_send params (RateLimitManager_new true)))
  = Some "channels::::7::messages::send" /\
  spec_resolveKey channels_messages_send params = "channels::::guild_id::messages::send" /\
  option_map bucketKey
    (fst (getBucket channels_messages_send params (RateLimitManager_new true)))
  <> Some (spec_resolveKey channels_messages_send params).
Proof.
  cbv zeta. repeat split; try reflexivity. vm_compute. discriminate.
Qed.

(** The replacement text is read by [String.prototype.replace]: a dollar
    sign in an ID is not taken literally. *)
Example resolveKey_dollar_pattern :
  resolveKey channels_messages_send (set_channelId (Some "$&") no_params)
  = "channels::::channel_id::messages::send".
Proof. reflexivity. Qed.

(** C10.  An empty string as ID is the same as no ID: for each of the six
    parameters the call returns what it returns with the parameter left
    out, and with nothing but empty IDs the key is the template. *)
Theorem empty_id_is_absent (config : RateLimitConfig) (p : BucketParams)
    (m : RateLimitManager) :
  let blank := Some EmptyString in
  getBucket config (set_channelId blank p) m = getBucket config (set_channelId None p) m /\
  getBucket config (set_guildId blank p) m = getBucket config (set_guildId None p) m /\
  getBucket config (set_userId blank p) m = getBucket config (set_userId None p) m /\
  getBucket config (set_targetId blank p) m = getBucket config (set_targetId None p) m /\
  getBucket config (set_webhookId blank p) m = getBucket config (set_webhookId None p) m /\
  getBucket config (set_inviteCode blank p) m = getBucket config (set_inviteCode None p) m /\
  resolveKey config
    {| channelId := blank; guildId := blank; userId := blank;
       targetId := blank; webhookId := blank; inviteCode := blank |}
  = bucket config /\
  resolveKey channels_messages_send (set_channelId blank no_params)
  = "channels::channel_id::messages::send".
Proof.
  cbv zeta. unfold getBucket, resolveKey. cbn.
  repeat split; reflexivity.
Qed.

(** C9.  A manager whose [_enabled] is false (as [new
    RateLimitManager(false)] is) hands out no bucket and leaves its table
    alone, awaits nothing in [waitForRateLimit] (no [acquire], no sleep),
    and reports [remaining = Infinity], [resetMs = 0] without touching the
    bucket. *)
Theorem disabled_manager_is_inert (m : RateLimitManager) (Hoff : _enabled m = false) :
  _enabled (RateLimitManager_new false) = false /\
  (forall config params, getBucket config params m = (None, m)) /\
  (forall bucket, waitForRateLimit m bucket = Return tt) /\
  (forall bucket,
      getBucketInfo m bucket = Return {| remaining := Infinity; resetMs := Int 0 |}) /\
  (forall bucket (S : Type) (e : Env S) (s : S),
      run e (waitForRateLimit m bucket) s = (tt, s, []) /\
      run e (getBucketInfo m bucket) s
      = ({| remaining := Infinity; resetMs := Int 0 |}, s, [])).
Proof.
  assert (Hw : forall bucket, waitForRateLimit m bucket = Return tt).
  { intros [b|]; simpl; [now rewrite Hoff | reflexivity]. }
  assert (Hi : forall bucket,
             getBucketInfo m bucket
             = Return {| remaining := Infinity; resetMs := Int 0 |}).
  { intros [b|]; simpl; [now rewrite Hoff | reflexivity]. }
  split; [reflexivity |]. split; [| split; [exact Hw | split; [exact Hi |]]].
  - intros config params. unfold getBucket. now rewrite Hoff.
  - intros bucket S e s. now rewrite Hw, Hi.
Qed.

Lemma disabled_manager_witness :
  _enabled (RateLimitManager_new false) = false /\
  forall bucket (S : Type) (e : Env S) (s : S),
    run e (waitForRateLimit (RateLimitManager_new false) bucket) s = (tt, s, []).
Proof.
  split; [reflexivity |].
  intros bucket S e s.
  exact (proj1 (proj2 (proj2 (proj2 (proj2
           (disabled_manager_is_inert (RateLimitManager_new false) eq_refl))))
           bucket S e s)).
Defined.

(** C6.  Whatever the bucket answers, a run of [waitForRateLimit] awaits
    [acquire] at most twice and sleeps at most twice, once (for the wait
    just returned) after each positive wait; it has one of four shapes,
    and after a second positive wait it sleeps and returns without asking
    again. *)
Theorem waitForRateLimit_retries_once
    (m : RateLimitManager) (bucket : option RateLimitBucket)
    (S : Type) (e : Env S) (s : S) :
  let tr := snd (run e (waitForRateLimit m bucket) s) in
  (count is_acquire tr <= 2)%nat /\
  (count is_sleep tr <= 2)%nat /\
  count is_sleep tr = count is_positive_acquire tr /\
  (tr = []
   \/ (exists w, gt0 w = false /\ tr = [DidAcquire w])
   \/ (exists key w1 w2,
         gt0 w1 = true /\ gt0 w2 = false /\
         tr = [DidAcquire w1; DidWarn (RateLimitHit key w1); DidSleep w1;
               DidAcquire w2])
   \/ (exists key w1 w2,
         gt0 w1 = true /\ gt0 w2 = true /\
         tr = [DidAcquire w1; DidWarn (RateLimitHit key w1); DidSleep w1;
               DidAcquire w2; DidWarn (RateLimitStillActive key w2); DidSleep w2])).
Proof.
  destruct bucket as [b|]; simpl; [| repeat split; auto].
  destruct (_enabled m); simpl; [| repeat split; auto].
  destruct (env_acquire e s) as [w1 s1] eqn:E1.
  destruct (gt0 w1) eqn:G1; simpl.
  - destruct (env_acquire e (env_sleep e w1 s1)) as [w2 s2] eqn:E2.
    destruct (gt0 w2) eqn:G2; simpl; unfold count; simpl; rewrite G1, G2; simpl.
    + repeat split; auto.
      right; right; right. exists (bucketKey b), w1, w2. auto.
    + repeat split; auto.
      right; right; left. exists (bucketKey b), w1, w2. auto.
  - unfold count; simpl; rewrite G1; simpl. repeat split; auto.
    right; left. exists w1. auto.
Qed.

(** A caller that finds the bucket full sleeps for the wait it was given
    and is let through on the retry. *)
Example waitForRateLimit_on_full_bucket :
  let full := with_timestamps [100%Z] (RateLimitBucket_new "users::me" 1 1000 false) in
  snd (run bucket_env (waitForRateLimit (RateLimitManager_new true) (Some full))
         (full, [(600, 600); (1101, 1101)]%Z))
  = [DidAcquire (Int 500); DidWarn (RateLimitHit "users::me" (Int 500));
     DidSleep (Int 500); DidAcquire (Int 0)].
Proof. reflexivity. Qed.

End ManagerFacts.

(** ** The bucket *)

Section BucketFacts.

Import JS Bucket.
Local Open Scope Z_scope.

(** *** The clock *)

Lemma clock_from_weaken (t t' : Z) (l : list Z) :
  t' <= t -> clock_from t l -> clock_from t' l.
Proof. destruct l as [|r l]; simpl; [auto | intros ? [? ?]; split; [lia | assumption]]. Qed.

(** *** Pruning *)

Lemma filter_all {A : Type} (f : A -> bool) (l : list A) :
  Forall (fun x => f x = true) l -> List.filter f l = l.
Proof.
  induction 1 as [|x l Hx _ IH]; simpl; [reflexivity |].
  now rewrite Hx, IH.
Qed.

Lemma prune_loop_noop (cutoff : Z) (ts : list Z) :
  Forall (fun x => cutoff <= x) ts -> prune_loop cutoff ts = ts.
Proof.
  intros H. destruct H as [|x l Hx _]; simpl; [reflexivity |].
  destruct (Z.ltb_spec x cutoff); [lia | reflexivity].
Qed.

(** On timestamps in ascending order the loop removes exactly the entries
    below the cutoff. *)
Lemma prune_loop_filter (cutoff : Z) (ts : list Z) :
  StronglySorted Z.le ts ->
  prune_loop cutoff ts = List.filter (fun x => cutoff <=? x) ts.
Proof.
  induction 1 as [|x l Hl IH Hx]; simpl; [reflexivity |].
  destruct (Z.ltb_spec x cutoff) as [Hlt | Hge].
  - destruct (Z.leb_spec cutoff x); [lia | exact IH].
  - destruct (Z.leb_spec cutoff x); [| lia].
    f_equal. symmetry. apply filter_all.
    eapply Forall_impl; [exact Hx |]. intros y Hy. simpl in Hy. apply Z.leb_le. lia.
Qed.

Lemma prune_loop_sorted (cutoff : Z) (ts : list Z) :
  StronglySorted Z.le ts -> StronglySorted Z.le (prune_loop cutoff ts).
Proof.
  induction 1 as [|x l Hl IH Hx]; simpl; [constructor |].
  destruct (x <? cutoff); [exact IH | now constructor].
Qed.

Lemma prune_loop_Forall (P : Z -> Prop) (cutoff : Z) (ts : list Z) :
  Forall P ts -> Forall P (prune_loop cutoff ts).
Proof.
  induction 1 as [|x l Hx Hl IH]; simpl; [constructor |].
  destruct (x <? cutoff); [exact IH | now constructor].
Qed.

Lemma prune_loop_length (cutoff : Z) (ts : list Z) :
  (length (prune_loop cutoff ts) <= length ts)%nat.
Proof.
  induction ts as [|x l IH]; simpl; [lia |].
  destruct (x <? cutoff); simpl; lia.
Qed.

(** *** The invariant of reachable buckets *)

Lemma wf_prune (t now : Z) (b : RateLimitBucket) : wf t b -> wf t (_prune now b).
Proof.
  intros (Hs & Hb & Hl). unfold _prune, wf. simpl.
  split; [now apply prune_loop_sorted |].
  split; [now apply prune_loop_Forall |].
  pose proof (prune_loop_length (now - windowMs b) (_timestamps b)). lia.
Qed.

Lemma wf_later (t t' : Z) (b : RateLimitBucket) : t <= t' -> wf t b -> wf t' b.
Proof.
  intros Hle (Hs & Hb & Hl). repeat split; try assumption.
  eapply Forall_impl; [exact Hb |]. intros x Hx. simpl in Hx. lia.
Qed.

Lemma sorted_snoc (ts : list Z) (x : Z) :
  StronglySorted Z.le ts -> Forall (fun y => y <= x) ts ->
  StronglySorted Z.le (ts ++ [x]).
Proof.
  induction 1 as [|y l Hl IH Hy]; intros Hb; simpl.
  - constructor; constructor.
  - inversion Hb; subst. constructor; [now apply IH |].
    apply Forall_app. split; [exact Hy | constructor; [assumption | constructor]].
Qed.

Lemma wf_tryAcquire (t now1 now2 : Z) (b : RateLimitBucket) :
  wf t b -> t <= now2 -> wf now2 (snd (_tryAcquire now1 now2 b)).
Proof.
  intros Hwf Hle. unfold _tryAcquire.
  pose proof (wf_prune t now1 b Hwf) as Hp.
  set (b1 := _prune now1 b) in *. clearbody b1.
  destruct (Z.ltb_spec (Z.of_nat (length (_timestamps b1))) (limit b1)) as [Hlt | Hge].
  - destruct Hp as (Hs & Hb & Hl). unfold wf. simpl.
    split; [apply sorted_snoc; [assumption |] |].
    + eapply Forall_impl; [exact Hb |]. intros x Hx. simpl in Hx. lia.
    + split.
      * apply Forall_app. split; [| constructor; [lia | constructor]].
        eapply Forall_impl; [exact Hb |]. intros x Hx. simpl in Hx. lia.
      * rewrite length_app. simpl. lia.
  - destruct (_timestamps b1) eqn:E; simpl; now apply wf_later with t.
Qed.

Lemma reachable_wf (t : Z) (b : RateLimitBucket) : reachable t b -> wf t b.
Proof.
  induction 1 as [key l w ex t | t b o t' _ IH Hc].
  - unfold wf. simpl. repeat split; try constructor. lia.
  - destruct o as [now1 now2 | now | now1 now2 | ]; simpl in Hc |- *.
    + destruct Hc as (H1 & H2 & H3 & _).
      apply wf_later with now2; [assumption |].
      apply wf_tryAcquire with t; [assumption | lia].
    + destruct Hc as (H1 & H2 & _).
      apply wf_later with t; [lia |]. now apply wf_prune.
    + destruct Hc as (H1 & H2 & H3 & _).
      apply wf_later with t; [lia |].
      unfold getResetTime_body.
      destruct (_timestamps (_prune now1 b)) eqn:E; simpl; now apply wf_prune.
    + destruct Hc as (H1 & _). unfold reset_body, wf. simpl.
      repeat split; try constructor. lia.
Qed.

(** *** Acquiring *)

Lemma limit_tryAcquire (now1 now2 : Z) (b : RateLimitBucket) :
  limit (snd (_tryAcquire now1 now2 b)) = limit b /\
  windowMs (snd (_tryAcquire now1 now2 b)) = windowMs b.
Proof.
  unfold _tryAcquire. simpl.
  destruct (_ <? _); [split; reflexivity |].
  destruct (prune_loop _ _); split; reflexivity.
Qed.

Lemma tryAcquire_under_limit (now1 now2 : Z) (b : RateLimitBucket) :
  Z.of_nat (length (_timestamps b)) < limit b ->
  fst (_tryAcquire now1 now2 b) = Int 0 /\
  (length (_timestamps (snd (_tryAcquire now1 now2 b))) <= S (length (_timestamps b)))%nat.
Proof.
  intros Hlt. unfold _tryAcquire. simpl.
  pose proof (prune_loop_length (now1 - windowMs b) (_timestamps b)) as Hp.
  destruct (Z.ltb_spec (Z.of_nat (length (prune_loop (now1 - windowMs b) (_timestamps b))))
              (limit b)) as [_ | Hge]; [| lia].
  simpl. rewrite length_app. simpl. split; [reflexivity | lia].
Qed.

(** While fewer than [limit] calls have been made, every call is
    admitted, whatever the clock says. *)
Lemma acquire_all_under_limit (rs : list (Z * Z)) (b : RateLimitBucket) :
  Z.of_nat (length (_timestamps b)) + Z.of_nat (length rs) <= limit b ->
  fst (acquire_all rs b) = repeat (Int 0) (length rs).
Proof.
  revert b. induction rs as [|[now1 now2] rs IH]; intros b Hlen; [reflexivity |].
  simpl in Hlen |- *.
  destruct (tryAcquire_under_limit now1 now2 b) as [Hw Hl]; [lia |].
  destruct (limit_tryAcquire now1 now2 b) as [HL _].
  destruct (_tryAcquire now1 now2 b) as [w b1]. simpl in Hw, Hl, HL. subst w.
  specialize (IH b1). destruct (acquire_all rs b1) as [ws b2]. simpl in IH |- *.
  f_equal. apply IH. lia.
Qed.

(** Calls whose readings stay within one window of the oldest timestamp
    [lo] prune nothing; under the limit each one records its reading. *)
Lemma acquire_all_in_window (rs : list (Z * Z)) (b : RateLimitBucket) (lo : Z) :
  Forall (fun x => lo <= x) (_timestamps b) ->
  Forall (fun r => fst r - windowMs b <= lo /\ lo <= snd r) rs ->
  Z.of_nat (length (_timestamps b)) + Z.of_nat (length rs) <= limit b ->
  acquire_all rs b
  = (repeat (Int 0) (length rs), with_timestamps (_timestamps b ++ map snd rs) b).
Proof.
  revert b. induction rs as [|[now1 now2] rs IH]; intros b Hlo Hrs Hlen.
  - simpl. rewrite app_nil_r. destruct b; reflexivity.
  - inversion Hrs as [|r rs' [Hr1 Hr2] Hrs']; subst. simpl in Hr1, Hr2, Hlen.
    cbn [acquire_all]. unfold _tryAcquire, _prune.
    rewrite prune_loop_noop
      by (eapply Forall_impl; [exact Hlo |]; intros x Hx; simpl in Hx; lia).
    cbn [_timestamps limit windowMs with_timestamps].
    destruct (Z.ltb_spec (Z.of_nat (length (_timestamps b))) (limit b)); [| lia].
    rewrite IH; cbn [_timestamps limit windowMs with_timestamps bucketKey exemptFromGlobal].
    + simpl. rewrite <- app_assoc. reflexivity.
    + apply Forall_app. split; [exact Hlo | constructor; [exact Hr2 | constructor]].
    + exact Hrs'.
    + rewrite length_app. simpl. lia.
Qed.

Lemma readings_bounds (first : Z) (rs : list (Z * Z)) (now1 now2 : Z) :
  clock_from first (all_readings rs ++ [now1; now2]) ->
  first <= now1 /\ now1 <= now2 /\
  Forall (fun r => first <= fst r /\ fst r <= now2 /\ first <= snd r /\ snd r <= now2) rs.
Proof.
  revert first. induction rs as [|[a c] rs IH]; intros first H; simpl in H.
  - destruct H as (H1 & H2 & _). repeat split; try assumption. constructor.
  - destruct H as (H1 & H2 & H3). destruct (IH c H3) as (I1 & I2 & I3).
    split; [lia |]. split; [lia |].
    constructor; [simpl; lia |].
    eapply Forall_impl; [exact I3 |]. intros [x y]. simpl. lia.
Qed.

(** C1.  On a bucket reached under a clock that never goes backwards,
    [acquire] first removes every timestamp below [now - windowMs]; with
    fewer than [limit] left it records the reading and returns 0, and
    otherwise it returns [max 0 (oldest + windowMs - now)] and records
    nothing.  So the first [L] calls on a new bucket all return 0, and one
    more call made before the first recorded timestamp is [W] old returns
    the positive time left until then. *)
Theorem acquire_sliding_window :
  (forall t b now1 now2,
      reachable t b ->
      let kept := List.filter (fun x => now1 - windowMs b <=? x) (_timestamps b) in
      _prune now1 b = with_timestamps kept b /\
      (Z.of_nat (length kept) < limit b ->
       _tryAcquire now1 now2 b = (Int 0, with_timestamps (kept ++ [now2]) b)) /\
      (limit b <= Z.of_nat (length kept) ->
       (0 < limit b -> kept <> []) /\
       forall oldest rest, kept = oldest :: rest ->
         _tryAcquire now1 now2 b
         = (Int (Z.max 0 (oldest + windowMs b - now2)), with_timestamps kept b))) /\
  (forall key L W ex rs,
      Z.of_nat (length rs) <= L ->
      fst (acquire_all rs (RateLimitBucket_new key L W ex)) = repeat (Int 0) (length rs)) /\
  (forall key L W ex now0 first rs now1 now2,
      Z.of_nat (length ((now0, first) :: rs)) = L ->
      clock_from now0 (all_readings ((now0, first) :: rs) ++ [now1; now2]) ->
      now2 < first + W ->
      let b := snd (acquire_all ((now0, first) :: rs) (RateLimitBucket_new key L W ex)) in
      _timestamps b = first :: map snd rs /\
      _tryAcquire now1 now2 b = (Int (first + W - now2), b) /\
      0 < first + W - now2).
Proof.
  split; [| split].
  - intros t b now1 now2 Hr kept.
    apply reachable_wf in Hr as (Hs & _ & _).
    assert (Hp : _prune now1 b = with_timestamps kept b).
    { unfold _prune. now rewrite prune_loop_filter. }
    split; [exact Hp |]. unfold _tryAcquire. rewrite Hp.
    cbn [_timestamps limit windowMs with_timestamps].
    split.
    + intros Hlt. destruct (Z.ltb_spec (Z.of_nat (length kept)) (limit b)); [| lia].
      reflexivity.
    + intros Hge. split.
      * intros Hpos E. rewrite E in Hge. simpl in Hge. lia.
      * intros oldest rest E.
        destruct (Z.ltb_spec (Z.of_nat (length kept)) (limit b)); [lia |].
        rewrite E. reflexivity.
  - intros key L W ex rs Hlen. apply acquire_all_under_limit. simpl. lia.
  - intros key L W ex now0 first rs now1 now2 HL Hc Hlt b.
    simpl in Hc. destruct Hc as (_ & H0 & Hc).
    apply readings_bounds in Hc as (H1 & H2 & Hrs).
    assert (E : acquire_all ((now0, first) :: rs) (RateLimitBucket_new key L W ex)
                = (repeat (Int 0) (length ((now0, first) :: rs)),
                   with_timestamps (first :: map snd rs) (RateLimitBucket_new key L W ex))).
    { rewrite (acquire_all_in_window ((now0, first) :: rs)
                 (RateLimitBucket_new key L W ex) first); [reflexivity | | |].
      - constructor.
      - constructor; [simpl; lia |].
        eapply Forall_impl; [exact Hrs |]. intros [x y]. simpl. lia.
      - simpl in HL |- *. lia. }
    subst b. rewrite E. cbn [snd with_timestamps _timestamps RateLimitBucket_new
                               bucketKey limit windowMs exemptFromGlobal].
    split; [reflexivity |]. split; [| lia].
    unfold _tryAcquire, _prune, RateLimitBucket_new.
    cbn [_timestamps limit windowMs with_timestamps bucketKey exemptFromGlobal].
    rewrite prune_loop_noop.
    + destruct (Z.ltb_spec (Z.of_nat (length (first :: map snd rs))) L) as [Hc | Hc].
      * simpl in Hc, HL. rewrite length_map in Hc. lia.
      * rewrite Z.max_r by lia. reflexivity.
    + constructor; [lia |]. apply Forall_map.
      eapply Forall_impl; [exact Hrs |]. intros [x y]. simpl. lia.
Qed.

Lemma acquire_sliding_window_witness :
  clock_from 0 (all_readings [(0, 3); (10, 12)] ++ [500; 501]) /\
  501 < 3 + 1000 /\
  fst (acquire_all [(0, 3); (10, 12)] sample_bucket) = [Int 0; Int 0] /\
  fst (_tryAcquire 500 501 (snd (acquire_all [(0, 3); (10, 12)] sample_bucket)))
  = Int 502.
Proof.
  assert (Hc : clock_from 0 (all_readings [(0, 3); (10, 12)] ++ [500; 501]))
    by (simpl; lia).
  assert (Hw : 501 < 3 + 1000) by lia.
  destruct acquire_sliding_window as (_ & Hfirst & Hnext).
  destruct (Hnext "users::me"%string 2 1000 false 0 3 [(10, 12)] 500 501 eq_refl Hc Hw)
    as (_ & Hwait & _).
  split; [exact Hc |]. split; [exact Hw |]. split.
  - apply (Hfirst "users::me"%string 2 1000 false [(0, 3); (10, 12)]). simpl. lia.
  - unfold sample_bucket. rewrite Hwait. reflexivity.
Defined.

(** With a limit of zero there is never an oldest timestamp: the wait is
    [NaN]. *)
Example acquire_limit_zero :
  _tryAcquire 5 5 (RateLimitBucket_new "k"%string 0 1000 false)
  = (NaN, RateLimitBucket_new "k"%string 0 1000 false).
Proof. reflexivity. Qed.

(** Exactly [windowMs] after the oldest timestamp the entry is not pruned
    yet and the wait is already zero. *)
Example acquire_at_window_end :
  _tryAcquire 1100 1100 (with_timestamps [100] (RateLimitBucket_new "k"%string 1 1000 false))
  = (Int 0, with_timestamps [100] (RateLimitBucket_new "k"%string 1 1000 false)).
Proof. reflexivity. Qed.

(** C3.  On every reachable bucket: after a prune no timestamp is below
    [now - windowMs]; after an [acquire] that returned 0 there are at most
    [limit] timestamps; and every operation leads to a bucket that
    satisfies the invariant again. *)
Theorem bucket_invariant_preserved (t : Z) (b : RateLimitBucket) (Hr : reachable t b) :
  (forall now,
      Forall (fun x => now - windowMs b <= x) (_timestamps (_prune now b))) /\
  (forall now1 now2,
      fst (_tryAcquire now1 now2 b) = Int 0 ->
      Z.of_nat (length (_timestamps (snd (_tryAcquire now1 now2 b)))) <= limit b) /\
  (forall o t', clock_from t (readings o ++ [t']) -> wf t' (step o b)).
Proof.
  pose proof (reachable_wf t b Hr) as Hwf.
  split; [| split].
  - intros now. destruct Hwf as (Hs & _ & _). unfold _prune. simpl.
    rewrite prune_loop_filter by assumption.
    apply List.Forall_forall. intros x Hin.
    apply filter_In in Hin as [_ Hx]. now apply Z.leb_le.
  - intros now1 now2. unfold _tryAcquire.
    pose proof (wf_prune t now1 b Hwf) as (_ & _ & Hl).
    assert (El : limit (_prune now1 b) = limit b) by reflexivity.
    set (b1 := _prune now1 b) in *. clearbody b1.
    destruct (Z.ltb_spec (Z.of_nat (length (_timestamps b1))) (limit b1)) as [Hlt | Hge].
    + intros _. simpl. rewrite length_app. simpl. lia.
    + destruct (_timestamps b1) as [|oldest rest] eqn:E; simpl; [discriminate |].
      intros _. rewrite E. simpl in Hl |- *. lia.
  - intros o t' Hc. apply reachable_wf. now apply reach_step with t.
Qed.

Lemma bucket_invariant_witness :
  reachable 5 (step (OpAcquire 1 2) (RateLimitBucket_new "k"%string 1 1000 false)) /\
  fst (_tryAcquire 1002 1002
         (step (OpAcquire 1 2) (RateLimitBucket_new "k"%string 1 1000 false))) = Int 0 /\
  Z.of_nat
    (length
       (_timestamps
          (snd (_tryAcquire 1002 1002
                  (step (OpAcquire 1 2) (RateLimitBucket_new "k"%string 1 1000 false))))))
  <= 1.
Proof.
  assert (Hr : reachable 5
                 (step (OpAcquire 1 2) (RateLimitBucket_new "k"%string 1 1000 false))).
  { apply reach_step with 0; [apply reach_new | simpl; lia]. }
  split; [exact Hr |]. split; [reflexivity |].
  exact (proj1 (proj2 (bucket_invariant_preserved 5 _ Hr)) 1002 1002 eq_refl).
Defined.

(** *** The queue *)

Section QueueFacts.

Import BucketQueue.

(** [acquire()] on an idle bucket: the next turn runs [_tryAcquire] and
    settles the caller's promise with its result. *)
Lemma acquire_runs_tryAcquire (p : nat) (now1 now2 : Z) (q : Queued) :
  _queuePromise q = [] ->
  turn now1 now2 (acquire p q)
  = ({| obj := snd (_tryAcquire now1 now2 (obj q)); _queuePromise := [] |},
     [(p, fst (_tryAcquire now1 now2 (obj q)))]).
Proof.
  intros Hq. unfold turn, acquire, _enqueue. simpl. rewrite Hq. simpl.
  destruct (_tryAcquire now1 now2 (obj q)); reflexivity.
Qed.

Lemma admitted_cons (p : nat) (v : number) (out : list (nat * number)) :
  admitted ((p, v) :: out)
  = if is_admitted (p, v) then p :: admitted out else admitted out.
Proof. unfold admitted. simpl. destruct (is_admitted (p, v)); reflexivity. Qed.

(** One continuation of the race: nothing is pruned; below the limit the
    caller is admitted and recorded, at the limit it is deferred. *)
Lemma racing_tryAcquire (l w start now1 now2 : Z) (b : RateLimitBucket) :
  limit b = l -> windowMs b = w ->
  Forall (fun x => start <= x < start + w) (_timestamps b) ->
  start <= now1 < start + w -> start <= now2 < start + w ->
  let r := _tryAcquire now1 now2 b in
  limit (snd r) = l /\ windowMs (snd r) = w /\
  Forall (fun x => start <= x < start + w) (_timestamps (snd r)) /\
  ((Z.of_nat (length (_timestamps b)) < l /\ fst r = Int 0 /\
    _timestamps (snd r) = _timestamps b ++ [now2])
   \/ (l <= Z.of_nat (length (_timestamps b)) /\ snd r = b /\
       ((exists x, 0 < x /\ fst r = Int x) \/ (l <= 0 /\ fst r = NaN)))).
Proof.
  intros Hl Hw Hts H1 H2. subst l w. unfold _tryAcquire, _prune.
  rewrite prune_loop_noop
    by (eapply Forall_impl; [exact Hts |]; intros x Hx; simpl in Hx; lia).
  cbn [_timestamps limit windowMs with_timestamps].
  destruct (Z.ltb_spec (Z.of_nat (length (_timestamps b))) (limit b)) as [Hlt | Hge].
  - cbn [fst snd _timestamps limit windowMs with_timestamps].
    repeat split; try assumption.
    + apply Forall_app. split; [exact Hts | constructor; [exact H2 | constructor]].
    + left. repeat split. exact Hlt.
  - assert (Eb : with_timestamps (_timestamps b) b = b) by (destruct b; reflexivity).
    rewrite Eb.
    destruct (_timestamps b) as [|oldest rest] eqn:E; cbn [fst snd].
    + repeat split; try assumption; [rewrite E; constructor |].
      simpl in Hge. right. repeat split; [simpl; lia |]. right. split; [lia | reflexivity].
    + repeat split; try assumption; [now rewrite E |].
      right. repeat split; [lia |]. left.
      inversion Hts; subst.
      exists (oldest + windowMs b - now2). split; [lia |].
      rewrite Z.max_r by lia. reflexivity.
Qed.

Lemma firstn_none {A : Type} (n : nat) (l : list A) : n = 0%nat -> firstn n l = [].
Proof. intros ->. reflexivity. Qed.

(** A whole schedule of the race, from any of its states. *)
Lemma exec_racing (l w start : Z) (evs : list Event) (q : Queued) :
  racing l w start q -> within_window start w evs ->
  _queuePromise (fst (exec evs q)) = [] ->
  let out := snd (exec evs q) in
  let waiting := map fst (_queuePromise q) ++ callers evs in
  map fst out = waiting /\
  admitted out = firstn (Z.to_nat l - length (_timestamps (obj q))) waiting /\
  (0 < l -> Forall (fun r => is_admitted r = false -> is_deferred r = true) out).
Proof.
  revert q. induction evs as [|ev evs IH]; intros q Hq Hwin Hdone.
  - simpl in *. rewrite Hdone. simpl. repeat split; [| constructor].
    now rewrite firstn_nil.
  - assert (Hwin' : within_window start w evs).
    { intros n1 n2 Hin. apply Hwin. now right. }
    destruct ev as [p | now1 now2].
    + simpl in Hdone |- *.
      assert (Hq' : racing l w start (acquire p q)).
      { destruct Hq as (H1 & H2 & H3 & H4). unfold racing, acquire, _enqueue. simpl.
        repeat split; try assumption.
        apply Forall_app. split; [exact H4 | constructor; [reflexivity | constructor]]. }
      destruct (IH _ Hq' Hwin' Hdone) as (I1 & I2 & I3).
      unfold acquire, _enqueue in I1, I2. simpl in I1, I2.
      rewrite map_app, <- app_assoc in I1, I2. simpl in I1, I2.
      repeat split; assumption.
    + destruct (Hwin now1 now2 (or_introl eq_refl)) as [Hn1 Hn2].
      simpl in Hdone |- *. unfold turn in *.
      destruct (_queuePromise q) as [|[p fn] rest] eqn:Eq.
      * destruct (exec evs q) as [q2 out2] eqn:E2. simpl in Hdone |- *.
        specialize (IH q Hq Hwin'). rewrite E2, Eq in IH. exact (IH Hdone).
      * destruct Hq as (H1 & H2 & H3 & H4). rewrite Eq in H4.
        inversion H4 as [|x xs Hfn Hrest]; subst x xs. simpl in Hfn. subst fn.
        pose proof (racing_tryAcquire _ _ start now1 now2 (obj q) H1 H2 H3 Hn1 Hn2)
          as (R1 & R2 & R3 & R4).
        destruct (_tryAcquire now1 now2 (obj q)) as [v b1]. simpl in R1, R2, R3, R4.
        set (q1 := {| obj := b1; _queuePromise := rest |}) in *.
        assert (Hq1 : racing l w start q1).
        { unfold racing. simpl. repeat split; assumption. }
        specialize (IH q1 Hq1 Hwin').
        destruct (exec evs q1) as [q2 out2] eqn:E2. simpl in Hdone, IH |- *.
        destruct (IH Hdone) as (I1 & I2 & I3). clear IH.
        split; [now rewrite I1 |].
        rewrite admitted_cons, I2.
        destruct R4 as [(Hlt & Hv & Hts) | (Hge & Hb & Hv)].
        -- subst v. rewrite Hts, length_app. simpl.
           split.
           ++ replace (Z.to_nat l - length (_timestamps (obj q)))%nat
                with (S (Z.to_nat l - (length (_timestamps (obj q)) + 1)))
                by lia.
              reflexivity.
           ++ intros Hpos. constructor; [simpl; discriminate | now apply I3].
        -- subst b1.
           assert (Hna : is_admitted (p, v) = false).
           { destruct Hv as [(x & Hx & ->) | (_ & ->)]; [| reflexivity].
             unfold is_admitted. simpl. destruct x; [lia | reflexivity | reflexivity]. }
           rewrite Hna. split.
           ++ rewrite !firstn_none by lia. reflexivity.
           ++ intros Hpos. constructor; [| now apply I3].
              intros _. destruct Hv as [(x & Hx & ->) | (Hneg & _)]; [| lia].
              unfold is_deferred. simpl. now apply Z.ltb_lt.
Qed.

(** X21.  Before the end of the window the queue admits up to the limit.
    However the calls of [M] callers on a new bucket and the turns of the
    event loop are interleaved, with every clock reading in
    [[start, start + W)], once the queue has drained every caller is
    settled in call order, the admitted callers are the first [min L M] of
    them, and, for a positive limit, every other caller got a positive
    wait. *)
Theorem racing_callers_admitted_up_to_limit
    (key : string) (L W : Z) (ex : bool) (start : Z) (evs : list Event) :
  0 <= L ->
  within_window start W evs ->
  let res := exec evs (Queued_new (RateLimitBucket_new key L W ex)) in
  _queuePromise (fst res) = [] ->
  map fst (snd res) = callers evs /\
  admitted (snd res) = firstn (Z.to_nat L) (callers evs) /\
  Z.of_nat (length (admitted (snd res))) = Z.min L (Z.of_nat (length (callers evs))) /\
  (0 < L -> Forall (fun r => is_admitted r = false -> is_deferred r = true) (snd res)).
Proof.
  intros HL Hwin res Hdone.
  assert (Hq : racing L W start (Queued_new (RateLimitBucket_new key L W ex))).
  { unfold racing. simpl. repeat split; constructor. }
  destruct (exec_racing L W start evs _ Hq Hwin Hdone) as (H1 & H2 & H3).
  simpl in H1, H2. rewrite Nat.sub_0_r in H2.
  fold res in H1, H2, H3.
  repeat split; try assumption.
  rewrite H2, length_firstn. lia.
Qed.

Lemma racing_callers_witness :
  let evs := [Call 1; Call 2; Turn 0 0; Call 3; Turn 5 6; Turn 9 9] in
  within_window 0 1000 evs /\
  admitted (snd (exec evs (Queued_new sample_bucket))) = [1%nat; 2%nat] /\
  Z.of_nat (length (admitted (snd (exec evs (Queued_new sample_bucket))))) = 2.
Proof.
  cbv zeta.
  assert (Hwin : within_window 0 1000
                   [Call 1; Call 2; Turn 0 0; Call 3; Turn 5 6; Turn 9 9]).
  { intros now1 now2 Hin. simpl in Hin.
    repeat match goal with
           | H : _ \/ _ |- _ => destruct H as [H | H]
           | H : Call _ = Turn _ _ |- _ => discriminate H
           | H : Turn _ _ = Turn _ _ |- _ => inversion H; subst; clear H
           | H : False |- _ => elim H
           end; lia. }
  destruct (racing_callers_admitted_up_to_limit "users::me"%string 2 1000 false 0
              [Call 1; Call 2; Turn 0 0; Call 3; Turn 5 6; Turn 9 9]
              ltac:(lia) Hwin eq_refl) as (_ & Hadm & Hcount & _).
  split; [exact Hwin |]. split; [exact Hadm | exact Hcount].
Defined.

(** With fewer callers than the limit allows there is nobody else to
    admit: one caller on a bucket of limit 2 is one admitted caller. *)
Lemma racing_callers_counterexample :
  let evs := [Call 1; Turn 0 0] in
  let res := exec evs (Queued_new sample_bucket) in
  limit sample_bucket = 2 /\
  (forall now1 now2, In (Turn now1 now2) evs -> 0 <= now1 < 1000 /\ 0 <= now2 < 1000) /\
  _queuePromise (fst res) = [] /\
  callers evs = [1%nat] /\
  snd res = [(1%nat, Int 0)] /\
  Z.of_nat (length (admitted (snd res))) <> limit sample_bucket.
Proof.
  cbv zeta. repeat split; try reflexivity; try discriminate.
  - destruct H as [H | [H | []]]; [discriminate H | inversion H; lia].
  - destruct H as [H | [H | []]]; [discriminate H | inversion H; lia].
  - destruct H as [H | [H | []]]; [discriminate H | inversion H; lia].
  - destruct H as [H | [H | []]]; [discriminate H | inversion H; lia].
Qed.

(** At the instant the oldest timestamp is exactly [windowMs] old the
    bucket is still full and the wait is already zero: every caller that
    runs at that instant is let through and none is recorded. *)
Example racing_at_window_end :
  exec [Call 1; Call 2; Turn 1100 1100; Turn 1100 1100]
    (Queued_new (with_timestamps [100] (RateLimitBucket_new "k"%string 1 1000 false)))
  = (Queued_new (with_timestamps [100] (RateLimitBucket_new "k"%string 1 1000 false)),
     [(1%nat, Int 0); (2%nat, Int 0)]).
Proof. reflexivity. Qed.

(** On a full bucket, at the instant its oldest timestamp is exactly
    [windowMs] old: the loop of [_prune] stops at once ([oldest < cutoff]
    is false), the bucket is full, and the wait is [max(0, 0)]. *)
Lemma tryAcquire_at_window_end (b : RateLimitBucket) (oldest : Z) (rest : list Z) :
  _timestamps b = oldest :: rest ->
  limit b <= Z.of_nat (length (oldest :: rest)) ->
  _tryAcquire (oldest + windowMs b) (oldest + windowMs b) b = (Int 0, b).
Proof.
  intros Hts Hfull. unfold _tryAcquire, _prune. rewrite Hts.
  cbn [prune_loop].
  destruct (Z.ltb_spec oldest (oldest + windowMs b - windowMs b)) as [Hlt | _]; [lia |].
  assert (Eb : with_timestamps (oldest :: rest) b = b).
  { destruct b. simpl in Hts. subst. reflexivity. }
  rewrite Eb, Hts.
  destruct (Z.ltb_spec (Z.of_nat (length (oldest :: rest))) (limit b)) as [Hlt | _]; [lia |].
  f_equal. f_equal. lia.
Qed.

(** A whole schedule at that instant, from any state of the queue. *)
Lemma exec_at_window_end (b : RateLimitBucket) (oldest : Z) (rest : list Z)
    (evs : list Event) (q : Queued) :
  _timestamps b = oldest :: rest ->
  limit b <= Z.of_nat (length (oldest :: rest)) ->
  obj q = b ->
  Forall (fun pf => snd pf = (fun now1 now2 b => _tryAcquire now1 now2 b))
         (_queuePromise q) ->
  (forall now1 now2, In (Turn now1 now2) evs ->
     now1 = oldest + windowMs b /\ now2 = oldest + windowMs b) ->
  _queuePromise (fst (exec evs q)) = [] ->
  obj (fst (exec evs q)) = b /\
  map fst (snd (exec evs q)) = map fst (_queuePromise q) ++ callers evs /\
  admitted (snd (exec evs q)) = map fst (_queuePromise q) ++ callers evs.
Proof.
  intros Hts Hfull. revert q.
  induction evs as [|ev evs IH]; intros q Hobj Hpend Hnow Hdone.
  - simpl in *. rewrite Hdone. repeat split. exact Hobj.
  - assert (Hnow' : forall now1 now2, In (Turn now1 now2) evs ->
                      now1 = oldest + windowMs b /\ now2 = oldest + windowMs b).
    { intros n1 n2 Hin. apply Hnow. now right. }
    destruct ev as [p | now1 now2].
    + simpl in Hdone |- *.
      assert (Hpend' : Forall (fun pf => snd pf = (fun now1 now2 b => _tryAcquire now1 now2 b))
                         (_queuePromise (acquire p q))).
      { unfold acquire, _enqueue. simpl.
        apply Forall_app. split; [exact Hpend | constructor; [reflexivity | constructor]]. }
      destruct (IH (acquire p q) Hobj Hpend' Hnow' Hdone) as (I1 & I2 & I3).
      unfold acquire, _enqueue in I2, I3. simpl in I2, I3.
      rewrite map_app, <- app_assoc in I2, I3. simpl in I2, I3.
      repeat split; assumption.
    + destruct (Hnow now1 now2 (or_introl eq_refl)) as [-> ->].
      simpl in Hdone |- *. unfold turn in *.
      destruct (_queuePromise q) as [|[p fn] pending] eqn:Eq.
      * destruct (exec evs q) as [q2 out2] eqn:E2. simpl in Hdone |- *.
        specialize (IH q Hobj). rewrite E2, Eq in IH.
        exact (IH Hpend Hnow' Hdone).
      * inversion Hpend as [|x xs Hfn Hrest]; subst x xs. simpl in Hfn. subst fn.
        rewrite Hobj, (tryAcquire_at_window_end b oldest rest Hts Hfull) in Hdone |- *.
        set (q1 := {| obj := b; _queuePromise := pending |}) in *.
        specialize (IH q1 eq_refl Hrest Hnow').
        destruct (exec evs q1) as [q2 out2] eqn:E2. simpl in Hdone, IH |- *.
        destruct (IH Hdone) as (I1 & I2 & I3).
        split; [exact I1 |]. split; [now rewrite I2 |].
        rewrite admitted_cons. simpl. now rewrite I3.
Qed.

(** C2.  The claim fails at the end of the window.  On a bucket that is
    full ([limit] timestamps or more), every caller that races at the
    instant its oldest timestamp is exactly [windowMs] old is admitted:
    however the calls and the turns of the event loop are interleaved,
    each of the [M] callers receives a zero wait and none is recorded, so
    the bucket is as full as before and the number admitted in that window
    is not held to [limit]. *)
Theorem racing_at_window_end_admits_every_caller
    (b : RateLimitBucket) (oldest : Z) (rest : list Z) (evs : list Event) :
  _timestamps b = oldest :: rest ->
  limit b <= Z.of_nat (length (oldest :: rest)) ->
  (forall now1 now2, In (Turn now1 now2) evs ->
     now1 = oldest + windowMs b /\ now2 = oldest + windowMs b) ->
  let res := exec evs (Queued_new b) in
  _queuePromise (fst res) = [] ->
  obj (fst res) = b /\
  map fst (snd res) = callers evs /\
  admitted (snd res) = callers evs /\
  length (admitted (snd res)) = length (callers evs).
Proof.
  intros Hts Hfull Hnow res Hdone.
  assert (Hpend : Forall (fun pf => snd pf = (fun now1 now2 b => _tryAcquire now1 now2 b))
                    (_queuePromise (Queued_new b))) by constructor.
  destruct (exec_at_window_end b oldest rest evs (Queued_new b) Hts Hfull eq_refl
              Hpend Hnow Hdone) as (H1 & H2 & H3).
  simpl in H2, H3. fold res in H1, H2, H3.
  repeat split; try assumption. now rewrite H3.
Qed.

(** A new bucket of limit 1 and window 1000: one caller at time 0, then
    two callers racing at time 1000.  All three are admitted within
    [[0, 1000]], and the bucket still holds the one timestamp. *)
Lemma racing_at_window_end_witness :
  let b0 := RateLimitBucket_new "users::me"%string 1 1000 false in
  let b := with_timestamps [0] b0 in
  exec [Call 1; Turn 0 0] (Queued_new b0) = (Queued_new b, [(1%nat, Int 0)]) /\
  exec [Call 1; Turn 0 0; Call 2; Call 3; Turn 1000 1000; Turn 1000 1000] (Queued_new b0)
  = (Queued_new b, [(1%nat, Int 0); (2%nat, Int 0); (3%nat, Int 0)]) /\
  admitted (snd (exec [Call 2; Call 3; Turn 1000 1000; Turn 1000 1000] (Queued_new b)))
  = [2%nat; 3%nat] /\
  limit b < Z.of_nat (length (admitted (snd (exec [Call 2; Call 3; Turn 1000 1000;
                                                   Turn 1000 1000] (Queued_new b))))).
Proof.
  cbv zeta.
  set (b := with_timestamps [0] (RateLimitBucket_new "users::me"%string 1 1000 false)).
  assert (Hnow : forall now1 now2,
             In (Turn now1 now2) [Call 2; Call 3; Turn 1000 1000; Turn 1000 1000] ->
             now1 = 0 + windowMs b /\ now2 = 0 + windowMs b).
  { intros now1 now2 Hin. simpl in Hin.
    repeat match goal with
           | H : _ \/ _ |- _ => destruct H as [H | H]
           | H : Call _ = Turn _ _ |- _ => discriminate H
           | H : Turn _ _ = Turn _ _ |- _ => inversion H; subst; clear H
           | H : False |- _ => elim H
           end; split; reflexivity. }
  destruct (racing_at_window_end_admits_every_caller b 0 []
              [Call 2; Call 3; Turn 1000 1000; Turn 1000 1000]
              eq_refl ltac:(simpl; lia) Hnow eq_refl) as (_ & _ & Hadm & Hlen).
  split; [reflexivity |]. split; [reflexivity |]. split; [exact Hadm |].
  rewrite Hlen. simpl. lia.
Defined.

End QueueFacts.

End BucketFacts.

(** ** More about the bucket *)

Section BucketInspection.

Import JS Bucket BucketHistory.
Local Open Scope Z_scope.

Lemma filter_length_le {A : Type} (f : A -> bool) (l : list A) :
  (length (List.filter f l) <= length l)%nat.
Proof.
  induction l as [|x l IH]; simpl; [lia |]. destruct (f x); simpl; lia.
Qed.

(** X1.  On a reachable bucket [getRemaining] prunes, returns [limit]
    minus the number of timestamps that are at most [windowMs] old, and
    for a limit that is not negative the result lies between 0 and
    [limit]. *)
Theorem getRemaining_counts_the_window
    (t : Z) (b : RateLimitBucket) (Hr : reachable t b) (now : Z) :
  let kept := List.filter (fun x => now - windowMs b <=? x) (_timestamps b) in
  getRemaining_body now b
  = (Int (limit b - Z.of_nat (length kept)), with_timestamps kept b) /\
  (0 <= limit b -> 0 <= limit b - Z.of_nat (length kept) <= limit b).
Proof.
  intros kept. pose proof (reachable_wf t b Hr) as (Hs & _ & Hl).
  unfold getRemaining_body, _prune. cbn [_timestamps limit windowMs with_timestamps].
  rewrite (prune_loop_filter _ _ Hs). fold kept. split; [reflexivity |].
  intros Hpos. pose proof (filter_length_le (fun x => now - windowMs b <=? x) (_timestamps b)).
  fold kept in H. lia.
Qed.

Lemma getRemaining_witness :
  reachable 5 (step (OpAcquire 1 2) sample_bucket) /\
  fst (getRemaining_body 700 (step (OpAcquire 1 2) sample_bucket)) = Int 1 /\
  fst (getRemaining_body 1003 (step (OpAcquire 1 2) sample_bucket)) = Int 2.
Proof.
  assert (Hr : reachable 5 (step (OpAcquire 1 2) sample_bucket)).
  { apply reach_step with 0; [apply reach_new | simpl; lia]. }
  split; [exact Hr |]. split.
  - rewrite (proj1 (getRemaining_counts_the_window 5 _ Hr 700)). reflexivity.
  - rewrite (proj1 (getRemaining_counts_the_window 5 _ Hr 1003)). reflexivity.
Defined.

(** X2.  On a reachable bucket, under a clock that does not go backwards,
    [getResetTime] returns an integer between 0 and [windowMs]; it is 0
    when no timestamp is left in the window. *)
Theorem getResetTime_within_window
    (t : Z) (b : RateLimitBucket) (Hr : reachable t b) (now1 now2 : Z) :
  t <= now1 -> now1 <= now2 ->
  exists r,
    fst (getResetTime_body now1 now2 b) = Int r /\
    0 <= r <= Z.max 0 (windowMs b) /\
    (Forall (fun x => x < now1 - windowMs b) (_timestamps b) -> r = 0).
Proof.
  intros H1 H2. pose proof (reachable_wf t b Hr) as (Hs & Hb & _).
  unfold getResetTime_body, _prune. cbn [_timestamps limit windowMs with_timestamps].
  rewrite (prune_loop_filter _ _ Hs).
  destruct (List.filter (fun x => now1 - windowMs b <=? x) (_timestamps b))
    as [|oldest rest] eqn:E; cbn [fst].
  - exists 0. repeat split; lia.
  - assert (Hin : In oldest (List.filter (fun x => now1 - windowMs b <=? x) (_timestamps b)))
      by (rewrite E; now left).
    apply filter_In in Hin as [Hin Hc]. apply Z.leb_le in Hc.
    rewrite List.Forall_forall in Hb. specialize (Hb oldest Hin). simpl in Hb.
    exists (Z.max 0 (oldest + windowMs b - now2)). split; [reflexivity |].
    split; [lia |]. intros Hall.
    rewrite List.Forall_forall in Hall. specialize (Hall oldest Hin). simpl in Hall. lia.
Qed.

Lemma getResetTime_witness :
  reachable 5 (step (OpAcquire 1 2) sample_bucket) /\
  fst (getResetTime_body 700 701 (step (OpAcquire 1 2) sample_bucket)) = Int 301.
Proof.
  assert (Hr : reachable 5 (step (OpAcquire 1 2) sample_bucket)).
  { apply reach_step with 0; [apply reach_new | simpl; lia]. }
  split; [exact Hr |].
  destruct (getResetTime_within_window 5 _ Hr 700 701 ltac:(lia) ltac:(lia))
    as (r & Hres & _).
  reflexivity.
Defined.

(** X3.  [reset] leaves the bucket as a new one with the same key, limit
    and window: whatever was recorded before, [getRemaining] is [limit]
    again and the next [limit] calls of [acquire] are all admitted. *)
Theorem reset_forgets_history (b : RateLimitBucket) (rs : list (Z * Z)) :
  Z.of_nat (length rs) <= limit b ->
  reset_body b
  = RateLimitBucket_new (bucketKey b) (limit b) (windowMs b) (exemptFromGlobal b) /\
  (forall now, fst (getRemaining_body now (reset_body b)) = Int (limit b)) /\
  fst (acquire_all rs (reset_body b)) = repeat (Int 0) (length rs).
Proof.
  intros Hlen. split; [reflexivity |]. split.
  - intros now. unfold getRemaining_body. simpl. f_equal. lia.
  - apply acquire_all_under_limit. simpl. lia.
Qed.

Lemma reset_witness :
  let full := snd (acquire_all [(0, 0); (1, 1)] sample_bucket) in
  fst (_tryAcquire 2 2 full) = Int 998 /\
  fst (acquire_all [(2, 2); (3, 3)] (reset_body full)) = [Int 0; Int 0].
Proof.
  cbv zeta. split; [reflexivity |].
  apply (reset_forgets_history (snd (acquire_all [(0, 0); (1, 1)] sample_bucket))
           [(2, 2); (3, 3)]).
  simpl. lia.
Defined.

(** X4.  On a reachable bucket, under a clock that does not go backwards,
    [acquire] never asks for more than one window of waiting: its result
    is an integer between 0 and [windowMs], or [NaN], and [NaN] only for a
    limit below 1. *)
Theorem acquire_wait_is_bounded
    (t : Z) (b : RateLimitBucket) (Hr : reachable t b) (now1 now2 : Z) :
  t <= now1 -> now1 <= now2 ->
  match fst (_tryAcquire now1 now2 b) with
  | Int w => 0 <= w <= Z.max 0 (windowMs b)
  | NaN => limit b <= 0
  | Infinity => False
  end.
Proof.
  intros H1 H2. pose proof (reachable_wf t b Hr) as Hwf.
  pose proof (wf_prune t now1 b Hwf) as (_ & Hb & _).
  unfold _tryAcquire.
  assert (Ew : windowMs (_prune now1 b) = windowMs b) by reflexivity.
  assert (El : limit (_prune now1 b) = limit b) by reflexivity.
  set (b1 := _prune now1 b) in *. clearbody b1.
  destruct (Z.ltb_spec (Z.of_nat (length (_timestamps b1))) (limit b1)) as [Hlt | Hge].
  - cbn [fst]. lia.
  - destruct (_timestamps b1) as [|oldest rest] eqn:E; cbn [fst].
    + simpl in Hge. lia.
    + inversion Hb; subst. lia.
Qed.

Lemma acquire_wait_witness :
  reachable 5 (step (OpAcquire 1 2) (RateLimitBucket_new "k"%string 1 1000 false)) /\
  fst (_tryAcquire 10 11 (step (OpAcquire 1 2) (RateLimitBucket_new "k"%string 1 1000 false)))
  = Int 991 /\
  0 <= 991 <= Z.max 0 1000.
Proof.
  assert (Hr : reachable 5
                 (step (OpAcquire 1 2) (RateLimitBucket_new "k"%string 1 1000 false))).
  { apply reach_step with 0; [apply reach_new | simpl; lia]. }
  split; [exact Hr |]. split; [reflexivity |].
  exact (acquire_wait_is_bounded 5 _ Hr 10 11 ltac:(lia) ltac:(lia)).
Defined.

(** X5.  Waiting as told is enough: when [acquire] on a reachable bucket
    returned a positive wait [w] at time [now2], a call whose readings are
    [now2 + w] or later returns 0; if it comes later than [now2 + w], it is
    also recorded. *)
Theorem acquire_after_the_wait
    (t : Z) (b : RateLimitBucket) (Hr : reachable t b)
    (now1 now2 w later1 later2 : Z) :
  fst (_tryAcquire now1 now2 b) = Int w -> 0 < w ->
  now2 + w <= later1 -> later1 <= later2 ->
  let b' := snd (_tryAcquire now1 now2 b) in
  fst (_tryAcquire later1 later2 b') = Int 0 /\
  (now2 + w < later1 -> records later1 b' = true).
Proof.
  intros Hw Hpos Hl1 Hl2 b'. subst b'.
  pose proof (reachable_wf t b Hr) as Hwf.
  pose proof (wf_prune t now1 b Hwf) as (_ & _ & Hlen).
  revert Hw. unfold _tryAcquire at 1 3 4.
  assert (Ew : windowMs (_prune now1 b) = windowMs b) by reflexivity.
  assert (El : limit (_prune now1 b) = limit b) by reflexivity.
  set (b1 := _prune now1 b) in *. clearbody b1.
  destruct (Z.ltb_spec (Z.of_nat (length (_timestamps b1))) (limit b1)) as [Hlt | Hge].
  { cbn [fst]. intros E. inversion E. lia. }
  destruct (_timestamps b1) as [|oldest rest] eqn:E; cbn [fst snd]; [discriminate |].
  intros Hw. inversion Hw as [Hw']. clear Hw.
  unfold records, _tryAcquire, _prune. rewrite E.
  cbn [_timestamps limit windowMs with_timestamps prune_loop].
  simpl in Hlen, Hge.
  pose proof (prune_loop_length (later1 - windowMs b1) rest) as Hpl.
  destruct (Z.ltb_spec oldest (later1 - windowMs b1)) as [Hold | Hold].
  - destruct (Z.ltb_spec (Z.of_nat (length (prune_loop (later1 - windowMs b1) rest)))
                (limit b1)) as [_ | Hc]; [| lia].
    cbn [fst]. split; reflexivity.
  - destruct (Z.ltb_spec (Z.of_nat (length (oldest :: rest))) (limit b1)) as [Hc | _].
    + simpl in Hc. lia.
    + cbn [fst]. split; [f_equal; lia | intros Hlt; lia].
Qed.

Lemma acquire_after_the_wait_witness :
  let b := step (OpAcquire 1 2) (RateLimitBucket_new "k"%string 1 1000 false) in
  reachable 5 b /\
  fst (_tryAcquire 10 11 b) = Int 991 /\
  fst (_tryAcquire 1002 1002 (snd (_tryAcquire 10 11 b))) = Int 0.
Proof.
  cbv zeta.
  assert (Hr : reachable 5
                 (step (OpAcquire 1 2) (RateLimitBucket_new "k"%string 1 1000 false))).
  { apply reach_step with 0; [apply reach_new | simpl; lia]. }
  split; [exact Hr |]. split; [reflexivity |].
  exact (proj1 (acquire_after_the_wait 5 _ Hr 10 11 991 1002 1002 eq_refl
                  ltac:(lia) ltac:(lia) ltac:(lia))).
Defined.

(** X6.  [acquire] and the two inspectors agree, on every bucket: the
    call records its reading exactly when [getRemaining], at the same
    time, reports a free slot; otherwise it leaves the pruned bucket that
    the inspectors leave, and when a timestamp is left its wait is what
    [getResetTime] returns. *)
Theorem acquire_agrees_with_inspectors (b : RateLimitBucket) (now1 now2 : Z) :
  ((exists r, fst (getRemaining_body now1 b) = Int r /\ 0 < r) <->
   _timestamps (snd (_tryAcquire now1 now2 b))
   = _timestamps (snd (getRemaining_body now1 b)) ++ [now2]) /\
  ((exists r, fst (getRemaining_body now1 b) = Int r /\ r <= 0) ->
   snd (_tryAcquire now1 now2 b) = snd (getRemaining_body now1 b) /\
   snd (getResetTime_body now1 now2 b) = snd (getRemaining_body now1 b) /\
   (_timestamps (snd (getRemaining_body now1 b)) <> [] ->
    fst (_tryAcquire now1 now2 b) = fst (getResetTime_body now1 now2 b))).
Proof.
  unfold getRemaining_body, getResetTime_body, _tryAcquire. cbn [fst snd].
  assert (El : limit (_prune now1 b) = limit b) by reflexivity.
  set (b1 := _prune now1 b) in *. clearbody b1.
  destruct (Z.ltb_spec (Z.of_nat (length (_timestamps b1))) (limit b1)) as [Hlt | Hge].
  - split.
    + split; [intros _; reflexivity |]. intros _. eexists. split; [reflexivity | lia].
    + intros (r & Hr & Hle). inversion Hr. lia.
  - split.
    + split.
      * intros (r & Hr & Hpos). inversion Hr. lia.
      * intros H. exfalso.
        assert (Hlen : length (_timestamps b1) = length (_timestamps b1 ++ [now2])).
        { rewrite <- H. f_equal. f_equal. destruct (_timestamps b1); reflexivity. }
        rewrite length_app in Hlen. simpl in Hlen. lia.
    + intros _. destruct (_timestamps b1) as [|oldest rest] eqn:E; cbn [fst snd].
      * repeat split; try reflexivity. intros H. now elim H.
      * repeat split; reflexivity.
Qed.

End BucketInspection.

(** ** What the bucket guarantees over a whole history *)

Section BucketGuarantee.

Import JS Bucket BucketQueue BucketHistory.
Local Open Scope Z_scope.

(** The loop of [_prune] cuts off a front part whose entries are all below
    the cutoff. *)
Lemma prune_loop_split (cutoff : Z) (ts : list Z) :
  exists d, ts = d ++ prune_loop cutoff ts /\ Forall (fun x => x < cutoff) d.
Proof.
  induction ts as [|x ts (d & E & Hd)]; simpl.
  - exists []. split; [reflexivity | constructor].
  - destruct (Z.ltb_spec x cutoff) as [Hlt | Hge].
    + exists (x :: d). split; [simpl; now f_equal | now constructor].
    + exists []. split; [reflexivity | constructor].
Qed.

Lemma step_keeps_config (o : Op) (b : RateLimitBucket) :
  limit (step o b) = limit b /\ windowMs (step o b) = windowMs b.
Proof.
  destruct o as [now1 now2 | now | now1 now2 |]; simpl.
  - apply limit_tryAcquire.
  - split; reflexivity.
  - unfold getResetTime_body. destruct (_timestamps (_prune now1 b)); split; reflexivity.
  - split; reflexivity.
Qed.

Lemma spaced_snoc (n : nat) (w now1 now2 : Z) (dropped ts : list Z) :
  spaced n w (dropped ++ ts) ->
  Forall (fun x => x + w < now1) dropped -> now1 <= now2 ->
  (length ts < n)%nat ->
  spaced n w ((dropped ++ ts) ++ [now2]).
Proof.
  intros Hsp Hd Hle Hlen i x y Hx Hy.
  destruct (Nat.lt_ge_cases (i + n) (length (dropped ++ ts))) as [Hin | Hout].
  - rewrite nth_error_app1 in Hy by exact Hin.
    rewrite nth_error_app1 in Hx by lia.
    exact (Hsp i x y Hx Hy).
  - rewrite nth_error_app2 in Hy by exact Hout.
    destruct (i + n - length (dropped ++ ts))%nat as [|k] eqn:Ek.
    + simpl in Hy. inversion Hy; subst y.
      rewrite length_app in Ek, Hout.
      rewrite nth_error_app1 in Hx by (rewrite length_app; lia).
      rewrite nth_error_app1 in Hx by lia.
      apply nth_error_In in Hx.
      rewrite List.Forall_forall in Hd. specialize (Hd x Hx). simpl in Hd. lia.
    + simpl in Hy. destruct k; discriminate Hy.
Qed.

(** The guarantee, from any state whose log is the cut-off entries
    followed by the timestamps still held. *)
Lemma pushed_spaced (ops : list Op) (b : RateLimitBucket) (t : Z) (dropped : list Z) :
  spaced (Z.to_nat (limit b)) (windowMs b) (dropped ++ _timestamps b) ->
  Forall (fun x => x + windowMs b < t) dropped ->
  clock_from t (flat_map readings ops) ->
  forallb (fun o => negb (is_reset o)) ops = true ->
  spaced (Z.to_nat (limit b)) (windowMs b) ((dropped ++ _timestamps b) ++ pushed ops b).
Proof.
  revert b t dropped.
  induction ops as [|o ops IH]; intros b t dropped Hsp Hd Hc Hnr.
  - simpl. now rewrite app_nil_r.
  - simpl in Hnr. apply andb_true_iff in Hnr as [Ho Hnr].
    destruct (step_keeps_config o b) as [EL EW].
    destruct o as [now1 now2 | now | now1 now2 |]; [| | | discriminate Ho].
    + simpl in Hc. destruct Hc as (H1 & H2 & Hc).
      destruct (prune_loop_split (now1 - windowMs b) (_timestamps b)) as (d & Ed & Hdd).
      assert (Hd' : Forall (fun x => x + windowMs b < now1) (dropped ++ d)).
      { apply Forall_app. split.
        - eapply Forall_impl; [exact Hd |]. intros x Hx. simpl in Hx. lia.
        - eapply Forall_impl; [exact Hdd |]. intros x Hx. simpl in Hx. lia. }
      assert (Elog : dropped ++ _timestamps b
                     = (dropped ++ d) ++ prune_loop (now1 - windowMs b) (_timestamps b)).
      { rewrite <- app_assoc. now rewrite <- Ed. }
      cbn [pushed]. unfold records.
      cbn [step] in *. unfold _tryAcquire in *.
      change (_timestamps (_prune now1 b))
        with (prune_loop (now1 - windowMs b) (_timestamps b)) in *.
      change (limit (_prune now1 b)) with (limit b) in *.
      set (ts1 := prune_loop (now1 - windowMs b) (_timestamps b)) in *.
      destruct (Z.ltb_spec (Z.of_nat (length ts1)) (limit b)) as [Hlt | Hge].
      * cbn [snd] in *.
        specialize (IH (with_timestamps (ts1 ++ [now2]) (_prune now1 b)) now2 (dropped ++ d)).
        cbn [_timestamps limit windowMs with_timestamps _prune] in IH.
        rewrite Elog.
        replace (((dropped ++ d) ++ ts1) ++ now2 :: pushed ops
                   (with_timestamps (ts1 ++ [now2]) (_prune now1 b)))
          with (((dropped ++ d) ++ ts1 ++ [now2]) ++ pushed ops
                   (with_timestamps (ts1 ++ [now2]) (_prune now1 b)))
          by (rewrite <- !app_assoc; reflexivity).
        apply IH; try assumption.
        -- rewrite app_assoc. apply spaced_snoc with now1; try assumption.
           ++ now rewrite <- Elog.
           ++ lia.
        -- eapply Forall_impl; [exact Hd' |]. intros x Hx. simpl in Hx. lia.
      * assert (Es : snd (match ts1 with
                          | [] => (NaN, _prune now1 b)
                          | oldest :: _ =>
                              (Int (Z.max 0 (oldest + windowMs (_prune now1 b) - now2)),
                               _prune now1 b)
                          end) = _prune now1 b) by (destruct ts1; reflexivity).
        rewrite Es in *.
        specialize (IH (_prune now1 b) now2 (dropped ++ d)).
        cbn [_timestamps limit windowMs with_timestamps _prune] in IH.
        fold ts1 in IH. rewrite Elog. apply IH; try assumption.
        -- now rewrite <- Elog.
        -- eapply Forall_impl; [exact Hd' |]. intros x Hx. simpl in Hx. lia.
    + simpl in Hc. destruct Hc as (H1 & Hc).
      destruct (prune_loop_split (now - windowMs b) (_timestamps b)) as (d & Ed & Hdd).
      cbn [pushed step getRemaining_body snd].
      specialize (IH (_prune now b) now (dropped ++ d)).
      cbn [_timestamps limit windowMs with_timestamps _prune] in IH.
      assert (Elog : dropped ++ _timestamps b
                     = (dropped ++ d) ++ prune_loop (now - windowMs b) (_timestamps b)).
      { rewrite <- app_assoc. now rewrite <- Ed. }
      rewrite Elog. apply IH; try assumption.
      * now rewrite <- Elog.
      * apply Forall_app. split.
        -- eapply Forall_impl; [exact Hd |]. intros x Hx. simpl in Hx. lia.
        -- eapply Forall_impl; [exact Hdd |]. intros x Hx. simpl in Hx. lia.
    + simpl in Hc. destruct Hc as (H1 & H2 & Hc).
      destruct (prune_loop_split (now1 - windowMs b) (_timestamps b)) as (d & Ed & Hdd).
      cbn [pushed step].
      assert (Es : snd (getResetTime_body now1 now2 b) = _prune now1 b).
      { unfold getResetTime_body. destruct (_timestamps (_prune now1 b)); reflexivity. }
      rewrite Es.
      specialize (IH (_prune now1 b) now2 (dropped ++ d)).
      cbn [_timestamps limit windowMs with_timestamps _prune] in IH.
      assert (Elog : dropped ++ _timestamps b
                     = (dropped ++ d) ++ prune_loop (now1 - windowMs b) (_timestamps b)).
      { rewrite <- app_assoc. now rewrite <- Ed. }
      rewrite Elog. apply IH; try assumption.
      * now rewrite <- Elog.
      * apply Forall_app. split.
        -- eapply Forall_impl; [exact Hd |]. intros x Hx. simpl in Hx. lia.
        -- eapply Forall_impl; [exact Hdd |]. intros x Hx. simpl in Hx. lia.
Qed.

(** X7.  The sliding window holds over a whole history: under a clock
    that does not go backwards and without [reset], of the timestamps a
    bucket records any two that are [limit] places apart are more than
    [windowMs] apart, so no stretch of [windowMs] milliseconds holds more
    than [limit] recorded requests. *)
Theorem recorded_requests_are_spaced
    (key : string) (L W : Z) (ex : bool) (t : Z) (ops : list Op) :
  clock_from t (flat_map readings ops) ->
  forallb (fun o => negb (is_reset o)) ops = true ->
  spaced (Z.to_nat L) W (pushed ops (RateLimitBucket_new key L W ex)).
Proof.
  intros Hc Hnr.
  apply (pushed_spaced ops (RateLimitBucket_new key L W ex) t []); try assumption.
  - intros i x y Hx. destruct i; discriminate Hx.
  - constructor.
Qed.

Lemma recorded_requests_witness :
  let ops := [OpAcquire 0 0; OpAcquire 5 5; OpAcquire 6 7; OpGetRemaining 900;
              OpAcquire 1000 1000; OpAcquire 1001 1001; OpAcquire 1004 1004;
              OpAcquire 1006 1006] in
  pushed ops sample_bucket = [0; 5; 1001; 1006] /\
  spaced 2 1000 (pushed ops sample_bucket).
Proof.
  cbv zeta. split; [reflexivity |].
  apply (recorded_requests_are_spaced "users::me"%string 2 1000 false 0).
  - simpl. lia.
  - reflexivity.
Defined.

(** With a [reset] in between the guarantee is gone. *)
Example reset_breaks_the_window :
  pushed [OpAcquire 0 0; OpReset; OpAcquire 1 1]
    (RateLimitBucket_new "k"%string 1 1000 false) = [0; 1].
Proof. reflexivity. Qed.

End BucketGuarantee.

(** ** The queue serialises *)

Section QueueSerial.

Import JS Bucket BucketQueue BucketHistory.
Local Open Scope Z_scope.

Lemma combine_nil_r {A B : Type} (l : list A) : combine l (@nil B) = [].
Proof. destruct l; reflexivity. Qed.

(** A schedule from any state whose pending continuations are [acquire]
    bodies: the turns that found something to run are [_tryAcquire] calls
    in a row, answered to the waiting callers in order. *)
Lemma exec_is_sequential (evs : list Event) (q : Queued) :
  Forall (fun pf => snd pf = (fun now1 now2 b => _tryAcquire now1 now2 b))
         (_queuePromise q) ->
  let waiting := map fst (_queuePromise q) ++ callers evs in
  let rs := effective_turns evs (length (_queuePromise q)) in
  obj (fst (exec evs q)) = snd (acquire_all rs (obj q)) /\
  snd (exec evs q) = combine waiting (fst (acquire_all rs (obj q))) /\
  map fst (_queuePromise (fst (exec evs q))) = skipn (length rs) waiting /\
  (length rs <= length waiting)%nat.
Proof.
  revert q. induction evs as [|ev evs IH]; intros q Hq; cbn zeta.
  - simpl. rewrite app_nil_r, combine_nil_r. repeat split. lia.
  - destruct ev as [p | now1 now2].
    + assert (Hq' : Forall (fun pf => snd pf = (fun now1 now2 b => _tryAcquire now1 now2 b))
                      (_queuePromise (acquire p q))).
      { unfold acquire, _enqueue. simpl. apply Forall_app. split; [exact Hq |].
        constructor; [reflexivity | constructor]. }
      specialize (IH (acquire p q) Hq'). cbn zeta in IH.
      unfold acquire, _enqueue in IH. cbn [obj _queuePromise] in IH.
      rewrite length_app, map_app, <- app_assoc in IH. simpl in IH.
      rewrite Nat.add_1_r in IH. simpl. exact IH.
    + cbn [exec callers effective_turns]. unfold turn.
      destruct (_queuePromise q) as [|[p fn] rest] eqn:Eq.
      * specialize (IH q). rewrite Eq in IH. specialize (IH Hq). simpl in IH.
        destruct (exec evs q) as [q2 out2]. simpl in IH |- *. exact IH.
      * inversion Hq as [|x xs Hfn Hrest]; subst x xs. simpl in Hfn. subst fn.
        cbn [length acquire_all map fst].
        destruct (_tryAcquire now1 now2 (obj q)) as [v b1].
        specialize (IH {| obj := b1; _queuePromise := rest |} Hrest). cbn zeta in IH.
        cbn [obj _queuePromise] in IH.
        destruct (exec evs {| obj := b1; _queuePromise := rest |}) as [q2 out2].
        destruct (acquire_all (effective_turns evs (length rest)) b1) as [ws b2].
        cbn [fst snd] in IH |- *. destruct IH as (I1 & I2 & I3 & I4).
        repeat split.
        -- exact I1.
        -- simpl. now rewrite I2.
        -- simpl. exact I3.
        -- simpl. lia.
Qed.

(** X8.  The queue serialises.  However the calls of [acquire] and the
    turns of the event loop are interleaved, under any clock, the bucket
    ends as if the callers whose turn came had run [_tryAcquire] one after
    the other in call order; each of them gets the result of its own run,
    and the others are still queued, in call order. *)
Theorem acquire_calls_are_serialised (b : RateLimitBucket) (evs : list Event) :
  let rs := effective_turns evs 0 in
  let res := exec evs (Queued_new b) in
  obj (fst res) = snd (acquire_all rs b) /\
  snd res = combine (callers evs) (fst (acquire_all rs b)) /\
  map fst (_queuePromise (fst res)) = skipn (length rs) (callers evs) /\
  (length rs <= length (callers evs))%nat.
Proof.
  apply (exec_is_sequential evs (Queued_new b)). constructor.
Qed.

End QueueSerial.

(** ** The table of the manager *)

Section ManagerTableFacts.

Import JS Bucket Manager ManagerTable BucketHistory.
Local Open Scope string_scope.

(** X9.  Buckets are created once and reused: after a call of [getBucket]
    on an enabled manager, every later call that resolves to the same key
    returns the same bucket and leaves the table as it is, whatever limit
    and window its config names. *)
Theorem getBucket_reuses_the_bucket
    (config : RateLimitConfig) (params : BucketParams) (m m' : RateLimitManager)
    (b : RateLimitBucket) :
  _enabled m = true ->
  getBucket config params m = (Some b, m') ->
  forall config' params',
    resolveKey config' params' = resolveKey config params ->
    getBucket config' params' m' = (Some b, m').
Proof.
  intros Hon Hget config' params' Hkey.
  assert (Hm' : _enabled m' = true /\ _buckets m' !! resolveKey config params = Some b).
  { unfold getBucket in Hget. rewrite Hon in Hget. cbn [negb] in Hget.
    destruct (_buckets m !! resolveKey config params) as [b0|] eqn:E.
    - inversion Hget; subst. split; assumption.
    - inversion Hget as [[Hb Hm]]. cbn [_enabled _buckets]. split; [reflexivity |].
      apply lookup_insert_eq. }
  destruct Hm' as [Hon' Hlook].
  unfold getBucket. rewrite Hon'. cbn [negb]. rewrite Hkey, Hlook. reflexivity.
Qed.

Lemma getBucket_reuse_witness :
  let first := getBucket channels_messages_send (set_channelId (Some "123") no_params)
                 (RateLimitManager_new true) in
  let other := {| bucket := "channels::channel_id::messages::send"; cfg_limit := 99;
                  cfg_windowMs := 1; cfg_exemptFromGlobal := None |} in
  option_map limit
    (fst (getBucket other (set_channelId (Some "123") no_params) (snd first)))
  = Some 5%Z.
Proof.
  cbv zeta.
  destruct (getBucket channels_messages_send (set_channelId (Some "123") no_params)
              (RateLimitManager_new true)) as [ob m'] eqn:E.
  destruct ob as [b|]; [| discriminate E].
  cbn [snd].
  rewrite (getBucket_reuses_the_bucket channels_messages_send
             (set_channelId (Some "123") no_params) (RateLimitManager_new true) m' b
             eq_refl E
             {| bucket := "channels::channel_id::messages::send"; cfg_limit := 99;
                cfg_windowMs := 1; cfg_exemptFromGlobal := None |}
             (set_channelId (Some "123") no_params) eq_refl).
  inversion E. reflexivity.
Defined.

(** X10.  [getBucket] on an enabled manager touches one key only: the
    buckets already in the table stay as they are, the other keys stay
    free, and [activeBucketCount] grows by one exactly when the resolved
    key was not in the table. *)
Theorem getBucket_adds_at_most_one_bucket
    (config : RateLimitConfig) (params : BucketParams) (m : RateLimitManager) :
  _enabled m = true ->
  let key := resolveKey config params in
  let m' := snd (getBucket config params m) in
  (forall k b, _buckets m !! k = Some b -> _buckets m' !! k = Some b) /\
  (forall k, k <> key -> _buckets m' !! k = _buckets m !! k) /\
  activeBucketCount m'
  = (activeBucketCount m + match _buckets m !! key with Some _ => 0 | None => 1 end)%nat.
Proof.
  intros Hon key m'. subst m'. unfold getBucket, activeBucketCount.
  rewrite Hon. cbn [negb]. fold key.
  destruct (_buckets m !! key) as [b0|] eqn:E; cbn [snd _buckets].
  - repeat split; auto.
  - split; [| split].
    + intros k b Hk. rewrite lookup_insert_ne; [exact Hk |]. congruence.
    + intros k Hne. now rewrite lookup_insert_ne.
    + rewrite map_size_insert_None by exact E. lia.
Qed.

Lemma getBucket_count_witness :
  let m1 := snd (getBucket channels_messages_send (set_channelId (Some "1") no_params)
                   (RateLimitManager_new true)) in
  let m2 := snd (getBucket channels_messages_send (set_channelId (Some "2") no_params) m1) in
  let m3 := snd (getBucket channels_messages_send (set_channelId (Some "1") no_params) m2) in
  activeBucketCount m1 = 1%nat /\ activeBucketCount m2 = 2%nat /\ activeBucketCount m3 = 2%nat.
Proof.
  cbv zeta.
  pose proof (getBucket_adds_at_most_one_bucket channels_messages_send
                (set_channelId (Some "1") no_params) (RateLimitManager_new true) eq_refl)
    as (_ & _ & H1).
  split; [exact H1 |]. split; vm_compute; reflexivity.
Defined.

Lemma length_append (a b : string) :
  String.length (a ++ b) = (String.length a + String.length b)%nat.
Proof. induction a as [|x a IH]; simpl; [reflexivity | now rewrite IH]. Qed.

Lemma append_cancel_r (a b c : string) : a ++ c = b ++ c -> a = b.
Proof.
  revert b. induction a as [|x a IH]; intros b H.
  - destruct b as [|y b]; [reflexivity |]. exfalso.
    apply (f_equal String.length) in H. simpl in H.
    rewrite length_append in H. lia.
  - destruct b as [|y b].
    + exfalso. apply (f_equal String.length) in H. simpl in H.
      rewrite length_append in H. lia.
    + simpl in H. inversion H; subst. f_equal. now apply IH.
Qed.

Lemma append_cancel_l (a b c : string) : a ++ b = a ++ c -> b = c.
Proof.
  induction a as [|x a IH]; simpl; intros H; [exact H |].
  inversion H. now apply IH.
Qed.

(** One substitution statement keeps different IDs apart. *)
Lemma substitute_injective (ph key id1 id2 : string) :
  includes ph key = true ->
  plain_code (Some id1) -> plain_code (Some id2) ->
  substitute (Some id1) ph key = substitute (Some id2) ph key -> id1 = id2.
Proof.
  intros Hinc [Hne1 Hp1] [Hne2 Hp2]. unfold substitute.
  rewrite (truthy_nonempty id1 Hne1), (truthy_nonempty id2 Hne2), Hinc. cbn [andb].
  unfold replace. unfold includes in Hinc.
  destruct (split_first ph key) as [[pre post]|]; [| discriminate Hinc].
  rewrite !GetSubstitution_plain by (simpl; assumption).
  intros H. apply append_cancel_l in H. simpl in H. inversion H as [H'].
  now apply append_cancel_r in H'.
Qed.

(** X11.  Different IDs get different buckets: when the placeholder of a
    parameter occurs in the template and nothing else is supplied, two
    non-empty IDs without a dollar sign resolve to the same key only if
    they are the same ID.  This holds for each of the six parameters. *)
Theorem different_ids_get_different_keys
    (config : RateLimitConfig) (id1 id2 : string) :
  plain_code (Some id1) -> plain_code (Some id2) ->
  (includes "::channel_id" (bucket config) = true ->
   resolveKey config (set_channelId (Some id1) no_params)
   = resolveKey config (set_channelId (Some id2) no_params) -> id1 = id2) /\
  (includes "::guild_id" (bucket config) = true ->
   resolveKey config (set_guildId (Some id1) no_params)
   = resolveKey config (set_guildId (Some id2) no_params) -> id1 = id2) /\
  (includes "::user_id" (bucket config) = true ->
   resolveKey config (set_userId (Some id1) no_params)
   = resolveKey config (set_userId (Some id2) no_params) -> id1 = id2) /\
  (includes "::target_id" (bucket config) = true ->
   resolveKey config (set_targetId (Some id1) no_params)
   = resolveKey config (set_targetId (Some id2) no_params) -> id1 = id2) /\
  (includes "::webhook_id" (bucket config) = true ->
   resolveKey config (set_webhookId (Some id1) no_params)
   = resolveKey config (set_webhookId (Some id2) no_params) -> id1 = id2) /\
  (includes "::invite_code" (bucket config) = true ->
   resolveKey config (set_inviteCode (Some id1) no_params)
   = resolveKey config (set_inviteCode (Some id2) no_params) -> id1 = id2).
Proof.
  intros H1 H2.
  repeat split; intros Hinc Hkey;
    eapply substitute_injective; try eassumption; exact Hkey.
Qed.

Lemma different_ids_witness :
  resolveKey channels_messages_send (set_channelId (Some "17") no_params)
  <> resolveKey channels_messages_send (set_channelId (Some "170") no_params).
Proof.
  intros H.
  assert (P1 : plain_code (Some "17")) by (split; [discriminate | reflexivity]).
  assert (P2 : plain_code (Some "170")) by (split; [discriminate | reflexivity]).
  pose proof (proj1 (different_ids_get_different_keys channels_messages_send "17" "170" P1 P2)
                eq_refl H) as E.
  discriminate E.
Defined.

End ManagerTableFacts.

(** ** Clearing the table *)

Section ClearAllFacts.

Import JS Bucket Manager ManagerTable.

Lemma other_keeps_keys (a : Other) (s : Iterated) :
  keys_ok s ->
  keys_ok (other a s) /\
  _enabled (manager (other a s)) = _enabled (manager s) /\
  exists added, keys (other a s) = keys s ++ added.
Proof.
  intros [Hnd Hdom]. unfold keys_ok. destruct a as [config params | key o].
  - unfold other, getBucket. cbn [manager keys].
    destruct (_enabled (manager s)) eqn:Hon; cbn [negb].
    + destruct (_buckets (manager s) !! resolveKey config params) as [b|] eqn:E.
      * cbn [snd]. split; [split; assumption |]. split; [exact Hon |].
        exists []. now rewrite app_nil_r.
      * cbn [snd manager keys _buckets _enabled].
        split; [| split; [reflexivity | now eexists]].
        assert (Hfresh : ~ In (resolveKey config params) (keys s)).
        { intros Hin. apply Hdom in Hin. rewrite E in Hin. now destruct Hin. }
        split.
        -- apply NoDup_app. split; [exact Hnd |]. split.
           ++ intros x Hx Hx'. apply list_elem_of_In in Hx, Hx'.
              destruct Hx' as [<- | []]. now apply Hfresh.
           ++ apply NoDup_singleton.
        -- intros k. rewrite in_app_iff, lookup_insert. simpl.
           destruct (decide (resolveKey config params = k)) as [<- | Hne].
           ++ split; [now eexists | intros _; right; now left].
           ++ rewrite <- Hdom. split; [intros [H | [H | []]]; [exact H | contradiction] | now left].
    + destruct (_buckets (manager s) !! resolveKey config params);
        (cbn [snd]; split; [split; assumption |]; split; [exact Hon |];
         exists []; now rewrite app_nil_r).
  - unfold other. cbn [manager keys _buckets _enabled].
    split; [| split; [reflexivity | exists []; now rewrite app_nil_r]].
    split; [exact Hnd |]. intros k. rewrite Hdom, lookup_alter.
    destruct (decide (key = k)) as [-> | Hne]; [| reflexivity].
    rewrite fmap_is_Some. reflexivity.
Qed.

Lemma others_keep_keys (l : list Other) (s : Iterated) :
  keys_ok s ->
  keys_ok (others l s) /\
  _enabled (manager (others l s)) = _enabled (manager s) /\
  exists added, keys (others l s) = keys s ++ added.
Proof.
  revert s. induction l as [|a l IH]; intros s Hok.
  - split; [exact Hok |]. split; [reflexivity |]. exists []. now rewrite app_nil_r.
  - destruct (other_keeps_keys a s Hok) as (Hok1 & Hon1 & l1 & Hk1).
    destruct (IH (other a s) Hok1) as (Hok2 & Hon2 & l2 & Hk2).
    change (others (a :: l) s) with (others l (other a s)).
    split; [exact Hok2 |]. split; [congruence |].
    exists (l1 ++ l2). rewrite Hk2, Hk1. now rewrite app_assoc.
Qed.

(** The bodies of [reset] change neither the keys nor the switch. *)
Lemma resets_keep_keys (l : list string) (s : Iterated) :
  keys (fold_left (fun s k => reset_at k s) l s) = keys s /\
  _enabled (manager (fold_left (fun s k => reset_at k s) l s)) = _enabled (manager s).
Proof.
  revert s. induction l as [|k l IH]; intros s; [split; reflexivity |].
  simpl. destruct (IH (reset_at k s)) as [H1 H2]. rewrite H1, H2. split; reflexivity.
Qed.

Lemma resets_keep_keys_ok (l : list string) (s : Iterated) :
  keys_ok s -> keys_ok (fold_left (fun s k => reset_at k s) l s).
Proof.
  revert s. induction l as [|k l IH]; intros s Hok; [exact Hok |].
  simpl. apply IH. now apply (other_keeps_keys (RunBody k OpReset)).
Qed.

Lemma resets_elsewhere (l : list string) (s : Iterated) (k : string) :
  ~ In k l ->
  _buckets (manager (fold_left (fun s k => reset_at k s) l s)) !! k
  = _buckets (manager s) !! k.
Proof.
  revert s. induction l as [|a l IH]; intros s Hk; [reflexivity |].
  simpl. rewrite IH by (intros H; apply Hk; now right).
  unfold reset_at, other. cbn [manager _buckets].
  apply lookup_alter_ne. intros ->. apply Hk. now left.
Qed.

Lemma resets_there (l : list string) (s : Iterated) (k : string) :
  In k l ->
  _buckets (manager (fold_left (fun s k => reset_at k s) l s)) !! k
  = reset_body <$> _buckets (manager s) !! k.
Proof.
  revert s. induction l as [|a l IH]; intros s Hk; [now elim Hk |].
  simpl. destruct (in_dec String.string_dec k l) as [Hin | Hout].
  - rewrite (IH _ Hin). unfold reset_at, other. cbn [manager _buckets step].
    rewrite lookup_alter. destruct (decide (a = k)) as [-> | Hne]; [| reflexivity].
    now destruct (_buckets (manager s) !! k).
  - destruct Hk as [-> | Hk]; [| contradiction].
    rewrite (resets_elsewhere l _ k Hout). unfold reset_at, other. cbn [manager _buckets step].
    apply lookup_alter_eq.
Qed.

Lemma firstn_next {A : Type} (l added : list A) (i : nat) (x : A) :
  nth_error l i = Some x -> firstn (S i) (l ++ added) = firstn i l ++ [x].
Proof.
  revert i. induction l as [|y l IH]; intros [|i] H; try discriminate H.
  - injection H as ->. reflexivity.
  - simpl in H |- *. f_equal. now apply IH.
Qed.

(** While nobody else runs, the loop is the rest of the resets in one go. *)
Lemma clearAll_loop_idle (sched : list (list Other * list Other)) (i : nat)
    (s : Iterated) (done : list string) :
  Forall idle sched -> clearAll_loop sched i s done = clearAll_loop [] i s done.
Proof.
  revert i s done. induction sched as [|pp sched IH]; intros i s done Hidle; [reflexivity |].
  inversion Hidle as [|x xs Hpp Hrest]; subst x xs. unfold idle in Hpp. subst pp.
  cbn [clearAll_loop others fold_left].
  destruct (nth_error (keys s) i) as [key|] eqn:E.
  - rewrite (IH _ _ _ Hrest). cbn [clearAll_loop].
    assert (Hk : keys (reset_at key s) = keys s) by reflexivity. rewrite Hk.
    assert (Hs : skipn i (keys s) = key :: skipn (S i) (keys s)).
    { clear -E. revert i E. induction (keys s) as [|y l IHl]; intros [|i] E;
        try discriminate E.
      - injection E as ->. reflexivity.
      - simpl in E. cbn [skipn]. now apply IHl. }
    rewrite Hs. cbn [fold_left]. now rewrite <- app_assoc.
  - apply nth_error_None in E. rewrite skipn_all2 by exact E.
    cbn [fold_left]. now rewrite app_nil_r.
Qed.

Lemma clearAll_loop_resets (sched : list (list Other * list Other)) (i : nat)
    (s : Iterated) (done : list string) :
  keys_ok s -> done = firstn i (keys s) -> (i <= length (keys s))%nat ->
  _buckets (cleared (clearAll_loop sched i s done)) = ∅ /\
  _enabled (cleared (clearAll_loop sched i s done)) = _enabled (manager s) /\
  NoDup (resets (clearAll_loop sched i s done)) /\
  (forall k, In k (resets (clearAll_loop sched i s done))
             <-> is_Some (detached (clearAll_loop sched i s done) !! k)) /\
  exists added, resets (clearAll_loop sched i s done) = keys s ++ added.
Proof.
  revert i s done. induction sched as [|[before after] sched IH]; intros i s done Hok Hdone Hi.
  - cbn [clearAll_loop finish cleared resets detached _buckets _enabled].
    destruct (resets_keep_keys (skipn i (keys s)) s) as [Hk Hon].
    pose proof (resets_keep_keys_ok (skipn i (keys s)) s Hok) as [Hnd Hdom].
    rewrite Hk in Hnd, Hdom. subst done. rewrite firstn_skipn.
    split; [reflexivity |]. split; [exact Hon |]. split; [exact Hnd |].
    split; [exact Hdom |]. exists []. now rewrite app_nil_r.
  - cbn [clearAll_loop].
    destruct (nth_error (keys s) i) as [key|] eqn:E.
    + destruct (others_keep_keys before s Hok) as (Hok1 & Hon1 & l1 & Hk1).
      destruct (other_keeps_keys (RunBody key OpReset) _ Hok1) as (Hok2 & Hon2 & l2 & Hk2).
      fold (reset_at key (others before s)) in Hok2, Hon2, Hk2.
      destruct (others_keep_keys after _ Hok2) as (Hok3 & Hon3 & l3 & Hk3).
      set (s3 := others after (reset_at key (others before s))) in *.
      assert (Hkeys : keys s3 = keys s ++ (l1 ++ l2 ++ l3)).
      { rewrite Hk3, Hk2, Hk1. now rewrite <- !app_assoc. }
      assert (Hlt : (i < length (keys s))%nat) by (apply nth_error_Some; congruence).
      destruct (IH (S i) s3 (done ++ [key]) Hok3) as (I1 & I2 & I3 & I4 & added & I5).
      * rewrite Hkeys, Hdone. symmetry. now apply firstn_next.
      * rewrite Hkeys, length_app. lia.
      * split; [exact I1 |]. split; [congruence |]. split; [exact I3 |].
        split; [exact I4 |]. exists ((l1 ++ l2 ++ l3) ++ added).
        rewrite I5, Hkeys. now rewrite <- app_assoc.
    + destruct Hok as [Hnd Hdom]. apply nth_error_None in E.
      assert (Hall : done = keys s) by (subst done; apply firstn_all2; exact E).
      cbn [finish cleared resets detached _buckets _enabled]. rewrite Hall.
      split; [reflexivity |]. split; [reflexivity |]. split; [exact Hnd |].
      split; [exact Hdom |]. exists []. now rewrite app_nil_r.
Qed.

(** X12.  [clearAll] gives up control at every [await], and whatever the
    other tasks do then ([getBucket] calls, bodies of bucket methods) it
    ends with an empty table, enabled or not, after the body of [reset]
    has run exactly once for every bucket that was in the table at any
    time of the run: first the ones of the start, in insertion order, then
    the ones that were created while it ran.  When nothing else runs in
    between, the buckets it detaches are the ones of the start, each
    without a timestamp. *)
Theorem clearAll_resets_every_bucket_once
    (s : Iterated) (sched : list (list Other * list Other)) :
  keys_ok s ->
  let out := clearAll sched s in
  activeBucketCount (cleared out) = 0%nat /\
  _enabled (cleared out) = _enabled (manager s) /\
  NoDup (resets out) /\
  (forall k, In k (resets out) <-> is_Some (detached out !! k)) /\
  (exists added, resets out = keys s ++ added) /\
  (Forall idle sched ->
   resets out = keys s /\
   detached out = reset_body <$> _buckets (manager s) /\
   forall k b, detached out !! k = Some b -> _timestamps b = []).
Proof.
  intros Hok out. subst out. unfold clearAll.
  destruct (clearAll_loop_resets sched 0 s [] Hok eq_refl (Nat.le_0_l _))
    as (H1 & H2 & H3 & H4 & H5).
  unfold activeBucketCount. rewrite H1.
  split; [apply map_size_empty |]. split; [exact H2 |]. split; [exact H3 |].
  split; [exact H4 |]. split; [exact H5 |].
  intros Hidle. rewrite (clearAll_loop_idle sched 0 s [] Hidle).
  cbn [clearAll_loop finish resets detached skipn app].
  assert (Hd : _buckets (manager (fold_left (fun s k => reset_at k s) (keys s) s))
               = reset_body <$> _buckets (manager s)).
  { apply map_eq. intros k. rewrite lookup_fmap.
    destruct (in_dec String.string_dec k (keys s)) as [Hin | Hout].
    - now apply resets_there.
    - rewrite (resets_elsewhere _ _ _ Hout).
      destruct Hok as [_ Hdom].
      destruct (_buckets (manager s) !! k) as [b|] eqn:E; [| reflexivity].
      exfalso. apply Hout, Hdom. rewrite E. now eexists. }
  change (skipn 0 (keys s)) with (keys s).
  rewrite Hd. split; [reflexivity |]. split; [reflexivity |].
  intros k b. rewrite lookup_fmap.
  destruct (_buckets (manager s) !! k); simpl; [| discriminate].
  intros H. inversion H. reflexivity.
Qed.

Lemma clearAll_witness :
  keys_ok sample_table /\
  NoDup (resets (clearAll sample_schedule sample_table)) /\
  (forall k, In k (resets (clearAll sample_schedule sample_table))
             <-> is_Some (detached (clearAll sample_schedule sample_table) !! k)) /\
  activeBucketCount (cleared (clearAll sample_schedule sample_table)) = 0%nat.
Proof.
  assert (Hok : keys_ok sample_table).
  { apply others_keep_keys. split; [constructor |].
    intros k. simpl. rewrite lookup_empty. split; [intros [] | intros [x Hx]; discriminate Hx]. }
  destruct (clearAll_resets_every_bucket_once sample_table sample_schedule Hok)
    as (Hcount & _ & Hnd & Hdom & _).
  split; [exact Hok |]. split; [exact Hnd |]. split; [exact Hdom | exact Hcount].
Defined.

(** The run of the sample: the bucket that was created meanwhile is reset
    too, and the request that came after the reset of its bucket is still
    recorded in the bucket that was detached. *)
Example clearAll_interleaved :
  let out := clearAll sample_schedule sample_table in
  resets out
  = [ "channels::1::messages::send"; "channels::2::messages::send";
      "channels::3::messages::send" ]%string /\
  _timestamps <$> detached out !! "channels::1::messages::send"%string = Some [7%Z] /\
  _timestamps <$> detached out !! "channels::3::messages::send"%string = Some [].
Proof. vm_compute. repeat split. Qed.

End ClearAllFacts.

(** ** The asynchronous methods on a real bucket *)

Section ManagerOnBucket.

Import JS Bucket Manager BucketHistory.
Local Open Scope Z_scope.

(** What one [acquire] can do to a bucket that satisfies the invariant. *)
Lemma tryAcquire_cases (t now1 now2 : Z) (b : RateLimitBucket) :
  wf t b -> t <= now2 ->
  let r := _tryAcquire now1 now2 b in
  wf now2 (snd r) /\ windowMs (snd r) = windowMs b /\
  (length (_timestamps (snd r)) <= S (length (_timestamps b)))%nat /\
  (gt0 (fst r) = false \/
   (exists w, fst r = Int w /\ 0 < w <= Z.max 0 (windowMs b)) /\
   (length (_timestamps (snd r)) <= length (_timestamps b))%nat).
Proof.
  intros Hwf Hle r. subst r.
  split; [now apply wf_tryAcquire with t |].
  split; [apply limit_tryAcquire |].
  pose proof (wf_prune t now1 b Hwf) as (_ & Hb & _).
  pose proof (prune_loop_length (now1 - windowMs b) (_timestamps b)) as Hp.
  unfold _tryAcquire.
  change (_timestamps (_prune now1 b))
    with (prune_loop (now1 - windowMs b) (_timestamps b)) in *.
  change (limit (_prune now1 b)) with (limit b).
  change (windowMs (_prune now1 b)) with (windowMs b).
  remember (prune_loop (now1 - windowMs b) (_timestamps b)) as ts1 eqn:Ets.
  destruct (Z.ltb_spec (Z.of_nat (length ts1)) (limit b)) as [Hlt | Hge].
  - cbn [fst snd _timestamps with_timestamps]. rewrite length_app. simpl.
    split; [lia | left; reflexivity].
  - destruct ts1 as [|oldest rest];
      cbn [fst snd _prune _timestamps with_timestamps]; rewrite <- Ets.
    + split; [simpl; lia | left; reflexivity].
    + split; [lia |].
      inversion Hb; subst.
      destruct (Z.ltb_spec 0 (Z.max 0 (oldest + windowMs b - now2))) as [Hpos | Hz].
      * right. split; [| lia]. eexists. split; [reflexivity | lia].
      * left. simpl. apply Z.ltb_ge. exact Hz.
Qed.

Lemma clock_two_readings (t : Z) (r1 r2 : Z * Z) (rs : list (Z * Z)) :
  clock_from t (all_readings (r1 :: r2 :: rs)) ->
  t <= fst r1 /\ fst r1 <= snd r1 /\ snd r1 <= fst r2 /\ fst r2 <= snd r2.
Proof. simpl. intros (H1 & H2 & H3 & H4 & _). repeat split; assumption. Qed.

(** X13.  On a reachable bucket and under a clock that does not go
    backwards, a call of [waitForRateLimit] sleeps for at most two windows
    in all and records at most one timestamp; when the bucket has a free
    slot it does not sleep at all. *)
Theorem waitForRateLimit_delay_is_bounded
    (t : Z) (b : RateLimitBucket) (Hr : reachable t b)
    (m : RateLimitManager) (r1 r2 : Z * Z) (rs : list (Z * Z)) :
  _enabled m = true ->
  clock_from t (all_readings (r1 :: r2 :: rs)) ->
  let res := run bucket_env (waitForRateLimit m (Some b)) (b, r1 :: r2 :: rs) in
  let b' := fst (snd (fst res)) in
  0 <= slept (snd res) <= 2 * Z.max 0 (windowMs b) /\
  (length (_timestamps b') <= S (length (_timestamps b)))%nat /\
  (records (fst r1) b = true -> snd res = [DidAcquire (Int 0)]).
Proof.
  intros Hon Hc. apply clock_two_readings in Hc as (H1 & H2 & H3 & H4).
  destruct r1 as [a1 a2], r2 as [c1 c2]. cbn [fst snd] in H1, H2, H3, H4.
  pose proof (reachable_wf t b Hr) as Hwf.
  cbv zeta. unfold waitForRateLimit. rewrite Hon. cbn [negb].
  cbn [run bucket_env env_acquire env_sleep next_readings fst snd].
  destruct (tryAcquire_cases t a1 a2 b Hwf ltac:(lia)) as (Hwf1 & Ew1 & Hl1 & Hcase1).
  assert (Hrec : records a1 b = true -> fst (_tryAcquire a1 a2 b) = Int 0).
  { unfold records, _tryAcquire. intros Hrc.
    change (limit (_prune a1 b)) with (limit b). now rewrite Hrc. }
  destruct (_tryAcquire a1 a2 b) as [w1 b1]. cbn [fst snd] in *.
  destruct Hcase1 as [G1 | [(w & -> & Hw) Hl1']].
  - rewrite G1. cbn [run fst snd slept]. split; [lia |]. split; [exact Hl1 |].
    intros Hrc. now rewrite (Hrec Hrc).
  - assert (G1 : gt0 (Int w) = true) by (simpl; apply Z.ltb_lt; lia).
    rewrite G1.
    cbn [run bucket_env env_acquire env_sleep next_readings fst snd].
    destruct (tryAcquire_cases a2 c1 c2 b1 Hwf1 ltac:(lia)) as (_ & _ & Hl2 & Hcase2).
    destruct (_tryAcquire c1 c2 b1) as [w2 b2]. cbn [fst snd] in *.
    destruct Hcase2 as [G2 | [(w' & -> & Hw') Hl2']].
    + rewrite G2. cbn [run fst snd slept]. split; [lia |]. split; [lia |].
      intros Hrc. specialize (Hrec Hrc). inversion Hrec. lia.
    + assert (G2 : gt0 (Int w') = true) by (simpl; apply Z.ltb_lt; lia).
      rewrite G2. cbn [run env_sleep bucket_env fst snd slept].
      rewrite Ew1 in Hw'. split; [lia |]. split; [lia |].
      intros Hrc. specialize (Hrec Hrc). inversion Hrec. lia.
Qed.

Lemma waitForRateLimit_delay_witness :
  let full := step (OpAcquire 100 100) (RateLimitBucket_new "k"%string 1 1000 false) in
  reachable 100 full /\
  slept (snd (run bucket_env (waitForRateLimit (RateLimitManager_new true) (Some full))
                (full, [(600, 600); (1100, 1100)]))) = 500 /\
  0 <= 500 <= 2 * Z.max 0 1000.
Proof.
  cbv zeta.
  assert (Hr : reachable 100
                 (step (OpAcquire 100 100) (RateLimitBucket_new "k"%string 1 1000 false))).
  { apply reach_step with 100; [apply reach_new | simpl; lia]. }
  split; [exact Hr |]. split; [reflexivity |].
  exact (proj1 (waitForRateLimit_delay_is_bounded 100 _ Hr (RateLimitManager_new true)
                  (600, 600) (1100, 1100) [] eq_refl ltac:(simpl; lia))).
Defined.

(** X14.  [getBucketInfo] of an enabled manager only inspects: on a
    reachable bucket it awaits [getRemaining] and [getResetTime], never
    [acquire]; it adds no timestamp; the remaining count lies between 0
    and a limit that is not negative, the reset time between 0 and the
    window. *)
Theorem getBucketInfo_only_inspects
    (t : Z) (b : RateLimitBucket) (Hr : reachable t b)
    (m : RateLimitManager) (r1 r2 : Z * Z) (rs : list (Z * Z)) :
  _enabled m = true ->
  clock_from t (all_readings (r1 :: r2 :: rs)) ->
  let res := run bucket_env (getBucketInfo m (Some b)) (b, r1 :: r2 :: rs) in
  let b' := fst (snd (fst res)) in
  exists r s,
    fst (fst res) = {| remaining := Int r; resetMs := Int s |} /\
    snd res = [DidGetRemaining (Int r); DidGetResetTime (Int s)] /\
    (0 <= limit b -> 0 <= r <= limit b) /\
    0 <= s <= Z.max 0 (windowMs b) /\
    (length (_timestamps b') <= length (_timestamps b))%nat.
Proof.
  intros Hon Hc. apply clock_two_readings in Hc as (H1 & H2 & H3 & H4).
  destruct r1 as [a1 a2], r2 as [c1 c2]. cbn [fst snd] in H1, H2, H3, H4.
  pose proof (reachable_wf t b Hr) as Hwf.
  pose proof (wf_prune t a1 b Hwf) as Hwf1.
  pose proof (wf_prune t c1 _ Hwf1) as (_ & Hb2 & _).
  destruct Hwf1 as (_ & _ & Hlen1).
  pose proof (prune_loop_length (a1 - windowMs b) (_timestamps b)) as Hp1.
  pose proof (prune_loop_length (c1 - windowMs b)
                (prune_loop (a1 - windowMs b) (_timestamps b))) as Hp2.
  cbv zeta. unfold getBucketInfo. rewrite Hon. cbn [negb].
  cbn [run bucket_env env_getRemaining env_getResetTime next_readings fst snd
       getRemaining_body].
  unfold getResetTime_body.
  change (_timestamps (_prune c1 (_prune a1 b)))
    with (prune_loop (c1 - windowMs b) (prune_loop (a1 - windowMs b) (_timestamps b))) in *.
  change (_timestamps (_prune a1 b)) with (prune_loop (a1 - windowMs b) (_timestamps b)) in *.
  change (limit (_prune a1 b)) with (limit b) in *.
  destruct (prune_loop (c1 - windowMs b) (prune_loop (a1 - windowMs b) (_timestamps b)))
    as [|oldest rest] eqn:E; cbn [run fst snd _timestamps _prune with_timestamps windowMs].
  - eexists. exists 0. split; [reflexivity |]. split; [reflexivity |].
    rewrite E. simpl. repeat split; lia.
  - eexists. eexists. split; [reflexivity |]. split; [reflexivity |].
    rewrite E. inversion Hb2; subst. simpl in Hp2 |- *. repeat split; lia.
Qed.

Lemma getBucketInfo_witness :
  let one := step (OpAcquire 100 100) sample_bucket in
  reachable 100 one /\
  fst (fst (run bucket_env (getBucketInfo (RateLimitManager_new true) (Some one))
              (one, [(600, 600); (700, 700)])))
  = {| remaining := Int 1; resetMs := Int 400 |}.
Proof.
  cbv zeta.
  assert (Hr : reachable 100 (step (OpAcquire 100 100) sample_bucket)).
  { apply reach_step with 100; [apply reach_new | simpl; lia]. }
  split; [exact Hr |].
  destruct (getBucketInfo_only_inspects 100 _ Hr (RateLimitManager_new true)
              (600, 600) (700, 700) [] eq_refl ltac:(simpl; lia)) as (r & s & E & _).
  reflexivity.
Defined.

End ManagerOnBucket.

(** ** More about the embed builder *)

Section EmbedMoreFacts.

Import Exn Embed EmbedChecks.
Local Open Scope Z_scope.

Lemma addField_ok_inv (n v : string) (i : option bool) (b b' : EmbedBuilder) :
  addField n v i b = Ok b' ->
  Z.of_nat (length (_fields b)) < MaxFieldCount /\
  len n <= MaxFieldNameLength /\ len v <= MaxFieldValueLength /\
  b' = with_fields
         (_fields b ++ [{| field_name := n; field_value := v; field_inline := i |}]) b.
Proof.
  unfold addField, EmbedFieldBuilder_new.
  destruct (Z.leb_spec MaxFieldCount (Z.of_nat (length (_fields b)))); [discriminate |].
  destruct (Z.ltb_spec MaxFieldNameLength (len n)); [discriminate |].
  destruct (Z.ltb_spec MaxFieldValueLength (len v)); [discriminate |].
  simpl. intros E. inversion E. repeat split; assumption.
Qed.

Lemma addField_throw_inv (n v : string) (i : option bool) (b : EmbedBuilder) (e : error) :
  addField n v i b = Throw e ->
  MaxFieldCount <= Z.of_nat (length (_fields b)) \/
  MaxFieldNameLength < len n \/ MaxFieldValueLength < len v.
Proof.
  unfold addField, EmbedFieldBuilder_new.
  destruct (Z.leb_spec MaxFieldCount (Z.of_nat (length (_fields b)))); [now left |].
  destruct (Z.ltb_spec MaxFieldNameLength (len n)); [right; now left |].
  destruct (Z.ltb_spec MaxFieldValueLength (len v)); [right; now right |].
  simpl. discriminate.
Qed.

(** Every builder a program can hold has its parts within the limits. *)
Lemma built_within_limits (b : EmbedBuilder) : built b -> builder_within_limits b.
Proof.
  unfold builder_within_limits.
  induction 1 as [ | t b b' _ IH E | d b b' _ IH E | | | | t i b b' _ IH E | |
                   | n u i b b' _ IH E | n v i b b' _ IH E ];
    try exact IHbuilt.
  - unfold MaxTitleLength, MaxDescriptionLength, MaxFooterTextLength,
      MaxAuthorNameLength, MaxFieldCount. simpl. repeat split; try lia. constructor.
  - destruct t as [t|]; simpl in E; [| discriminate].
    destruct (Z.ltb_spec MaxTitleLength (len t)); inversion E; subst. simpl.
    destruct IH as (_ & I2 & I3 & I4 & I5 & I6). repeat split; assumption.
  - destruct d as [d|]; simpl in E; [| discriminate].
    destruct (Z.ltb_spec MaxDescriptionLength (len d)); inversion E; subst. simpl.
    destruct IH as (I1 & _ & I3 & I4 & I5 & I6). repeat split; assumption.
  - unfold setFooter, EmbedFooterBuilder_new in E.
    destruct (Z.ltb_spec MaxFooterTextLength (len t)); simpl in E; inversion E; subst.
    destruct IH as (I1 & I2 & _ & I4 & I5 & I6). simpl.
    repeat split; try assumption.
    destruct i as [u|]; simpl; [destruct (negb _) |]; simpl; assumption.
  - unfold setAuthor, EmbedAuthorBuilder_new in E.
    destruct (Z.ltb_spec MaxAuthorNameLength (len n)); simpl in E; inversion E; subst.
    destruct IH as (I1 & I2 & I3 & _ & I5 & I6). simpl.
    repeat split; try assumption.
    destruct u as [u|], i as [i|]; simpl;
      repeat match goal with |- context [negb ?x] => destruct (negb x) end;
      simpl; assumption.
  - apply addField_ok_inv in E as (Hc & Hn & Hv & ->).
    destruct IH as (I1 & I2 & I3 & I4 & I5 & I6). simpl.
    repeat split; try assumption.
    + rewrite length_app. simpl. lia.
    + apply Forall_app. split; [exact I6 |].
      constructor; [split; assumption | constructor].
Qed.

(** X15.  Whatever [build] returns is within every limit: for a builder a
    program can hold, the embed has a title of at most 256, a description
    of at most 4096, a footer text of at most 2048, an author name of at
    most 256, at most 25 fields (and no empty field list), every field
    name at most 256 and value at most 1024, and at most 6000 code units
    of text in all. *)
Theorem build_returns_embed_within_limits (b : EmbedBuilder) (e : Embed) :
  built b -> build b = Ok e -> embed_within_limits e.
Proof.
  intros Hb Hbuild. apply built_within_limits in Hb as (I1 & I2 & I3 & I4 & I5 & I6).
  unfold build in Hbuild. rewrite totalLength_text_size in Hbuild.
  destruct (Z.ltb_spec MaxEmbedLength (text_size b)) as [| Htot]; [discriminate |].
  inversion Hbuild; subst e. clear Hbuild.
  unfold embed_within_limits, embed_text. simpl.
  repeat split; try assumption.
  - destruct (_fields b) as [|f fs] eqn:E; simpl; [exact I |].
    repeat split; try assumption. discriminate.
  - unfold text_size in Htot.
    destruct (_fields b) as [|f fs] eqn:E; simpl in *; lia.
Qed.

Lemma build_within_limits_witness :
  built sample_builder /\
  exists e, build sample_builder = Ok e /\ embed_within_limits e.
Proof.
  assert (Hb : built sample_builder).
  { apply (built_addField "Ping" "42 ms" (Some true)
             (with_title (Some "Status"%string) EmbedBuilder_new)); [| reflexivity].
    apply (built_setTitle (Some "Status"%string) EmbedBuilder_new); [| reflexivity].
    exact built_new. }
  split; [exact Hb |]. eexists. split; [reflexivity |].
  exact (build_returns_embed_within_limits sample_builder _ Hb eq_refl).
Defined.

Lemma with_fields_same (b : EmbedBuilder) : with_fields (_fields b) b = b.
Proof. destruct b; reflexivity. Qed.

Lemma addFields_run_spec (fs : list EmbedField) (b : EmbedBuilder) :
  Z.of_nat (length (_fields b)) <= MaxFieldCount ->
  exists k,
    (k <= length fs)%nat /\
    fst (addFields_run fs b) = with_fields (_fields b ++ firstn k fs) b /\
    Forall field_ok (firstn k fs) /\
    Z.of_nat (length (_fields b) + k) <= MaxFieldCount /\
    (snd (addFields_run fs b) = None <-> k = length fs) /\
    (forall f, nth_error fs k = Some f ->
       Z.of_nat (length (_fields b) + k) = MaxFieldCount \/ ~ field_ok f).
Proof.
  revert b. induction fs as [|f fs IH]; intros b Hcount.
  - exists 0%nat. simpl. rewrite app_nil_r, with_fields_same, Nat.add_0_r.
    split; [lia |]. split; [reflexivity |]. split; [constructor |].
    split; [exact Hcount |]. split; [split; reflexivity |].
    intros f0 Hf. discriminate Hf.
  - simpl.
    destruct (addField (field_name f) (field_value f) (field_inline f) b) as [b'|e] eqn:E.
    + apply addField_ok_inv in E as (Hc & Hn & Hv & ->).
      assert (Ef : {| field_name := field_name f; field_value := field_value f;
                      field_inline := field_inline f |} = f) by (destruct f; reflexivity).
      rewrite Ef.
      destruct (IH (with_fields (_fields b ++ [f]) b)) as (k & Hk & Efst & Hok & Hcnt & Hnone & Hnext).
      { simpl. rewrite length_app. simpl. lia. }
      simpl in Efst, Hcnt, Hnext. rewrite length_app in Hcnt, Hnext. simpl in Hcnt, Hnext.
      exists (S k). simpl. rewrite Efst. rewrite <- app_assoc. simpl.
      split; [lia |]. split; [reflexivity |].
      split; [constructor; [split; assumption | exact Hok] |].
      split; [lia |].
      split; [split; [intros H; f_equal; now apply Hnone | intros H; apply Hnone; lia] |].
      intros f' Hf'. destruct (Hnext f' Hf') as [H | H]; [left; lia | now right].
    + exists 0%nat. simpl. rewrite app_nil_r, with_fields_same, Nat.add_0_r.
      split; [lia |]. split; [reflexivity |]. split; [constructor |].
      split; [exact Hcount |]. split; [split; discriminate |].
      intros f' Hf'. inversion Hf'; subst f'.
      apply addField_throw_inv in E as [H | [H | H]].
      * left. lia.
      * right. intros [H1 _]. lia.
      * right. intros [_ H2]. lia.
Qed.

(** X16.  [addFields] is not all or nothing.  On a builder a program can
    hold it adds the fields in order up to the first one that does not
    fit (the 26th field, or a name over 256 or value over 1024) and
    throws there, leaving the earlier ones in the builder; it returns
    normally exactly when all the fields are within the limits and the
    count stays at most 25, and then the builder holds all of them. *)
Theorem addFields_adds_until_first_failure (fs : list EmbedField) (b : EmbedBuilder) :
  built b ->
  (snd (addFields_run fs b) = None <->
   Z.of_nat (length (_fields b) + length fs) <= MaxFieldCount /\ Forall field_ok fs) /\
  (snd (addFields_run fs b) = None ->
   addFields fs b = Ok (with_fields (_fields b ++ fs) b)) /\
  exists k,
    (k <= length fs)%nat /\
    fst (addFields_run fs b) = with_fields (_fields b ++ firstn k fs) b /\
    (snd (addFields_run fs b) = None <-> k = length fs) /\
    (forall f, nth_error fs k = Some f ->
       Z.of_nat (length (_fields b) + k) = MaxFieldCount \/ ~ field_ok f).
Proof.
  intros Hb. apply built_within_limits in Hb as (_ & _ & _ & _ & Hcount & _).
  destruct (addFields_run_spec fs b Hcount) as (k & Hk & Efst & Hok & Hcnt & Hnone & Hnext).
  assert (Hrel : forall fs b, addFields fs b
                 = match addFields_run fs b with
                   | (b', None) => Ok b'
                   | (_, Some e) => Throw e
                   end).
  { clear. induction fs as [|f fs IH]; intros b; simpl; [reflexivity |].
    destruct (addField (field_name f) (field_value f) (field_inline f) b); simpl;
      [apply IH | reflexivity]. }
  split; [| split].
  - split.
    + intros H. apply Hnone in H. subst k. rewrite firstn_all in Hok. split; assumption.
    + intros [Hc Hall]. apply Hnone.
      destruct (Nat.eq_dec k (length fs)) as [| Hne]; [assumption | exfalso].
      assert (Hlt : (k < length fs)%nat) by lia.
      destruct (nth_error fs k) as [f|] eqn:Ef.
      * destruct (Hnext f eq_refl) as [H | H].
        -- lia.
        -- apply H. rewrite List.Forall_forall in Hall. apply Hall.
           eapply nth_error_In. exact Ef.
      * apply nth_error_None in Ef. lia.
  - intros H. rewrite Hrel. destruct (addFields_run fs b) as [b' oe]. simpl in *.
    subst oe. apply proj1 in Hnone. specialize (Hnone eq_refl). subst k.
    rewrite firstn_all in Efst. now rewrite Efst.
  - exists k. repeat split; try assumption; apply Hnone.
Qed.

Lemma addFields_witness :
  let good := {| field_name := "a"; field_value := "1"; field_inline := None |} in
  built EmbedBuilder_new /\
  addFields [good; good] EmbedBuilder_new
  = Ok (with_fields [good; good] EmbedBuilder_new).
Proof.
  cbv zeta. split; [exact built_new |].
  destruct (addFields_adds_until_first_failure
              [ {| field_name := "a"; field_value := "1"; field_inline := None |};
                {| field_name := "a"; field_value := "1"; field_inline := None |} ]
              EmbedBuilder_new built_new) as (Hiff & Hall & _).
  apply Hall. apply Hiff. split.
  - vm_compute. discriminate.
  - repeat constructor; vm_compute; discriminate.
Defined.

(** A value of 1040 code units in the second of three fields: the first
    field stays in the builder, the third is never looked at. *)
Example addFields_keeps_earlier_fields :
  let good := {| field_name := "a"; field_value := "1"; field_inline := None |} in
  let bad := {| field_name := "b";
                field_value := String.concat EmptyString (repeat "0123456789abcdef"%string 65);
                field_inline := None |} in
  _fields (fst (addFields_run [good; bad; good] EmbedBuilder_new)) = [good] /\
  snd (addFields_run [good; bad; good] EmbedBuilder_new)
  = Some (RangeError FieldValueExceeds).
Proof. split; vm_compute; reflexivity. Qed.

End EmbedMoreFacts.

(** ** Validating tokens *)

Section TokenCheckFacts.

Import JS JSText Token TokenCheck.
Local Open Scope string_scope.

Lemma trimEnd_keeps_nonspace (c : ascii) (r : string) :
  is_space c = false -> trimEnd (String c r) <> EmptyString.
Proof.
  intros Hc. simpl. destruct (trimEnd r); [rewrite Hc |]; discriminate.
Qed.

Lemma trim_nonspace_start (c : ascii) (r : string) :
  is_space c = false -> String.length (trim (String c r)) <> 0%nat.
Proof.
  intros Hc. unfold trim. simpl. rewrite Hc.
  pose proof (trimEnd_keeps_nonspace c r Hc) as H.
  destruct (trimEnd (String c r)); [now elim H | simpl; lia].
Qed.

Lemma take_short (n : nat) (s : string) : (String.length s <= n)%nat -> take n s = s.
Proof.
  revert s. induction n as [|n IH]; intros [|c r] H; simpl in *; try reflexivity; try lia.
  f_equal. apply IH. lia.
Qed.

Lemma take_length (n : nat) (s : string) : (String.length (take n s) <= n)%nat.
Proof.
  revert s. induction n as [|n IH]; intros [|c r]; simpl; try lia.
  specialize (IH r). lia.
Qed.

Lemma take_prefix (n : nat) (s : string) : startsWith (take n s) s = true.
Proof.
  revert s. induction n as [|n IH]; intros [|c r]; simpl; try reflexivity.
  now rewrite Ascii.eqb_refl, IH.
Qed.

(** X17.  [validateToken] returns normally exactly for the tokens that
    begin with ["Bot "] or ["flx_"], whatever follows (nothing may follow);
    it throws "must not be null or empty" exactly for the tokens that
    trim to nothing, and otherwise "invalid token format" quoting the
    first 8 code units of the token.  An accepted token is ["Bot "]
    followed by its gateway token, or is its own gateway token. *)
Theorem validateToken_accepts_prefixed_tokens (token : string) :
  (validateToken token = None <->
   (exists rest, token = "Bot " ++ rest) \/ (exists rest, token = "flx_" ++ rest)) /\
  (validateToken token = Some MustNotBeNullOrEmpty <-> trim token = EmptyString) /\
  (forall preview,
      validateToken token = Some (InvalidTokenFormat preview) ->
      preview = take 8 token /\ (String.length preview <= 8)%nat /\
      startsWith preview token = true) /\
  (validateToken token = None ->
   token = "Bot " ++ getGatewayToken token \/ getGatewayToken token = token).
Proof.
  assert (Hempty : negb (truthy (Some token)) || (String.length (trim token) =? 0)%nat = true
                   <-> trim token = EmptyString).
  { split.
    - intros H. apply orb_true_iff in H as [H | H].
      + destruct token; [reflexivity | discriminate H].
      + apply Nat.eqb_eq in H. destruct (trim token); [reflexivity | discriminate H].
    - intros H. rewrite H. simpl. apply orb_true_r. }
  assert (Hacc : validateToken token = None <->
                 (exists rest, token = "Bot " ++ rest) \/ (exists rest, token = "flx_" ++ rest)).
  { unfold validateToken. split.
    - destruct (negb (truthy (Some token)) || (String.length (trim token) =? 0)%nat);
        [discriminate |].
      destruct (startsWith "Bot " token) eqn:HB.
      + intros _. left. eexists. apply startsWith_slice. exact HB.
      + destruct (startsWith "flx_" token) eqn:HF; [| discriminate].
        intros _. right. eexists. apply startsWith_slice. exact HF.
    - intros [[rest ->] | [rest ->]].
      + destruct (negb (truthy (Some ("Bot " ++ rest)))
                  || (String.length (trim ("Bot " ++ rest)) =? 0)%nat) eqn:E.
        * exfalso. apply orb_true_iff in E as [E | E]; [discriminate E |].
          apply Nat.eqb_eq in E. revert E. now apply trim_nonspace_start.
        * reflexivity.
      + destruct (negb (truthy (Some ("flx_" ++ rest)))
                  || (String.length (trim ("flx_" ++ rest)) =? 0)%nat) eqn:E.
        * exfalso. apply orb_true_iff in E as [E | E]; [discriminate E |].
          apply Nat.eqb_eq in E. revert E. now apply trim_nonspace_start.
        * reflexivity. }
  split; [exact Hacc |]. split; [| split].
  - unfold validateToken.
    destruct (negb (truthy (Some token)) || (String.length (trim token) =? 0)%nat) eqn:E.
    + split; [intros _; now apply Hempty | reflexivity].
    + split.
      * destruct (negb (startsWith "Bot " token) && negb (startsWith "flx_" token));
          discriminate.
      * intros H. apply Hempty in H. discriminate H.
  - intros preview. unfold validateToken.
    destruct (negb (truthy (Some token)) || (String.length (trim token) =? 0)%nat);
      [discriminate |].
    destruct (negb (startsWith "Bot " token) && negb (startsWith "flx_" token));
      [| discriminate].
    intros H.
    assert (Hp : preview
                 = if (8 <? String.length token)%nat then take 8 token else token)
      by congruence.
    clear H.
    assert (Ep : (if (8 <? String.length token)%nat then take 8 token else token)
                 = take 8 token).
    { destruct (Nat.ltb_spec 8 (String.length token)); [reflexivity |].
      symmetry. now apply take_short. }
    rewrite Hp, Ep. split; [reflexivity |]. split; [apply take_length | apply take_prefix].
  - intros H. apply Hacc in H as [[rest ->] | [rest ->]]; [left | right]; reflexivity.
Qed.

Lemma validateToken_witness :
  validateToken "Bot " = None /\
  getGatewayToken "Bot " = EmptyString /\
  validateToken "bot abcdefghijk" = Some (InvalidTokenFormat "bot abcd").
Proof.
  split; [| split; reflexivity].
  apply (proj1 (validateToken_accepts_prefixed_tokens "Bot ")).
  left. exists EmptyString. reflexivity.
Defined.

End TokenCheckFacts.

(** ** The route table *)

Section RouteFacts.

Import JS Bucket Manager Routes.
Local Open Scope string_scope.

Lemma table_checked : table_checks = true.
Proof. vm_compute. reflexivity. Qed.

Lemma rule_checked (e : string * RateLimitConfig) :
  In e RateLimitMappings -> rule_ok e = true.
Proof.
  intros Hin. pose proof table_checked as H. unfold table_checks in H.
  apply andb_true_iff in H as [H _]. rewrite forallb_forall in H. now apply H.
Qed.

Lemma pair_checked (e1 e2 : string * RateLimitConfig) :
  In e1 RateLimitMappings -> In e2 RateLimitMappings -> pair_ok e1 e2 = true.
Proof.
  intros H1 H2. pose proof table_checked as H. unfold table_checks in H.
  apply andb_true_iff in H as [_ H]. rewrite forallb_forall in H.
  specialize (H e1 H1). rewrite forallb_forall in H. now apply H.
Qed.

Lemma strip_digits_append (a b : string) :
  strip_digits (a ++ b) = strip_digits a ++ strip_digits b.
Proof.
  induction a as [|c a IH]; simpl; [reflexivity |].
  destruct (is_digit c); simpl; now rewrite IH.
Qed.

Lemma strip_digits_digit_free (s : string) : digit_free s = true -> strip_digits s = s.
Proof.
  unfold digit_free. induction s as [|c s IH]; simpl; [reflexivity |].
  intros H. apply andb_true_iff in H as [Hc Hs]. apply negb_true_iff in Hc.
  rewrite Hc. f_equal. now apply IH.
Qed.

Lemma strip_digits_decimal (s : string) :
  all_chars is_digit s = true -> strip_digits s = EmptyString.
Proof.
  induction s as [|c s IH]; simpl; [reflexivity |].
  intros H. apply andb_true_iff in H as [Hc Hs]. rewrite Hc. now apply IH.
Qed.

Lemma digit_free_append (a b : string) :
  digit_free (a ++ b) = digit_free a && digit_free b.
Proof. apply all_chars_append. Qed.

(** A template without digits, with a decimal ID put into it: the ID can
    be seen, and taking the digits out gives the template with the ID
    left out. *)
Lemma put_decimal (ph id template : string) :
  includes ph template = true -> digit_free template = true ->
  id <> EmptyString -> all_chars is_digit id = true ->
  digit_free (put ph id template) = false /\
  strip_digits (put ph id template) = put ph EmptyString template.
Proof.
  intros Hinc Hfree Hne Hdec. unfold includes in Hinc. unfold put.
  destruct (split_first ph template) as [[pre post]|] eqn:E; [| discriminate Hinc].
  apply split_first_sound in E. rewrite E in Hfree.
  rewrite !digit_free_append in Hfree.
  apply andb_true_iff in Hfree as [Hpre Hfree]. apply andb_true_iff in Hfree as [_ Hpost].
  split.
  - rewrite digit_free_append. change ("::" ++ id ++ post) with (("::" ++ id) ++ post).
    rewrite digit_free_append. simpl.
    destruct id as [|d id]; [now elim Hne |]. simpl in Hdec.
    apply andb_true_iff in Hdec as [Hd _].
    unfold digit_free at 2. cbn [all_chars]. rewrite Hd. simpl.
    now rewrite andb_false_r.
  - rewrite strip_digits_append. simpl. rewrite strip_digits_append.
    rewrite (strip_digits_digit_free pre Hpre), (strip_digits_digit_free post Hpost),
      (strip_digits_decimal id Hdec). reflexivity.
Qed.

Lemma spec_substitute_absent (template key ph : string) (param : option string) :
  includes ph template = false -> spec_substitute template key (ph, param) = key.
Proof. intros H. unfold spec_substitute. simpl. rewrite H. now destruct param. Qed.

Lemma decimal_params_plain (p : BucketParams) : decimal_params p -> plain_ids p.
Proof.
  intros (H1 & H2 & H3 & H4 & H5 & H6). unfold plain_ids.
  repeat split; try assumption. now apply decimal_is_plain.
Qed.

(** The key of a template with at most one placeholder and no digits, for
    decimal parameters: the template itself, or the template with one
    decimal ID in it. *)
Lemma key_shape (config : RateLimitConfig) (p : BucketParams) :
  decimal_params p ->
  (occurring (bucket config) <= 1)%nat -> digit_free (bucket config) = true ->
  resolveKey config p = bucket config \/
  ((0 < occurring (bucket config))%nat /\
   digit_free (resolveKey config p) = false /\
   strip_digits (resolveKey config p) = erased (bucket config)).
Proof.
  intros Hdec Hocc Hfree.
  rewrite (resolveKey_plain_ids config p (decimal_params_plain p Hdec)).
  destruct Hdec as (D1 & D2 & D3 & D4 & D5 & D6).
  unfold spec_resolveKey, placeholders. cbn [fold_left].
  unfold occurring, erased, placeholder_names in *. cbn [List.filter List.find] in *.
  set (T := bucket config) in *.
  destruct (includes "::channel_id" T) eqn:E1;
    destruct (includes "::guild_id" T) eqn:E2;
    destruct (includes "::user_id" T) eqn:E3;
    destruct (includes "::target_id" T) eqn:E4;
    destruct (includes "::webhook_id" T) eqn:E5;
    destruct (includes "::invite_code" T) eqn:E6;
    simpl in Hocc; try lia;
    rewrite ?(spec_substitute_absent T _ _ _ E1), ?(spec_substitute_absent T _ _ _ E2),
      ?(spec_substitute_absent T _ _ _ E3), ?(spec_substitute_absent T _ _ _ E4),
      ?(spec_substitute_absent T _ _ _ E5), ?(spec_substitute_absent T _ _ _ E6);
    try (left; reflexivity);
    match goal with
    | |- context [spec_substitute T T (_, ?param)] =>
        remember param as q eqn:Hq; destruct q as [id|]; [| left; reflexivity]
    end;
    unfold spec_substitute; cbn [fst snd];
    rewrite ?E1, ?E2, ?E3, ?E4, ?E5, ?E6; cbn iota;
    right; (split; [simpl; lia |]);
    match goal with
    | D : decimal_id (Some _) |- _ => destruct D as [Hne Hd]
    end;
    apply put_decimal; assumption.
Qed.

(** X18.  The rules of the table are usable as they are: every rule has a
    limit from 1 to 50 and a window from 1000 to 60000 ms, and on a new
    enabled manager the first request on any route, with any parameters,
    is admitted at once and recorded. *)
Theorem first_request_on_a_route_is_admitted
    (route : string) (config : RateLimitConfig) (params : BucketParams)
    (now1 now2 : Z) :
  In (route, config) RateLimitMappings ->
  (1 <= cfg_limit config <= 50)%Z /\ (1000 <= cfg_windowMs config <= 60000)%Z /\
  exists b m',
    getBucket config params (RateLimitManager_new true) = (Some b, m') /\
    bucketKey b = resolveKey config params /\
    _tryAcquire now1 now2 b = (Int 0, with_timestamps [now2] b).
Proof.
  intros Hin. pose proof (rule_checked _ Hin) as H. unfold rule_ok in H. cbn [snd] in H.
  repeat (apply andb_true_iff in H as [H ?]).
  assert (HL : (1 <= cfg_limit config <= 50)%Z) by lia.
  split; [exact HL |]. split; [lia |].
  unfold getBucket, RateLimitManager_new. cbn [_enabled _buckets negb].
  rewrite lookup_empty. eexists. eexists. split; [reflexivity |].
  split; [reflexivity |].
  unfold _tryAcquire, _prune, RateLimitBucket_new.
  cbn [_timestamps limit windowMs with_timestamps prune_loop length].
  destruct (Z.ltb_spec (Z.of_nat 0) (cfg_limit config)); [reflexivity | lia].
Qed.

Lemma first_request_witness :
  In ("channels.messages.send", channels_messages_send) RateLimitMappings /\
  exists b m',
    getBucket channels_messages_send (set_channelId (Some "123") no_params)
      (RateLimitManager_new true) = (Some b, m') /\
    bucketKey b = "channels::123::messages::send" /\
    _tryAcquire 7 8 b = (Int 0, with_timestamps [8%Z] b).
Proof.
  assert (Hin : In ("channels.messages.send", channels_messages_send) RateLimitMappings).
  { unfold RateLimitMappings. do 13 right. left. reflexivity. }
  split; [exact Hin |].
  exact (proj2 (proj2 (first_request_on_a_route_is_admitted "channels.messages.send"
                         channels_messages_send (set_channelId (Some "123") no_params)
                         7 8 Hin))).
Defined.

(** X19.  No two routes of the table share a bucket: when every supplied
    ID and invite code is a non-empty string of decimal digits, the keys
    of two rules of the table are equal only if the rules are the same
    route (with the same template), whatever the two sets of parameters. *)
Theorem routes_have_their_own_buckets
    (r1 r2 : string) (c1 c2 : RateLimitConfig) (p1 p2 : BucketParams) :
  In (r1, c1) RateLimitMappings -> In (r2, c2) RateLimitMappings ->
  decimal_params p1 -> decimal_params p2 ->
  resolveKey c1 p1 = resolveKey c2 p2 ->
  r1 = r2 /\ bucket c1 = bucket c2.
Proof.
  intros Hin1 Hin2 Hd1 Hd2 Hkey.
  pose proof (rule_checked _ Hin1) as R1. pose proof (rule_checked _ Hin2) as R2.
  pose proof (pair_checked _ _ Hin1 Hin2) as P.
  unfold rule_ok in R1, R2. cbn [snd] in R1, R2.
  repeat (apply andb_true_iff in R1 as [R1 ?]).
  repeat (apply andb_true_iff in R2 as [R2 ?]).
  unfold pair_ok in P. cbn [fst snd] in P. apply andb_true_iff in P as [Pname Pshape].
  assert (Hsame : bucket c1 = bucket c2 -> r1 = r2 /\ bucket c1 = bucket c2).
  { intros E. split; [| exact E]. apply String.eqb_eq in E. rewrite E in Pname.
    simpl in Pname. now apply String.eqb_eq. }
  apply Hsame.
  destruct (key_shape c1 p1 Hd1) as [K1 | (O1 & F1 & S1)];
    [now apply Nat.leb_le | assumption | |];
    (destruct (key_shape c2 p2 Hd2) as [K2 | (O2 & F2 & S2)];
     [now apply Nat.leb_le | assumption | |]).
  - congruence.
  - exfalso. rewrite <- Hkey, K1 in F2. congruence.
  - exfalso. rewrite Hkey, K2 in F1. congruence.
  - apply Nat.ltb_lt in O1, O2. rewrite O1, O2 in Pshape.
    rewrite Hkey, S2 in S1. apply String.eqb_eq in S1. rewrite String.eqb_sym in S1.
    rewrite S1 in Pshape. simpl in Pshape. now apply String.eqb_eq.
Qed.

Lemma routes_own_buckets_witness :
  resolveKey (cfg "channels::channel_id::messages" 10 10000)
    (set_channelId (Some "123") no_params)
  <> resolveKey (cfg "channels::channel_id::messages::get" 10 10000)
       (set_channelId (Some "123") no_params).
Proof.
  intros H.
  assert (D : decimal_params (set_channelId (Some "123") no_params)).
  { unfold decimal_params. cbn. repeat split; discriminate. }
  assert (H1 : In ("channels.messages.list", cfg "channels::channel_id::messages" 10 10000)
                 RateLimitMappings).
  { unfold RateLimitMappings. do 11 right. left. reflexivity. }
  assert (H2 : In ("channels.messages.get", cfg "channels::channel_id::messages::get" 10 10000)
                 RateLimitMappings).
  { unfold RateLimitMappings. do 12 right. left. reflexivity. }
  destruct (routes_have_their_own_buckets _ _ _ _ _ _ H1 H2 D D H) as [E _].
  discriminate E.
Defined.

(** An ID that is a word of the table does collide: user ["me"] is taken
    for the current user's route. *)
Example user_me_collides :
  resolveKey (cfg "users::user_id" 5 5000) (set_userId (Some "me") no_params)
  = resolveKey (cfg "users::me" 5 5000) no_params.
Proof. reflexivity. Qed.

End RouteFacts.

(** ** A zero wait without a slot *)

Section WindowEnd.

Import JS Bucket BucketHistory.
Local Open Scope Z_scope.

(** The loop of [_prune] stops at a timestamp that is not below the
    cutoff, sorted history or not. *)
Lemma prune_loop_head (cutoff oldest : Z) (ts rest : list Z) :
  prune_loop cutoff ts = oldest :: rest -> cutoff <= oldest.
Proof.
  induction ts as [|x ts IH]; simpl; [discriminate |].
  destruct (Z.ltb_spec x cutoff) as [Hlt | Hge]; [exact IH |].
  intros H. injection H as -> _. exact Hge.
Qed.

(** X20.  A result of 0 does not always mean that a slot was taken.  On
    any bucket, [acquire] returns 0 without recording the request exactly
    when the bucket is still full after the prune and its oldest timestamp
    is [windowMs] old or older at the second clock reading (the prune, at
    the first reading, kept it); the bucket is then left as pruned.  For
    a call that reads the same instant twice this is the instant exactly
    [windowMs] after the oldest timestamp. *)
Theorem zero_wait_without_a_slot (b : RateLimitBucket) (now1 now2 : Z) :
  ((fst (_tryAcquire now1 now2 b) = Int 0 /\ records now1 b = false) <->
   (exists oldest rest,
       _timestamps (_prune now1 b) = oldest :: rest /\
       limit b <= Z.of_nat (length (oldest :: rest)) /\
       now1 - windowMs b <= oldest <= now2 - windowMs b)) /\
  (records now1 b = false -> snd (_tryAcquire now1 now2 b) = _prune now1 b) /\
  (now1 = now2 ->
   fst (_tryAcquire now1 now2 b) = Int 0 -> records now1 b = false ->
   hd_error (_timestamps (_prune now1 b)) = Some (now1 - windowMs b)).
Proof.
  assert (Hhead : forall oldest rest,
             _timestamps (_prune now1 b) = oldest :: rest -> now1 - windowMs b <= oldest).
  { intros oldest rest H. unfold _prune in H. cbn [_timestamps with_timestamps] in H.
    now apply prune_loop_head in H. }
  unfold _tryAcquire, records.
  change (limit (_prune now1 b)) with (limit b).
  change (windowMs (_prune now1 b)) with (windowMs b).
  remember (_prune now1 b) as b1 eqn:Eb1.
  destruct (Z.ltb_spec (Z.of_nat (length (_timestamps b1))) (limit b)) as [Hlt | Hge].
  - split; [| split].
    + split.
      * intros [_ H]. discriminate H.
      * intros (oldest & rest & E & Hfull & _). rewrite E in Hlt. lia.
    + intros H. discriminate H.
    + intros _ _ H. discriminate H.
  - destruct (_timestamps b1) as [|oldest rest] eqn:Ets.
    + split; [| split].
      * split.
        -- intros [H _]. discriminate H.
        -- intros (oldest & rest & E & _). discriminate E.
      * reflexivity.
      * intros _ H. discriminate H.
    + pose proof (Hhead oldest rest eq_refl) as Hh. cbn [fst snd].
      split; [| split].
      * split.
        -- intros [H _]. exists oldest, rest.
           split; [reflexivity |]. split; [exact Hge |].
           assert (Hm : Z.max 0 (oldest + windowMs b - now2) = 0) by congruence.
           lia.
        -- intros (o & r & E & _ & Ho). injection E as <- <-.
           split; [| reflexivity]. f_equal. lia.
      * reflexivity.
      * intros -> H _. cbn [hd_error]. f_equal.
        assert (Hm : Z.max 0 (oldest + windowMs b - now2) = 0) by congruence.
        lia.
Qed.

End WindowEnd.
